(** * A verified model of the URL router ([src/index.ts])

    The development embeds [createRouter], its [parse] and [open]
    closures and [getPagePath] in Rocq and checks the statements of the
    specification against them.

    Modelling conventions.
    - A JavaScript string is a [string]; a character stands for one UTF-16
      code unit below 256.  The platform functions ([RegExp], the string
      methods, [encodeURIComponent], [decodeURIComponent]) are modelled
      on that fragment following ECMAScript.
    - A regular expression is a syntax tree run by a backtracking matcher
      with the priorities of ECMAScript (greedy quantifiers, leftmost
      alternative first).  [RegExp(source, 'i')] is modelled by a parser of
      pattern sources.
    - Code that can throw returns an [outcome]; the closure variable
      [prev], the atom value and the calls on [history] are fields of an
      explicit state. *)

From Stdlib Require Import Ascii NArith.
From stdpp Require Import base option list strings pretty gmap.

Open Scope string_scope.

(** ** Characters *)

Definition code (c : ascii) : N := N_of_ascii c.

Definition between (lo hi : N) (c : ascii) : bool :=
  ((lo <=? code c) && (code c <=? hi))%N.

Definition is_digit (c : ascii) : bool := between 48 57 c.
Definition is_upper (c : ascii) : bool := between 65 90 c.
Definition is_lower (c : ascii) : bool := between 97 122 c.

(** [\w] *)
Definition is_word (c : ascii) : bool :=
  is_digit c || is_upper c || is_lower c || (code c =? 95)%N.

(** [\s], restricted to code units below 256: TAB, LF, VT, FF, CR, space
    and the no-break space. *)
Definition is_space (c : ascii) : bool :=
  between 9 13 c || (code c =? 32)%N || (code c =? 160)%N.

(** Canonicalize of ECMAScript for an ignore-case, non-unicode pattern:
    the upper-case code unit, unless upper-casing gives several code units
    (sharp s) or maps a code unit above 127 below 128.  The micro sign and
    the y with diaeresis have their capital outside the first 256 code
    units. *)
Definition canonicalize (c : ascii) : N :=
  let n := code c in
  if is_lower c then (n - 32)%N
  else if between 224 254 c && negb (n =? 247)%N then (n - 32)%N
  else if (n =? 181)%N then 924%N
  else if (n =? 255)%N then 376%N
  else n.

(** The other code unit below 256 with the same canonical form, if any. *)
Definition swapcase (c : ascii) : ascii :=
  let n := code c in
  if is_lower c then ascii_of_N (n - 32)
  else if is_upper c then ascii_of_N (n + 32)
  else if between 224 254 c && negb (n =? 247)%N then ascii_of_N (n - 32)
  else if between 192 222 c && negb (n =? 215)%N then ascii_of_N (n + 32)
  else c.

Definition ascii_eqb (a b : ascii) : bool := (code a =? code b)%N.

Definition chr_eq (ic : bool) (a b : ascii) : bool :=
  if ic then (canonicalize a =? canonicalize b)%N else ascii_eqb a b.

(** ** Strings *)

Fixpoint str_take (n : nat) (s : string) : string :=
  match n, s with
  | S n', String c s' => String c (str_take n' s')
  | _, _ => ""
  end.

Fixpoint str_drop (n : nat) (s : string) : string :=
  match n, s with
  | S n', String _ s' => str_drop n' s'
  | _, _ => s
  end.

(** [s.slice(2)] *)
Definition slice2 (s : string) : string := str_drop 2 s.

(** [s.slice(0, -1)] *)
Definition slice_0_m1 (s : string) : string :=
  str_take (String.length s - 1) s.

(** [a || b] on strings: the empty string is falsy. *)
Definition str_or (a b : string) : string :=
  match a with "" => b | _ => a end.

(** [s.split('?')[0]] *)
Fixpoint before_question (s : string) : string :=
  match s with
  | "" => ""
  | String c s' => if ascii_eqb c "?" then "" else String c (before_question s')
  end.

(** ** Regular expressions *)

Inductive cls_item :=
| CChar (c : ascii)
| CWord
| CSpace.

Inductive regex :=
| Empty
| Chr (c : ascii)
| Cls (neg : bool) (items : list cls_item)
| AssertStart
| AssertEnd
| Seq (r1 r2 : regex)
| Alt (r1 r2 : regex)
| Star (r : regex)
| Plus (r : regex)
| Opt (r : regex)
| Group (i : nat) (r : regex).

Definition item_raw (it : cls_item) (c : ascii) : bool :=
  match it with
  | CChar a => ascii_eqb a c
  | CWord => is_word c
  | CSpace => is_space c
  end.

(** A class contains [c] when one of its members has the canonical form
    of [c]. *)
Definition item_mem (ic : bool) (it : cls_item) (c : ascii) : bool :=
  item_raw it c || (ic && item_raw it (swapcase c)).

Definition cls_mem (ic : bool) (items : list cls_item) (c : ascii) : bool :=
  existsb (fun it => item_mem ic it c) items.

Fixpoint groups_of (r : regex) : list nat :=
  match r with
  | Seq a b | Alt a b => groups_of a ++ groups_of b
  | Star a | Plus a | Opt a => groups_of a
  | Group i a => i :: groups_of a
  | _ => []
  end.

Abbreviation captures := (list (option string)).

Definition reset (r : regex) (cs : captures) : captures :=
  foldr (fun i acc => <[i := None]> acc) cs (groups_of r).

Definition mres : Type := string * captures.
Definition cont : Type := string -> captures -> option mres.

Definition shorter (s1 s : string) : bool :=
  Nat.ltb (String.length s1) (String.length s).

(** RepeatMatcher with [min = 0] and no upper bound: an iteration that
    consumes nothing is rejected, so [n] iterations at most are possible on
    a remainder shorter than [n]. *)
Fixpoint repeat_loop (m : string -> captures -> cont -> option mres)
    (k : cont) (n : nat) (s : string) (cs : captures) : option mres :=
  match n with
  | 0 => k s cs
  | S n' =>
      match m s cs (fun s1 cs1 =>
                      if shorter s1 s then repeat_loop m k n' s1 cs1 else None) with
      | Some z => Some z
      | None => k s cs
      end
  end.

Section Matcher.
Variable ic : bool.
Variable inp : string.

Fixpoint rmatch (r : regex) (s : string) (cs : captures) (k : cont)
    {struct r} : option mres :=
  match r with
  | Empty => k s cs
  | Chr c =>
      match s with
      | String a s' => if chr_eq ic c a then k s' cs else None
      | "" => None
      end
  | Cls neg items =>
      match s with
      | String a s' => if xorb neg (cls_mem ic items a) then k s' cs else None
      | "" => None
      end
  | AssertStart =>
      if Nat.eqb (String.length s) (String.length inp) then k s cs else None
  | AssertEnd => match s with "" => k s cs | _ => None end
  | Seq r1 r2 => rmatch r1 s cs (fun s1 cs1 => rmatch r2 s1 cs1 k)
  | Alt r1 r2 =>
      match rmatch r1 s cs k with
      | Some z => Some z
      | None => rmatch r2 s cs k
      end
  | Star r1 =>
      repeat_loop (fun s0 cs0 k0 => rmatch r1 s0 (reset r1 cs0) k0) k
                  (S (String.length s)) s cs
  | Plus r1 =>
      rmatch r1 s (reset r1 cs)
        (fun s1 cs1 =>
           repeat_loop (fun s0 cs0 k0 => rmatch r1 s0 (reset r1 cs0) k0) k
                       (S (String.length s1)) s1 cs1)
  | Opt r1 =>
      match rmatch r1 s (reset r1 cs)
              (fun s1 cs1 => if shorter s1 s then k s1 cs1 else None) with
      | Some z => Some z
      | None => k s cs
      end
  | Group i r1 =>
      rmatch r1 s cs
        (fun s1 cs1 =>
           k s1 (<[i := Some (str_take (String.length s - String.length s1) s)]> cs1))
  end.
End Matcher.

Record RegExp := {
  re_source : regex;
  re_ignoreCase : bool
}.

Definition ngroups (re : RegExp) : nat :=
  foldr (fun i acc => Nat.max (S i) acc) 0 (groups_of (re_source re)).

(** One attempt of the pattern at the position where [s] starts. *)
Definition match_at (re : RegExp) (inp s : string) : option mres :=
  rmatch (re_ignoreCase re) inp (re_source re) s
         (replicate (ngroups re) None) (fun s1 cs1 => Some (s1, cs1)).

Record jsmatch := {
  m_before : string;
  m_text : string;
  m_groups : list (option string);
  m_after : string
}.

Definition mk_match (inp s : string) (z : mres) : jsmatch :=
  {| m_before := str_take (String.length inp - String.length s) inp;
     m_text := str_take (String.length s - String.length z.1) s;
     m_groups := z.2;
     m_after := z.1 |}.

(** RegExpBuiltinExec from [lastIndex = 0] without the sticky flag: the
    start positions are tried from left to right. *)
Fixpoint search (re : RegExp) (inp s : string) : option jsmatch :=
  match match_at re inp s with
  | Some z => Some (mk_match inp s z)
  | None =>
      match s with
      | "" => None
      | String _ s' => search re inp s'
      end
  end.

Definition exec (re : RegExp) (s : string) : option jsmatch := search re s s.

(** [s.replace(re, f)] for a pattern without the global flag. *)
Definition replace_first (re : RegExp) (f : jsmatch -> string) (s : string) : string :=
  match exec re s with
  | Some m => m_before m +:+ f m +:+ m_after m
  | None => s
  end.

(** The scan shared by [s.replace(re, f)] and [s.match(re)] for a pattern
    with the global flag: the input is cut into the matches and the
    characters between them.  [skip] counts the characters of the last
    match that remain to be passed over; after an empty match the scan
    advances by one character. *)
Inductive piece :=
| Kept (c : ascii)
| Matched (text : string).

Fixpoint scan (re : RegExp) (inp : string) (skip : nat) (s : string) : list piece :=
  match s with
  | "" =>
      match skip, match_at re inp "" with
      | 0, Some _ => [Matched ""]
      | _, _ => []
      end
  | String c s' =>
      match skip with
      | S skip' => scan re inp skip' s'
      | 0 =>
          match match_at re inp s with
          | Some z =>
              match String.length s - String.length z.1 with
              | 0 => Matched "" :: Kept c :: scan re inp 0 s'
              | S n => Matched (str_take (S n) s) :: scan re inp n s'
              end
          | None => Kept c :: scan re inp 0 s'
          end
      end
  end.

Definition pieces (re : RegExp) (s : string) : list piece := scan re s 0 s.

Definition piece_text (f : string -> string) (p : piece) : string :=
  match p with
  | Kept c => String c ""
  | Matched text => f text
  end.

Fixpoint str_concat (l : list string) : string :=
  match l with
  | [] => ""
  | x :: l' => x +:+ str_concat l'
  end.

(** [s.replace(re, f)] for a pattern with the global flag; a replacement
    string without [$] is the constant function. *)
Definition replace_all (re : RegExp) (f : string -> string) (s : string) : string :=
  str_concat (map (piece_text f) (pieces re s)).

(** [s.match(re) || []] for a pattern with the global flag. *)
Definition match_all (re : RegExp) (s : string) : list string :=
  omap (fun p => match p with Matched text => Some text | Kept _ => None end)
       (pieces re s).

(** ** Exceptions *)

Inductive exn :=
| SyntaxError
| URIError
| TypeError
| Error (message : string)
| Unmodelled.   (* the run leaves the modelled fragment *)

Inductive outcome (A : Type) :=
| Ok (a : A)
| Throw (e : exn).
Arguments Ok {A} a.
Arguments Throw {A} e.

#[global] Instance outcome_ret : MRet outcome := fun A a => Ok a.
#[global] Instance outcome_bind : MBind outcome := fun A B f x =>
  match x with
  | Ok a => f a
  | Throw e => Throw e
  end.

#[global] Instance outcome_fmap : FMap outcome := fun A B f x =>
  match x with
  | Ok a => Ok (f a)
  | Throw e => Throw e
  end.

Fixpoint map_outcome {A B} (f : A -> outcome B) (l : list A) : outcome (list B) :=
  match l with
  | [] => Ok []
  | x :: l' => y ← f x; ys ← map_outcome f l'; Ok (y :: ys)
  end.

(** [s.replace(re, f)] with the global flag and a callback that can
    throw. *)
Definition replace_all_with (re : RegExp) (f : string -> outcome string)
    (s : string) : outcome string :=
  l ← map_outcome (fun p => match p with
                            | Kept c => Ok (String c "")
                            | Matched text => f text
                            end) (pieces re s);
  Ok (str_concat l).

(** ** The [RegExp] constructor

    [RegExp(source, 'i')] for the pattern syntax that [createRouter] can
    produce: pattern characters, identity escapes, [\w] and [\s], classes
    of characters, capturing groups, the assertions [^] and [$] and the
    greedy quantifiers.  A quantifier with nothing to repeat, a lone
    backslash and an unterminated group or class are syntax errors; the
    rest of the ECMAScript syntax is outside the model. *)

Definition is_alnum (c : ascii) : bool := is_digit c || is_upper c || is_lower c.

Fixpoint in_chars (set : string) (c : ascii) : bool :=
  match set with
  | "" => false
  | String a set' => ascii_eqb a c || in_chars set' c
  end.

Definition word_class : regex := Cls false [CWord].
Definition space_class : regex := Cls false [CSpace].

(** The members of a class, after its opening bracket and [^]. *)
Fixpoint parse_class (s : string) : outcome (list cls_item * string) :=
  match s with
  | "" => Throw SyntaxError
  | String c s' =>
      if ascii_eqb c "]" then Ok ([], s')
      else if ascii_eqb c "-" then Throw Unmodelled
      else if ascii_eqb c "\" then
        match s' with
        | "" => Throw SyntaxError
        | String d s'' =>
            it ← (if ascii_eqb d "w" then Ok CWord
                  else if ascii_eqb d "s" then Ok CSpace
                  else if is_alnum d then Throw Unmodelled
                  else Ok (CChar d));
            r ← parse_class s'';
            Ok (it :: r.1, r.2)
        end
      else
        r ← parse_class s';
        Ok (CChar c :: r.1, r.2)
  end.

Definition quantify (atom : regex) (s : string) : outcome (regex * string) :=
  match s with
  | String q s' =>
      if in_chars "*+?" q then
        match s' with
        | String l _ =>
            if ascii_eqb l "?" then Throw Unmodelled      (* lazy quantifier *)
            else Ok ((if ascii_eqb q "*" then Star atom
                      else if ascii_eqb q "+" then Plus atom
                      else Opt atom), s')
        | "" => Ok ((if ascii_eqb q "*" then Star atom
                     else if ascii_eqb q "+" then Plus atom
                     else Opt atom), s')
        end
      else if ascii_eqb q "{" then Throw Unmodelled
      else Ok (atom, s)
  | "" => Ok (atom, s)
  end.

(** A sequence of terms up to the end of the source or a closing
    parenthesis; [g] is the index of the next capturing group. *)
Fixpoint parse_terms (fuel : nat) (s : string) (g : nat)
    : outcome (regex * string * nat) :=
  match fuel with
  | 0 => Throw Unmodelled
  | S fuel' =>
      match s with
      | "" => Ok (Empty, s, g)
      | String c s' =>
          if ascii_eqb c ")" then Ok (Empty, s, g)
          else if ascii_eqb c "^" then
            r ← parse_terms fuel' s' g; Ok (Seq AssertStart r.1.1, r.1.2, r.2)
          else if ascii_eqb c "$" then
            r ← parse_terms fuel' s' g; Ok (Seq AssertEnd r.1.1, r.1.2, r.2)
          else if in_chars "*+?" c then Throw SyntaxError   (* nothing to repeat *)
          else if in_chars ".|{}]" c then Throw Unmodelled
          else
            a ← (if ascii_eqb c "\" then
                   match s' with
                   | "" => Throw SyntaxError
                   | String d s'' =>
                       if ascii_eqb d "w" then Ok (word_class, s'', g)
                       else if ascii_eqb d "s" then Ok (space_class, s'', g)
                       else if is_alnum d then Throw Unmodelled
                       else Ok (Chr d, s'', g)
                   end
                 else if ascii_eqb c "(" then
                   match s' with
                   | String "?" _ => Throw Unmodelled
                   | _ =>
                       r ← parse_terms fuel' s' (S g);
                       match r.1.2 with
                       | String ")" rest => Ok (Group g r.1.1, rest, r.2)
                       | _ => Throw SyntaxError
                       end
                   end
                 else if ascii_eqb c "[" then
                   match s' with
                   | String "^" s'' =>
                       r ← parse_class s''; Ok (Cls true r.1, r.2, g)
                   | _ => r ← parse_class s'; Ok (Cls false r.1, r.2, g)
                   end
                 else Ok (Chr c, s', g));
            q ← quantify a.1.1 a.1.2;
            r ← parse_terms fuel' q.2 a.2;
            Ok (Seq q.1 r.1.1, r.1.2, r.2)
      end
  end.

(** [RegExp(source, flags)] where [flags] is empty or ['i']. *)
Definition RegExp_new (source : string) (ignoreCase : bool) : outcome RegExp :=
  r ← parse_terms (S (String.length source)) source 0;
  match r.1.2 with
  | "" => Ok {| re_source := r.1.1; re_ignoreCase := ignoreCase |}
  | _ => Throw SyntaxError                                 (* unmatched ')' *)
  end.

(** ** [encodeURIComponent] and [decodeURIComponent] *)

Definition hex_digit (n : N) : ascii :=
  if (n <? 10)%N then ascii_of_N (48 + n) else ascii_of_N (55 + n).

Definition percent (n : N) : string :=
  String "%" (String (hex_digit (n / 16)) (String (hex_digit (n mod 16)) "")).

(** uriUnreserved: the alphanumerics and the marks [-_.!~*'()]. *)
Definition unreserved (c : ascii) : bool := is_alnum c || in_chars "-_.!~*'()" c.

Definition encode_char (c : ascii) : string :=
  let n := code c in
  if unreserved c then String c ""
  else if (n <? 128)%N then percent n
  else percent (192 + n / 64) +:+ percent (128 + n mod 64).

Fixpoint encodeURIComponent (s : string) : string :=
  match s with
  | "" => ""
  | String c s' => encode_char c +:+ encodeURIComponent s'
  end.

Definition hex_val (c : ascii) : option N :=
  let n := code c in
  if is_digit c then Some (n - 48)%N
  else if between 65 70 c then Some (n - 55)%N
  else if between 97 102 c then Some (n - 87)%N
  else None.

(** The octet written [%XY] at the head of [s], and what follows it. *)
Definition octet (s : string) : option (N * string) :=
  match s with
  | String "%" (String h (String l rest)) =>
      match hex_val h, hex_val l with
      | Some a, Some b => Some (16 * a + b, rest)%N
      | _, _ => None
      end
  | _ => None
  end.

(** A continuation octet [10xxxxxx]: its six payload bits. *)
Definition continuation (s : string) : option (N * string) :=
  match octet s with
  | Some (b, rest) =>
      if ((128 <=? b) && (b <? 192))%N then Some (b - 128, rest)%N else None
  | None => None
  end.

(** Whether the octets after a first octet [b >= 224] complete the UTF-8
    encoding of a code point: two or three continuation octets, no overlong
    form, no surrogate, nothing above U+10FFFF. *)
Definition long_sequence_ok (b : N) (rest : string) : bool :=
  match continuation rest with
  | Some (c1, rest1) =>
      match continuation rest1 with
      | Some (c2, rest2) =>
          if (b <? 240)%N then
            let v := ((b - 224) * 4096 + c1 * 64 + c2)%N in
            ((2048 <=? v) && negb ((55296 <=? v) && (v <=? 57343)))%N
          else if (b <? 248)%N then
            match continuation rest2 with
            | Some (c3, _) =>
                let v := ((b - 240) * 262144 + c1 * 4096 + c2 * 64 + c3)%N in
                ((65536 <=? v) && (v <=? 1114111))%N
            | None => false
            end
          else false
      | None => false
      end
  | None => false
  end.

Definition prepend (c : ascii) (r : outcome string) : outcome string :=
  s ← r; Ok (String c s).

(** Decode of ECMAScript with an empty reserved set.  A well-formed
    sequence that denotes a code point above U+00FF has no image in the
    model. *)
Fixpoint decodeURIComponent (s : string) : outcome string :=
  match s with
  | "" => Ok ""
  | String c s1 =>
      if negb (ascii_eqb c "%") then prepend c (decodeURIComponent s1)
      else
        match s1 with
        | String h (String l rest) =>
            match hex_val h, hex_val l with
            | Some a, Some b0 =>
                let b := (16 * a + b0)%N in
                if (b <? 128)%N then prepend (ascii_of_N b) (decodeURIComponent rest)
                else if (b <? 192)%N then Throw URIError
                else if (b <? 224)%N then
                  match rest with
                  | String "%" (String h2 (String l2 rest2)) =>
                      match hex_val h2, hex_val l2 with
                      | Some a2, Some b2 =>
                          let c2 := (16 * a2 + b2)%N in
                          if negb ((128 <=? c2) && (c2 <? 192))%N then Throw URIError
                          else
                            let v := ((b - 192) * 64 + (c2 - 128))%N in
                            if (v <? 128)%N then Throw URIError
                            else if (v <? 256)%N then
                              prepend (ascii_of_N v) (decodeURIComponent rest2)
                            else Throw Unmodelled
                      | _, _ => Throw URIError
                      end
                  | _ => Throw URIError
                  end
                else if long_sequence_ok b rest then Throw Unmodelled
                else Throw URIError
            | _, _ => Throw URIError
            end
        | _ => Throw URIError
        end
  end.

(** ** The regular-expression literals of the source *)

Definition literal (r : regex) : RegExp :=
  {| re_source := r; re_ignoreCase := false |}.

(** [/\/$/g] *)
Definition re_trailing_slash : RegExp := literal (Seq (Chr "/") AssertEnd).

(** [/\/:\w+/g] *)
Definition re_param : RegExp :=
  literal (Seq (Chr "/") (Seq (Chr ":") (Plus word_class))).

(** [/\/:\w+\?/g] *)
Definition re_optional_param : RegExp :=
  literal (Seq (Chr "/") (Seq (Chr ":") (Seq (Plus word_class) (Chr "?")))).

(** [/[\s!#$()+,.:<=?[\\\]^{|}]/g] *)
Definition special_items : list cls_item :=
  [CSpace; CChar "!"; CChar "#"; CChar "$"; CChar "("; CChar ")"; CChar "+";
   CChar ","; CChar "."; CChar ":"; CChar "<"; CChar "="; CChar "?";
   CChar "["; CChar "\"; CChar "]"; CChar "^"; CChar "{"; CChar "|";
   CChar "}"].

Definition re_special : RegExp := literal (Cls false special_items).

(** [/\/\\:\w+\\\?/g] *)
Definition re_escaped_optional : RegExp :=
  literal (Seq (Chr "/") (Seq (Chr "\") (Seq (Chr ":")
            (Seq (Plus word_class) (Seq (Chr "\") (Chr "?")))))).

(** [/\/\\:\w+/g] *)
Definition re_escaped_param : RegExp :=
  literal (Seq (Chr "/") (Seq (Chr "\") (Seq (Chr ":") (Plus word_class)))).

(** [/\/($|\?)/] *)
Definition re_slash_before_end : RegExp :=
  literal (Seq (Chr "/") (Group 0 (Alt AssertEnd (Chr "?")))).

(** ** Objects *)

Abbreviation ParamObject := (gmap string string).

(** [o[k] = v] on an object created by [{}]: the key [__proto__] reaches
    the setter inherited from [Object.prototype], which ignores a string. *)
Definition obj_set (k v : string) (o : ParamObject) : ParamObject :=
  if decide (k = "__proto__") then o else <[k := v]> o.

(** ToString of a value that is a string or [undefined]. *)
Definition to_string (v : option string) : string := default "undefined" v.

(** ** Routes *)

Definition decoder : Type := list (option string) -> outcome ParamObject.

(** The value of a configuration entry: a template or a
    [[RegExp, decoder]] pair. *)
Inductive route_value :=
| Template (template : string)
| Custom (pattern : RegExp) (cb : decoder).

Definition RouterConfig : Type := list (string * route_value).

(** An element [[name, pattern, cb, template?]] of [router.routes]. *)
Record route_entry := {
  r_name : string;
  r_pattern : RegExp;
  r_cb : decoder;
  r_template : option string
}.

(** The [reduce] of the decoder of a template route, from [index] on. *)
Fixpoint decode_matches (names : list string) (index : nat)
    (matches : list (option string)) (params : ParamObject) : outcome ParamObject :=
  match matches with
  | [] => Ok params
  | m :: rest =>
      v ← decodeURIComponent (to_string m);
      decode_matches names (S index) rest (obj_set (to_string (names !! index)) v params)
  end.

Definition template_names (value : string) : list string :=
  map slice2 (match_all re_param value).

Definition template_pattern (value : string) : string :=
  replace_all re_escaped_param (fun _ => "/([^/]+)")
    (replace_all re_escaped_optional (fun _ => "/?([^/]*)")
       (replace_all re_special (fun m => "\" +:+ m) value)).

Definition normalize_template (value : string) : string :=
  str_or (replace_all re_trailing_slash (fun _ => "") value) "/".

(** The callback of [Object.keys(routes).map] in [createRouter]. *)
Definition make_route (name : string) (value : route_value) : outcome route_entry :=
  match value with
  | Template value0 =>
      let value := normalize_template value0 in
      let names := template_names value in
      let pattern := template_pattern value in
      re ← RegExp_new ("^" +:+ pattern +:+ "$") true;
      Ok {| r_name := name; r_pattern := re;
            r_cb := fun matches => decode_matches names 0 matches ∅;
            r_template := Some value |}
  | Custom re cb =>
      Ok {| r_name := name; r_pattern := re; r_cb := cb; r_template := None |}
  end.

(** *** The order of [Object.keys]

    A configuration lists the own properties of the [routes] object in
    the order of their creation, with distinct names.  [Object.keys]
    returns the names that are array indices first, in ascending numeric
    order, and then the other names in the order of creation. *)

Fixpoint decimal (acc : N) (s : string) : option N :=
  match s with
  | "" => Some acc
  | String c s' =>
      if is_digit c then decimal (10 * acc + (code c - 48))%N s' else None
  end.

(** The canonical numeric strings of the integers below [2^32 - 1]. *)
Definition array_index (s : string) : option N :=
  match s with
  | "" => None
  | String c s' =>
      if ascii_eqb c "0" && negb (String.eqb s' "") then None
      else
        match decimal 0 s with
        | Some n => if (n <? 4294967295)%N then Some n else None
        | None => None
        end
  end.

Fixpoint insert_index (n : N) (k : string) (l : list (N * string)) : list (N * string) :=
  match l with
  | [] => [(n, k)]
  | (m, k') :: l' =>
      if (n <? m)%N then (n, k) :: l else (m, k') :: insert_index n k l'
  end.

Definition index_keys (keys : list string) : list (N * string) :=
  foldr (fun k acc => match array_index k with
                      | Some n => insert_index n k acc
                      | None => acc
                      end) [] keys.

Definition object_keys {A} (o : list (string * A)) : list string :=
  let keys := map fst o in
  map snd (index_keys keys)
  ++ filter (fun k => array_index k = None) keys.

Fixpoint object_get {A} (o : list (string * A)) (k : string) : option A :=
  match o with
  | [] => None
  | (k', v) :: o' => if String.eqb k' k then Some v else object_get o' k
  end.

(** *** The router *)

Record RouterOptions := {
  opt_search : bool;       (* [opts.search] is truthy *)
  opt_links : bool
}.

Record Router := {
  routes : list route_entry;
  opts : RouterOptions
}.

Definition make_routes (config : RouterConfig) : outcome (list route_entry) :=
  map_outcome (fun name => match object_get config name with
                           | Some value => make_route name value
                           | None => Throw TypeError
                           end) (object_keys config).

Definition createRouter (config : RouterConfig) (o : RouterOptions) : outcome Router :=
  rs ← make_routes config;
  Ok {| routes := rs; opts := o |}.

(** ** Pages and the state of a router *)

Record Page := {
  path : string;
  route : string;
  params : ParamObject
}.

(** What [parse] returns: [false], or a page or [undefined]. *)
Inductive parsed :=
| Unchanged
| Parsed (page : option Page).

(** The value held by the atom: the object [{}] it is created with, or
    what the last call [router(ctx, page)] stored. *)
Inductive atom_value :=
| EmptyObject
| Stored (page : option Page).

(** The calls made on the collaborators. *)
Inductive call :=
| PushState (url : string)
| ReplaceState (url : string)
| SetState (page : option Page).

Record state := {
  prev : option string;
  value : atom_value;
  calls : list call
}.

Definition initial : state :=
  {| prev := None; value := EmptyObject; calls := [] |}.

Definition set_prev (p : option string) (st : state) : state :=
  {| prev := p; value := value st; calls := calls st |}.

Definition history_call (c : call) (st : state) : state :=
  {| prev := prev st; value := value st; calls := calls st ++ [c] |}.

(** [router(ctx, page)] *)
Definition set_state (page : option Page) (st : state) : state :=
  {| prev := prev st; value := Stored page; calls := calls st ++ [SetState page] |}.

(** [path.match(pattern)] and [match.slice(1)]. *)
Definition match_groups (re : RegExp) (path : string) : option (list (option string)) :=
  m_groups <$> exec re path.

(** The loop of [parse] over [router.routes]. *)
Fixpoint find_page (rs : list route_entry) (path : string) : outcome (option Page) :=
  match rs with
  | [] => Ok None
  | r :: rs' =>
      match match_groups (r_pattern r) path with
      | Some groups =>
          ps ← r_cb r groups;
          Ok (Some {| path := path; route := r_name r; params := ps |})
      | None => find_page rs' path
      end
  end.

(** The replacement ['$1']: the text of the first group, empty when the
    group took no part in the match. *)
Definition dollar1 (m : jsmatch) : string := default "" (mjoin (m_groups m !! 0)).

(** The first two statements of [parse]. *)
Definition normalize_path (search : bool) (path : string) : string :=
  let path := if search then path else before_question path in
  str_or (replace_first re_slash_before_end dollar1 path) "/".

Definition parse (router : Router) (path0 : string) (st : state)
    : outcome parsed * state :=
  let path := normalize_path (opt_search (opts router)) path0 in
  if decide (prev st = Some path) then (Ok Unchanged, st)
  else
    let st := set_prev (Some path) st in
    (Parsed <$> find_page (routes router) path, st).

(** The browser around the router: whether [history] is defined, and the
    value of [process.env.NODE_ENV]. *)
Record Env := {
  has_history : bool;
  NODE_ENV : option string
}.

(** [router.open(path, redirect)] *)
Definition open (env : Env) (router : Router) (path : string) (redirect : bool)
    (st : state) : outcome unit * state :=
  match parse router path st with
  | (Throw e, st') => (Throw e, st')
  | (Ok Unchanged, st') => (Ok (), st')
  | (Ok (Parsed page), st') =>
      let st' :=
        if has_history env then
          history_call (if redirect then ReplaceState path else PushState path) st'
        else st' in
      (Ok (), set_state page st')
  end.

(** The [popstate] action on the location [location.pathname + location.search]. *)
Definition popstate (router : Router) (location : string) (st : state)
    : outcome unit * state :=
  match parse router location st with
  | (Throw e, st') => (Throw e, st')
  | (Ok Unchanged, st') => (Ok (), st')
  | (Ok (Parsed page), st') => (Ok (), set_state page st')
  end.

(** The clean-up of [onConnect]. *)
Definition disconnect (st : state) : state := set_prev None st.

(** ** [getPagePath]

    The parameters are declared as a rest parameter, so [params] is the
    array of the arguments that follow [name], and [params[key]] reads a
    property of that array. *)

Inductive jsval :=
| VUndefined
| VNumber (n : nat)
| VObject (o : ParamObject)
| VInherited (name : string).      (* found on the prototype chain of an array *)

(** The properties named by a word that an array inherits from
    [Array.prototype] and [Object.prototype] (ECMAScript 2023). *)
Definition inherited_names : list string :=
  ["at"; "concat"; "constructor"; "copyWithin"; "entries"; "every"; "fill";
   "filter"; "find"; "findIndex"; "findLast"; "findLastIndex"; "flat";
   "flatMap"; "forEach"; "includes"; "indexOf"; "join"; "keys";
   "lastIndexOf"; "map"; "pop"; "push"; "reduce"; "reduceRight"; "reverse";
   "shift"; "slice"; "some"; "sort"; "splice"; "toLocaleString";
   "toReversed"; "toSorted"; "toSpliced"; "toString"; "unshift"; "values";
   "with"; "hasOwnProperty"; "isPrototypeOf"; "propertyIsEnumerable";
   "valueOf"; "__proto__"; "__defineGetter__"; "__defineSetter__";
   "__lookupGetter__"; "__lookupSetter__"].

(** [params[key]] on the array [params] of the rest arguments. *)
Definition array_get (args : list ParamObject) (key : string) : jsval :=
  match array_index key with
  | Some i =>
      match args !! N.to_nat i with
      | Some o => VObject o
      | None => VUndefined
      end
  | None =>
      if String.eqb key "length" then VNumber (length args)
      else if existsb (String.eqb key) inherited_names then VInherited key
      else VUndefined
  end.

Definition truthy (v : jsval) : bool :=
  match v with
  | VUndefined => false
  | VNumber n => negb (Nat.eqb n 0)
  | VObject _ | VInherited _ => true
  end.

(** ToString.  An object whose own [toString] is a string has no
    primitive value; a built-in function prints its source text. *)
Definition js_to_string (v : jsval) : outcome string :=
  match v with
  | VUndefined => Ok "undefined"
  | VNumber n => Ok (pretty n)
  | VObject o =>
      match o !! "toString" with
      | Some _ => Throw TypeError
      | None => Ok "[object Object]"
      end
  | VInherited name =>
      if String.eqb name "__proto__" then Ok ""
      else if String.eqb name "constructor" then Ok "function Array() { [native code] }"
      else Ok ("function " +:+ name +:+ "() { [native code] }")
  end.

(** A value in a boolean position: [undefined] and the empty string are
    falsy. *)
Definition str_truthy (v : option string) : bool :=
  match v with
  | None | Some "" => false
  | Some _ => true
  end.

Definition find_route (router : Router) (name : string) : option route_entry :=
  List.find (fun i => String.eqb (r_name i) name) (routes router).

Definition getPagePath (env : Env) (router : Router) (name : string)
    (params : list ParamObject) : outcome string :=
  let route := find_route router name in
  let template := route ≫= r_template in
  _ ← (if decide (NODE_ENV env = Some "production") then Ok ()
       else if str_truthy template then Ok ()
       else Throw (Error "RegExp routes are not supported"));
  path ← match template with
         | None => Ok None
         | Some t =>
             p1 ← replace_all_with re_optional_param
                    (fun i =>
                       let param := array_get params (slice_0_m1 (slice2 i)) in
                       if truthy param then
                         s ← js_to_string param; Ok ("/" +:+ encodeURIComponent s)
                       else Ok "") t;
             p2 ← replace_all_with re_param
                    (fun i =>
                       s ← js_to_string (array_get params (slice2 i));
                       Ok ("/" +:+ encodeURIComponent s)) p1;
             Ok (Some p2)
         end;
  Ok (str_or (default "" path) "/").

(** [openPage] and [redirectPage]

    [router.open] is an action of reatom, which is called as
    [open(ctx, path, redirect)].  [router.open(path)] and
    [router.open(path, true)] pass the path where the action expects its
    context: a string has none of the methods of a context, and the call
    throws a TypeError before the body of [open] runs.  The argument, the
    call of [getPagePath], is evaluated first. *)
Definition open_detached (path : string) (redirect : bool) (st : state)
    : outcome unit * state :=
  (Throw TypeError, st).

Definition openPage (env : Env) (router : Router) (name : string)
    (params : list ParamObject) (st : state) : outcome unit * state :=
  match getPagePath env router name params with
  | Ok p => open_detached p false st
  | Throw e => (Throw e, st)
  end.

Definition redirectPage (env : Env) (router : Router) (name : string)
    (params : list ParamObject) (st : state) : outcome unit * state :=
  match getPagePath env router name params with
  | Ok p => open_detached p true st
  | Throw e => (Throw e, st)
  end.


(** ** Vocabulary of the statements *)

(** The number of calls [router(ctx, page)] made so far. *)
Fixpoint count_set_state (l : list call) : nat :=
  match l with
  | [] => 0
  | SetState _ :: l' => S (count_set_state l')
  | _ :: l' => count_set_state l'
  end.

Definition transitions (st : state) : nat := count_set_state (calls st).

(** The call on [history] made by [open], if [history] is defined. *)
Definition history_calls (env : Env) (path : string) (redirect : bool) : list call :=
  if has_history env then [if redirect then ReplaceState path else PushState path]
  else [].

Definition production : Env := {| has_history := true; NODE_ENV := Some "production" |}.
Definition development : Env := {| has_history := true; NODE_ENV := None |}.

Definition default_options : RouterOptions :=
  {| opt_search := false; opt_links := true |}.

(** The configuration of the documentation of [createRouter]. *)
Definition blog_config : RouterConfig :=
  [("home", Template "/");
   ("category", Template "/posts/:categoryId");
   ("post", Template "/posts/:categoryId/:id")].

Definition tag_config : RouterConfig := [("posts", Template "/posts/:tag?")].

Definition post_config : RouterConfig := [("post", Template "/posts/:id")].

(** Two overlapping templates, the second under a name that is an array
    index. *)
Definition overlap_config : RouterConfig :=
  [("all", Template "/:x"); ("404", Template "/:y")].

(** A route with a [[RegExp, decoder]] pair: [/^\/files\/(\w+)$/] and a
    decoder that names its group [id]. *)
Definition files_pattern : RegExp :=
  literal (Seq AssertStart (Seq (Chr "/") (Seq (Chr "f") (Seq (Chr "i")
            (Seq (Chr "l") (Seq (Chr "e") (Seq (Chr "s") (Seq (Chr "/")
            (Seq (Group 0 (Plus word_class)) AssertEnd))))))))).

Definition files_decoder : decoder :=
  fun parts => Ok {[ "id" := to_string (mjoin (parts !! 0)) ]}.

Definition files_config : RouterConfig :=
  [("files", Custom files_pattern files_decoder)].

(** The router of a configuration whose compilation succeeds. *)
Definition router_of (config : RouterConfig) : Router :=
  match createRouter config default_options with
  | Ok r => r
  | Throw _ => {| routes := []; opts := default_options |}
  end.

Definition guides_10 : ParamObject := {[ "categoryId" := "guides"; "id" := "10" ]}.

Definition no_route : route_entry :=
  {| r_name := ""; r_pattern := literal Empty; r_cb := fun _ => Ok ∅;
     r_template := None |}.

(** The two routes of [overlap_config], in the order of [router.routes]. *)
Definition route_404 : route_entry :=
  default no_route (routes (router_of overlap_config) !! 0).
Definition route_all : route_entry :=
  default no_route (routes (router_of overlap_config) !! 1).

(** A configuration that compiles gives [router_of]. *)
Definition compiles (config : RouterConfig) : bool :=
  match createRouter config default_options with
  | Ok _ => true
  | Throw _ => false
  end.

(** ** Templates as sequences of segments

    The templates of the data model: a sequence of segments, each written
    after a slash, that are literal text, a required parameter [:name] or
    an optional parameter [:name?]. *)

Inductive segment :=
| SLit (text : string)
| SReq (name : string)
| SOpt (name : string).

Definition segment_text (sg : segment) : string :=
  match sg with
  | SLit text => "/" +:+ text
  | SReq name => "/:" +:+ name
  | SOpt name => "/:" +:+ name +:+ "?"
  end.

Definition template_of (segs : list segment) : string :=
  str_concat (map segment_text segs).

Fixpoint all_chars (p : ascii -> bool) (s : string) : bool :=
  match s with
  | "" => true
  | String c s' => p c && all_chars p s'
  end.

(** The characters that [createRouter] escapes. *)
Definition special (c : ascii) : bool := cls_mem false special_items c.

Definition escape_char (c : ascii) : string :=
  if special c then String "\" (String c "") else String c "".

Fixpoint escape (s : string) : string :=
  match s with
  | "" => ""
  | String c s' => escape_char c +:+ escape s'
  end.

(** A text that no member of the class can extend. *)
Definition stops (p : ascii -> bool) (s : string) : bool :=
  match s with
  | "" => true
  | String c _ => negb (p c)
  end.

(** Literal text: no slash; no star, the one character of the pattern
    syntax that [createRouter] leaves unescaped; no colon at the head, where
    it would start a parameter. *)
Definition literal_char (c : ascii) : bool := negb (in_chars "/*" c).

Definition literal_ok (text : string) : bool :=
  all_chars literal_char text && stops (fun c => ascii_eqb ":" c) text.

Definition name_ok (name : string) : bool :=
  all_chars is_word name && negb (String.eqb name "").

Definition segment_ok (sg : segment) : bool :=
  match sg with
  | SLit text => literal_ok text
  | SReq name | SOpt name => name_ok name
  end.

Definition segment_name (sg : segment) : option string :=
  match sg with
  | SLit _ => None
  | SReq name | SOpt name => Some name
  end.

Definition segment_names (segs : list segment) : list string :=
  omap segment_name segs.

Definition is_optional (sg : segment) : bool :=
  match sg with SOpt _ => true | _ => false end.

(** The source of the pattern of a segment, and its syntax tree with [g]
    capturing groups before it. *)
Definition segment_pattern (sg : segment) : string :=
  match sg with
  | SLit text => "/" +:+ escape text
  | SReq _ => "/([^/]+)"
  | SOpt _ => "/?([^/]*)"
  end.

Definition pattern_of (segs : list segment) : string :=
  str_concat (map segment_pattern segs).

Definition not_slash : regex := Cls true [CChar "/"].

Fixpoint lits (text : string) (tail : regex) : regex :=
  match text with
  | "" => tail
  | String c text' => Seq (Chr c) (lits text' tail)
  end.

Fixpoint segs_re (segs : list segment) (g : nat) (tail : regex) : regex :=
  match segs with
  | [] => tail
  | SLit text :: segs' => Seq (Chr "/") (lits text (segs_re segs' g tail))
  | SReq _ :: segs' =>
      Seq (Chr "/")
        (Seq (Group g (Seq (Plus not_slash) Empty)) (segs_re segs' (S g) tail))
  | SOpt _ :: segs' =>
      Seq (Opt (Chr "/"))
        (Seq (Group g (Seq (Star not_slash) Empty)) (segs_re segs' (S g) tail))
  end.

Definition template_regex (segs : list segment) : RegExp :=
  {| re_source := Seq AssertStart (segs_re segs 0 (Seq AssertEnd Empty));
     re_ignoreCase := true |}.

(** The path of a template whose parameters take the values [vs], in
    order; an optional parameter without a value is left out with its
    slash. *)
Fixpoint fill (segs : list segment) (vs : list (option string)) : string :=
  match segs with
  | [] => ""
  | SLit text :: segs' => "/" +:+ text +:+ fill segs' vs
  | _ :: segs' =>
      match vs with
      | Some v :: vs' => "/" +:+ v +:+ fill segs' vs'
      | None :: vs' => fill segs' vs'
      | [] => fill segs' []
      end
  end.

(** A value of a parameter: not empty and without slash. *)
Definition segment_value (v : string) : bool :=
  all_chars (fun c => negb (ascii_eqb c "/")) v && negb (String.eqb v "").

(** The result of [replace(/\/$/g, '')]: the text without its last
    character when that is a slash. *)
Fixpoint strip_slash (s : string) : string :=
  match s with
  | "" => ""
  | String c s' =>
      match s' with
      | "" => if ascii_eqb c "/" then "" else s
      | _ => String c (strip_slash s')
      end
  end.

(** Two texts that an ignore-case pattern does not distinguish. *)
Fixpoint same_text (a b : string) : bool :=
  match a, b with
  | "", "" => true
  | String x a', String y b' => chr_eq true x y && same_text a' b'
  | _, _ => false
  end.

Fixpoint kept_text (b : string) : list piece :=
  match b with
  | "" => []
  | String c b' => Kept c :: kept_text b'
  end.

(** The priorities of a greedy repetition of a class over the run [v]:
    the longest run first, then each shorter one. *)
Fixpoint backtrack (k : cont) (v rest : string) (cs : captures) : option mres :=
  match v with
  | "" => k rest cs
  | String c v' =>
      match backtrack k v' rest cs with
      | Some z => Some z
      | None => k (v +:+ rest) cs
      end
  end.

(** A text that is empty or starts with a slash. *)
Definition boundary (s : string) : bool :=
  match s with
  | "" => true
  | String c _ => ascii_eqb c "/"
  end.

Definition final : cont := fun s cs => Some (s, cs).

Definition in_class (ic neg : bool) (items : list cls_item) (c : ascii) : bool :=
  xorb neg (cls_mem ic items c).

(** What the passes of [createRouter] make of a segment: the pieces of
    [/\/:\w+/g] in the template, the escaped text, and the text after the
    replacement of the optional parameters. *)
Definition name_pieces (sg : segment) : list piece :=
  match sg with
  | SLit text => kept_text ("/" +:+ text)
  | SReq name => [Matched ("/:" +:+ name)]
  | SOpt name => [Matched ("/:" +:+ name); Kept "?"]
  end.

Definition escaped_text (sg : segment) : string :=
  match sg with
  | SLit text => "/" +:+ escape text
  | SReq name => "/\:" +:+ name
  | SOpt name => "/\:" +:+ name +:+ "\?"
  end.

Definition optional_replaced (sg : segment) : string :=
  match sg with
  | SOpt _ => "/?([^/]*)"
  | _ => escaped_text sg
  end.

Definition non_slash (c : ascii) : bool := negb (ascii_eqb c "/").

Definition all_ok (segs : list segment) : bool := forallb segment_ok segs.

(** A source text that does not start with a quantifier. *)
Definition quant_free (s : string) : bool := stops (in_chars "*+?{") s.

(** Values that fit the parameters of a template, in order: a value
    without slash for each parameter, not empty for a required one; the
    last segment alone may be an optional parameter left out. *)
Fixpoint fits (segs : list segment) (vs : list (option string)) : bool :=
  match segs, vs with
  | [], [] => true
  | SLit _ :: segs', _ => fits segs' vs
  | SReq _ :: segs', Some v :: vs' => segment_value v && fits segs' vs'
  | SOpt _ :: segs', Some v :: vs' => all_chars non_slash v && fits segs' vs'
  | [SOpt _], [None] => true
  | _, _ => false
  end.

(** The text captured for a parameter: an optional parameter left out
    captures the empty text. *)
Definition captured (v : option string) : string := default "" v.

Fixpoint set_groups (g : nat) (vs : list string) (cs : captures) : captures :=
  match vs with
  | [] => cs
  | v :: vs' => set_groups (S g) vs' (<[g := Some v]> cs)
  end.

(** The assignments of the decoder of a template route, in order. *)
Fixpoint assign (params : ParamObject) (names values : list string) : ParamObject :=
  match names, values with
  | n :: names', v :: values' => assign (obj_set n v params) names' values'
  | _, _ => params
  end.

(** [decodeURIComponent] returns [d] on [w]. *)
Definition decodes (w d : string) : Prop := decodeURIComponent w = Ok d.

(** The route that [createRouter] makes of a template of segments. *)
Definition template_route (name : string) (segs : list segment) : route_entry :=
  {| r_name := name;
     r_pattern := template_regex segs;
     r_cb := fun matches => decode_matches (segment_names segs) 0 matches ∅;
     r_template := Some (template_of segs) |}.

(** A template without the empty literal segment that a trailing slash
    makes, and the segments of the template that [createRouter] keeps: the
    root alone when nothing is left. *)
Fixpoint trim (segs : list segment) : list segment :=
  match segs with
  | [] => []
  | sg :: segs' =>
      match segs', sg with
      | [], SLit "" => []
      | _, _ => sg :: trim segs'
      end
  end.

Definition norm (segs : list segment) : list segment :=
  match trim segs with
  | [] => [SLit ""]
  | l => l
  end.

Definition no_query (s : string) : bool :=
  all_chars (fun c => negb (ascii_eqb c "?")) s.

(** A template whose parameters are all required. *)
Definition required_only (segs : list segment) : bool :=
  forallb (fun sg => negb (is_optional sg)) segs.

(** The templates and routers of the examples, as segments. *)
Definition post_segments : list segment :=
  [SLit "posts"; SReq "categoryId"; SReq "id"].

Definition tag_segments : list segment := [SLit "posts"; SOpt "tag"].

Definition tag_route : route_entry :=
  default no_route (routes (router_of tag_config) !! 0).

(** The pattern of an optional parameter before [tail], and at the end
    of a template. *)
Definition optional_at (g : nat) (tail : regex) : regex :=
  Seq (Opt (Chr "/")) (Seq (Group g (Seq (Star not_slash) Empty)) tail).

Definition optional_end (g : nat) : regex := optional_at g (Seq AssertEnd Empty).

(** ** Texts made of the characters of a class

    [p] holds of the characters of a captured text, of a match result and
    of what a continuation returns. *)
Definition text_ok (p : ascii -> bool) (c : option string) : Prop :=
  match c with
  | Some t => all_chars p t = true
  | None => True
  end.

Definition result_ok (p : ascii -> bool) (z : mres) : Prop :=
  all_chars p z.1 = true /\ Forall (text_ok p) z.2.

Definition cont_ok (p : ascii -> bool) (k : cont) : Prop :=
  forall s cs z,
    all_chars p s = true -> Forall (text_ok p) cs -> k s cs = Some z -> result_ok p z.

Definition no_percent (s : string) : bool :=
  all_chars (fun c => negb (ascii_eqb c "%")) s.

(** A route whose decoder is the decoder of a template. *)
Definition template_cb (r : route_entry) : Prop :=
  exists names, forall groups, r_cb r groups = decode_matches names 0 groups ∅.

Definition templates_only (config : RouterConfig) : Prop :=
  forall name value, (name, value) ∈ config -> exists t, value = Template t.

(** ** Vocabulary of the further properties *)

(** A name that is no property of an array: no array index, not [length]
    and not inherited. *)
Definition plain_name (key : string) : bool :=
  match array_index key with
  | Some _ => false
  | None =>
      negb (String.eqb key "length")
      && negb (existsb (String.eqb key) inherited_names)
  end.

(** The values that [getPagePath] finds for the parameters of a template
    with plain names: [undefined] for each of them. *)
Definition blank_values (segs : list segment) : list (option string) :=
  omap (fun sg => match sg with
                  | SLit _ => None
                  | SReq _ => Some (Some "undefined")
                  | SOpt _ => Some None
                  end) segs.

(** The callback of [String.prototype.replace] over the pieces of a scan:
    the characters between the matches are kept. *)
Definition on_piece (f : string -> outcome string) (p : piece) : outcome string :=
  match p with
  | Kept c => Ok (String c "")
  | Matched text => f text
  end.

(** The two callbacks of [getPagePath]. *)
Definition optional_value (params : list ParamObject) (i : string) : outcome string :=
  let param := array_get params (slice_0_m1 (slice2 i)) in
  if truthy param then s ← js_to_string param; Ok ("/" +:+ encodeURIComponent s)
  else Ok "".

Definition required_value (params : list ParamObject) (i : string) : outcome string :=
  s ← js_to_string (array_get params (slice2 i));
  Ok ("/" +:+ encodeURIComponent s).

(** The characters that [encodeURIComponent] writes. *)
Definition encoded_char (c : ascii) : bool := unreserved c || ascii_eqb c "%".

(** The text that a segment of a template accepts in a path: the literal
    text after a slash, whatever the case; a slash and a value that is not
    empty; a value that can be empty, after a slash or without it.  And the
    text that the parameter of the segment captures. *)
Definition accepts (sg : segment) (x : string) : bool :=
  match sg with
  | SLit text => same_text ("/" +:+ text) x
  | SReq _ =>
      match x with
      | String c v => ascii_eqb c "/" && segment_value v
      | "" => false
      end
  | SOpt _ =>
      match x with
      | String c v =>
          if ascii_eqb c "/" then all_chars non_slash v else all_chars non_slash x
      | "" => true
      end
  end.

Definition capture_of (sg : segment) (x : string) : option string :=
  match sg with
  | SLit _ => None
  | SReq _ => Some (str_drop 1 x)
  | SOpt _ =>
      Some (match x with
            | String c v => if ascii_eqb c "/" then v else x
            | "" => ""
            end)
  end.

Fixpoint captured_texts (segs : list segment) (texts : list string) : list string :=
  match segs, texts with
  | sg :: segs', x :: texts' =>
      match capture_of sg x with
      | Some v => v :: captured_texts segs' texts'
      | None => captured_texts segs' texts'
      end
  | _, _ => []
  end.

(** A value of a configuration that [createRouter] compiles: a pair of a
    pattern and a decoder, or the template of segments that are
    well-formed. *)
Definition well_formed (v : route_value) : Prop :=
  match v with
  | Template t => exists segs, all_ok segs = true /\ t = template_of segs
  | Custom _ _ => True
  end.

(** What the result of [parse] says about the table: a page comes from
    the first entry whose pattern accepts the path, [undefined] means
    that no pattern accepts it. *)
Definition origin (rs : list route_entry) (p : string) (result : option Page) : Prop :=
  match result with
  | Some page =>
      path page = p
      /\ exists before r after groups,
           rs = (before ++ r :: after)%list
           /\ Forall (fun r' => match_groups (r_pattern r') p = None) before
           /\ match_groups (r_pattern r) p = Some groups
           /\ r_cb r groups = Ok (params page)
           /\ route page = r_name r
  | None => Forall (fun r => match_groups (r_pattern r) p = None) rs
  end.

(** ** [createSearchParams]

    The store of the [?search] part of the URL.  An object of type
    [Record<string, string>] is the list of its own properties in the order
    of their creation, with distinct names. *)

Abbreviation SearchObject := (list (string * string)).

(** *** [new URLSearchParams(params).toString()]

    The constructor takes the own properties in the order of
    [Object.keys]; the serializer of [application/x-www-form-urlencoded]
    writes the UTF-8 bytes of the names and values, the space as [+], the
    alphanumerics and [*-._] as they are and the other bytes as [%XX]. *)

Definition entries_of (params : SearchObject) : list (string * string) :=
  map (fun k => (k, default "" (object_get params k))) (object_keys params).

Definition form_safe (c : ascii) : bool := is_alnum c || in_chars "*-._" c.

Definition form_char (c : ascii) : string :=
  let n := code c in
  if (n =? 32)%N then "+"
  else if form_safe c then String c ""
  else if (n <? 128)%N then percent n
  else percent (192 + n / 64) +:+ percent (128 + n mod 64).

Fixpoint form_encode (s : string) : string :=
  match s with
  | "" => ""
  | String c s' => form_char c +:+ form_encode s'
  end.

Fixpoint serialize (entries : list (string * string)) : string :=
  match entries with
  | [] => ""
  | (k, v) :: rest =>
      form_encode k +:+ "=" +:+ form_encode v
      +:+ match rest with
          | [] => ""
          | _ => "&" +:+ serialize rest
          end
  end.

(** The value of [search] in [open]. *)
Definition search_of (params : SearchObject) : string :=
  match serialize (entries_of params) with
  | "" => ""
  | s => "?" +:+ s
  end.

(** *** [url.searchParams]

    The parser of [application/x-www-form-urlencoded] on the UTF-8 bytes
    of the query: the sequences between [&] that are not empty, each cut at
    its first [=]; in a name and in a value, [+] is a space, [%XX] is a
    byte and any other [%] stays, and the bytes are decoded as UTF-8.  A
    byte sequence is a string of bytes; a malformed sequence, which decodes
    to U+FFFD, and a code point above U+00FF have no image in the model. *)

Definition utf8_char (c : ascii) : string :=
  let n := code c in
  if (n <? 128)%N then String c ""
  else String (ascii_of_N (192 + n / 64)) (String (ascii_of_N (128 + n mod 64)) "").

Fixpoint utf8_encode (s : string) : string :=
  match s with
  | "" => ""
  | String c s' => utf8_char c +:+ utf8_encode s'
  end.

Fixpoint split_on (sep : ascii) (s : string) : list string :=
  match s with
  | "" => [""]
  | String c s' =>
      if ascii_eqb c sep then "" :: split_on sep s'
      else
        match split_on sep s' with
        | x :: l => String c x :: l
        | [] => [String c ""]
        end
  end.

Fixpoint cut_at (sep : ascii) (s : string) : string * string :=
  match s with
  | "" => ("", "")
  | String c s' =>
      if ascii_eqb c sep then ("", s')
      else let r := cut_at sep s' in (String c r.1, r.2)
  end.

Fixpoint plus_to_space (s : string) : string :=
  match s with
  | "" => ""
  | String c s' => String (if ascii_eqb c "+" then " "%char else c) (plus_to_space s')
  end.

Fixpoint percent_decode (s : string) : string :=
  match s with
  | "" => ""
  | String c s1 =>
      if ascii_eqb c "%" then
        match s1 with
        | String h (String l rest) =>
            match hex_val h, hex_val l with
            | Some a, Some b => String (ascii_of_N (16 * a + b)) (percent_decode rest)
            | _, _ => String c (percent_decode s1)
            end
        | _ => String c (percent_decode s1)
        end
      else String c (percent_decode s1)
  end.

Fixpoint utf8_decode (bytes : string) : outcome string :=
  match bytes with
  | "" => Ok ""
  | String b rest =>
      let n := code b in
      if (n <? 128)%N then prepend b (utf8_decode rest)
      else if ((194 <=? n) && (n <=? 195))%N then
        match rest with
        | String b2 rest2 =>
            let m := code b2 in
            if ((128 <=? m) && (m <? 192))%N then
              prepend (ascii_of_N ((n - 192) * 64 + (m - 128))) (utf8_decode rest2)
            else Throw Unmodelled
        | "" => Throw Unmodelled
        end
      else Throw Unmodelled
  end.

Definition form_decode (bytes : string) : outcome string :=
  utf8_decode (percent_decode (plus_to_space bytes)).

Definition parse_pair (bytes : string) : outcome (string * string) :=
  let r := cut_at "=" bytes in
  name ← form_decode r.1;
  value ← form_decode r.2;
  Ok (name, value).

(** The entries of [url.searchParams] for the value of [url.search],
    which is empty or starts with [?]. *)
Definition search_entries (search : string) : outcome (list (string * string)) :=
  let query := match search with
               | String c q => if ascii_eqb c "?" then q else search
               | "" => ""
               end in
  map_outcome parse_pair
    (List.filter (fun x => negb (String.eqb x "")) (split_on "&" (utf8_encode query))).

(** *** [Object.fromEntries] *)

Fixpoint set_entry (k v : string) (o : SearchObject) : SearchObject :=
  match o with
  | [] => [(k, v)]
  | (k', v') :: o' =>
      if String.eqb k' k then (k', v) :: o' else (k', v') :: set_entry k v o'
  end.

Definition from_entries (l : list (string * string)) : SearchObject :=
  fold_left (fun o kv => set_entry kv.1 kv.2 o) l [].

(** *** The store *)

Inductive search_call :=
| SearchPush (href : string)
| SearchReplace (href : string)
| SearchStore (params : SearchObject).

Record search_state := {
  s_prev : option string;
  s_value : SearchObject;
  s_calls : list search_call
}.

Definition search_initial : search_state :=
  {| s_prev := None; s_value := []; s_calls := [] |}.

(** The browser: whether [history] is defined, and the parts of
    [location]. *)
Record Location := {
  loc_pathname : string;
  loc_search : string;
  loc_hash : string
}.

Record SearchEnv := {
  s_history : bool;
  s_location : Location
}.

(** [store.open(params, redirect)] *)
Definition search_open (env : SearchEnv) (params : SearchObject) (redirect : bool)
    (st : search_state) : search_state :=
  let s := search_of params in
  if decide (s_prev st = Some s) then st
  else
    let href := loc_pathname (s_location env) +:+ s +:+ loc_hash (s_location env) in
    {| s_prev := Some s;
       s_value := params;
       s_calls := s_calls st
                  ++ (if s_history env
                      then [if redirect then SearchReplace href else SearchPush href]
                      else [])
                  ++ [SearchStore params] |}.

(** The [update] action on [location.href], which is all that the
    [popstate] action calls: [new URL(location.href)] has the [search] of
    [location].  The result is [Some false] for the [false] that the action
    returns, and [None] for [undefined]. *)
Definition search_update (loc : Location) (st : search_state)
    : outcome (option bool) * search_state :=
  if decide (s_prev st = Some (loc_search loc)) then (Ok (Some false), st)
  else
    match search_entries (loc_search loc) with
    | Ok entries =>
        (Ok None,
         {| s_prev := Some (loc_search loc);
            s_value := from_entries entries;
            s_calls := s_calls st ++ [SearchStore (from_entries entries)] |})
    | Throw e =>
        (Throw e,
         {| s_prev := Some (loc_search loc); s_value := s_value st; s_calls := s_calls st |})
    end.

(** The characters of a serialized name or value, and of a serialized
    query. *)
Definition name_char (c : ascii) : bool := form_safe c || in_chars "+%" c.

Definition query_char (c : ascii) : bool := form_safe c || in_chars "+%=&" c.

(** The text of an entry in a serialized query. *)
Definition pair_text (kv : string * string) : string :=
  form_encode kv.1 +:+ "=" +:+ form_encode kv.2.

(** A browser at the page [/list#top], before and after a navigation to
    the search string [?q=a+b%26c&page=2]. *)
Definition list_page : SearchEnv :=
  {| s_history := true;
     s_location := {| loc_pathname := "/list"; loc_search := ""; loc_hash := "#top" |} |}.

Definition list_query : SearchObject := [("q", "a b&c"); ("page", "2")].

Definition list_location : Location :=
  {| loc_pathname := "/list"; loc_search := "?q=a+b%26c&page=2"; loc_hash := "#top" |}.

(** * Properties *)

(** ** Basic facts about [parse] and [open] *)

Lemma parse_prev router path st :
  prev (parse router path st).2
  = Some (normalize_path (opt_search (opts router)) path).
Proof.
  unfold parse. case_decide as Hp; simpl; [exact Hp | reflexivity].
Qed.

Lemma parse_same router path st :
  prev st = Some (normalize_path (opt_search (opts router)) path) ->
  parse router path st = (Ok Unchanged, st).
Proof.
  intros Hp. unfold parse. case_decide; [reflexivity | contradiction].
Qed.

Lemma parse_fresh router path st :
  prev st ≠ Some (normalize_path (opt_search (opts router)) path) ->
  parse router path st
  = (Parsed <$> find_page (routes router)
                  (normalize_path (opt_search (opts router)) path),
     set_prev (Some (normalize_path (opt_search (opts router)) path)) st).
Proof.
  intros Hp. unfold parse. case_decide; [contradiction | reflexivity].
Qed.

Lemma parse_calls router path st :
  calls (parse router path st).2 = calls st
  ∧ value (parse router path st).2 = value st.
Proof.
  unfold parse. case_decide; simpl; auto.
Qed.

Lemma open_prev env router path redirect st :
  prev (open env router path redirect st).2
  = Some (normalize_path (opt_search (opts router)) path).
Proof.
  unfold open.
  pose proof (parse_prev router path st) as Hp.
  destruct (parse router path st) as [[[|page]|e] st']; simpl in *; try exact Hp.
  destruct (has_history env); simpl; exact Hp.
Qed.

Lemma open_same env router path redirect st :
  prev st = Some (normalize_path (opt_search (opts router)) path) ->
  open env router path redirect st = (Ok (), st).
Proof.
  intros Hp. unfold open. rewrite (parse_same _ _ _ Hp). reflexivity.
Qed.

(** What [open] does, by the result of [parse]. *)
Lemma open_effect env router path redirect st :
  match (parse router path st).1 with
  | Ok (Parsed page) =>
      (open env router path redirect st).1 = Ok ()
      ∧ calls (open env router path redirect st).2
        = (calls st ++ history_calls env path redirect ++ [SetState page])%list
      ∧ value (open env router path redirect st).2 = Stored page
  | Ok Unchanged =>
      (open env router path redirect st).1 = Ok ()
      ∧ calls (open env router path redirect st).2 = calls st
      ∧ value (open env router path redirect st).2 = value st
  | Throw e =>
      (open env router path redirect st).1 = Throw e
      ∧ calls (open env router path redirect st).2 = calls st
      ∧ value (open env router path redirect st).2 = value st
  end.
Proof.
  unfold open, history_calls.
  destruct (parse_calls router path st) as [Hc Hv].
  destruct (parse router path st) as [[[|page]|e] st']; simpl in *; auto.
  destruct (has_history env); simpl; rewrite Hc, <- ?app_assoc; auto.
Qed.

Lemma count_set_state_app l1 l2 :
  count_set_state (l1 ++ l2)%list = count_set_state l1 + count_set_state l2.
Proof.
  induction l1 as [|c l1 IH]; simpl; [reflexivity|].
  destruct c; simpl; rewrite IH; reflexivity.
Qed.

Lemma createRouter_router_of config :
  compiles config = true ->
  createRouter config default_options = Ok (router_of config).
Proof.
  unfold compiles, router_of.
  destruct (createRouter config default_options); [reflexivity | discriminate].
Qed.

Ltac compiled := apply createRouter_router_of; vm_compute; reflexivity.

(** ** Strings *)

Lemma sapp_cons c (a b : string) : String c a +:+ b = String c (a +:+ b).
Proof. reflexivity. Qed.

Lemma sapp_nil_l (b : string) : "" +:+ b = b.
Proof. reflexivity. Qed.

Create Rewrite HintDb str.
#[export] Hint Rewrite sapp_cons sapp_nil_l : str.

Ltac str := autorewrite with str in *.

Lemma sapp_nil_r (s : string) : s +:+ "" = s.
Proof. induction s as [|c s IH]; str; [reflexivity | rewrite IH; reflexivity]. Qed.

Lemma sapp_assoc (a b c : string) : (a +:+ b) +:+ c = a +:+ (b +:+ c).
Proof. induction a as [|x a IH]; str; [reflexivity | rewrite IH; reflexivity]. Qed.

Lemma slength_app (a b : string) :
  String.length (a +:+ b) = String.length a + String.length b.
Proof. induction a as [|x a IH]; str; simpl; [reflexivity | rewrite IH; reflexivity]. Qed.

Lemma str_take_app (a b : string) : str_take (String.length a) (a +:+ b) = a.
Proof.
  induction a as [|x a IH]; str; simpl; [destruct b; reflexivity | rewrite IH; reflexivity].
Qed.

Lemma str_take_all (a : string) : str_take (String.length a) a = a.
Proof. rewrite <- (sapp_nil_r a) at 2. apply str_take_app. Qed.

Lemma slength_app_minus (a b : string) :
  String.length (a +:+ b) - String.length b = String.length a.
Proof. rewrite slength_app. lia. Qed.

Lemma str_concat_app (l1 l2 : list string) :
  str_concat (l1 ++ l2) = str_concat l1 +:+ str_concat l2.
Proof.
  induction l1 as [|x l1 IH]; simpl; [reflexivity|].
  rewrite IH, sapp_assoc. reflexivity.
Qed.

Lemma all_chars_app p (a b : string) :
  all_chars p (a +:+ b) = all_chars p a && all_chars p b.
Proof.
  induction a as [|x a IH]; str; simpl; [reflexivity|].
  rewrite IH, andb_assoc. reflexivity.
Qed.

Lemma ascii_eqb_eq (a b : ascii) : ascii_eqb a b = true <-> a = b.
Proof.
  unfold ascii_eqb, code. rewrite N.eqb_eq. split; [|intros ->; reflexivity].
  intros H. rewrite <- (ascii_N_embedding a), <- (ascii_N_embedding b), H.
  reflexivity.
Qed.

Lemma ascii_eqb_refl (a : ascii) : ascii_eqb a a = true.
Proof. apply ascii_eqb_eq. reflexivity. Qed.

Lemma ascii_eqb_neq (a b : ascii) : ascii_eqb a b = false <-> a ≠ b.
Proof.
  rewrite <- ascii_eqb_eq. destruct (ascii_eqb a b); split; congruence.
Qed.

Lemma chr_eq_refl ic (a : ascii) : chr_eq ic a a = true.
Proof. unfold chr_eq. destruct ic; [apply N.eqb_refl | apply ascii_eqb_refl]. Qed.

Lemma same_text_refl (a : string) : same_text a a = true.
Proof.
  induction a as [|x a IH]; cbn [same_text]; [reflexivity|].
  rewrite chr_eq_refl, IH. reflexivity.
Qed.

(** ** The scan of a pattern with the global flag *)

Lemma scan_skip re inp (b rest : string) :
  scan re inp (String.length b) (b +:+ rest) = scan re inp 0 rest.
Proof.
  induction b as [|c b IH]; str; simpl; [destruct rest; reflexivity | exact IH].
Qed.

Lemma scan_hit re inp (m rest : string) cs :
  m ≠ "" ->
  match_at re inp (m +:+ rest) = Some (rest, cs) ->
  scan re inp 0 (m +:+ rest) = Matched m :: scan re inp 0 rest.
Proof.
  intros Hm Hat. destruct m as [|c m]; [contradiction|].
  change (String c m +:+ rest) with (String c (m +:+ rest)) in *.
  cbn [scan]. rewrite Hat. cbn [fst].
  change (String.length (String c (m +:+ rest))) with (S (String.length (m +:+ rest))).
  replace (S (String.length (m +:+ rest)) - String.length rest)
    with (S (String.length m)) by (rewrite slength_app; lia).
  cbn [str_take]. rewrite str_take_app, scan_skip. reflexivity.
Qed.

Lemma scan_miss re inp c (s : string) :
  match_at re inp (String c s) = None ->
  scan re inp 0 (String c s) = Kept c :: scan re inp 0 s.
Proof. intros Hat. cbn [scan]. rewrite Hat. reflexivity. Qed.

Lemma scan_end re inp :
  match_at re inp "" = None -> scan re inp 0 "" = [].
Proof. intros Hat. cbn [scan]. rewrite Hat. reflexivity. Qed.

(** A run of characters at none of which the pattern matches. *)
Lemma scan_kept re inp (b rest : string) :
  (forall b1 c b2, b = b1 +:+ String c b2 ->
                   match_at re inp (String c (b2 +:+ rest)) = None) ->
  scan re inp 0 (b +:+ rest)
  = (kept_text b ++ scan re inp 0 rest)%list.
Proof.
  induction b as [|c b IH]; intros H; [reflexivity|].
  change (String c b +:+ rest) with (String c (b +:+ rest)).
  rewrite scan_miss by (apply (H "" c b); reflexivity).
  simpl. f_equal. apply IH. intros b1 c' b2 ->.
  apply (H (String c b1) c' b2). reflexivity.
Qed.

Lemma concat_kept f (b : string) :
  str_concat (map (piece_text f) (kept_text b)) = b.
Proof.
  induction b as [|c b IH]; simpl; str; [reflexivity | rewrite IH; reflexivity].
Qed.

Lemma matched_kept (b : string) :
  omap (fun p => match p with Matched text => Some text | Kept _ => None end)
       (kept_text b) = [].
Proof. induction b as [|c b IH]; simpl; [reflexivity | exact IH]. Qed.

(** ** The matcher *)

Section Engine.
Variable ic : bool.
Variable inp : string.

Lemma rm_seq r1 r2 s cs k :
  rmatch ic inp (Seq r1 r2) s cs k
  = rmatch ic inp r1 s cs (fun s1 cs1 => rmatch ic inp r2 s1 cs1 k).
Proof. reflexivity. Qed.

Lemma rm_empty s cs k : rmatch ic inp Empty s cs k = k s cs.
Proof. reflexivity. Qed.

Lemma rm_chr c a s cs k :
  rmatch ic inp (Chr c) (String a s) cs k = if chr_eq ic c a then k s cs else None.
Proof. reflexivity. Qed.

Lemma rm_chr_same c s cs k : rmatch ic inp (Chr c) (String c s) cs k = k s cs.
Proof. rewrite rm_chr, chr_eq_refl. reflexivity. Qed.

Lemma rm_chr_nil c cs k : rmatch ic inp (Chr c) "" cs k = None.
Proof. reflexivity. Qed.

Lemma rm_end_nil cs k : rmatch ic inp AssertEnd "" cs k = k "" cs.
Proof. reflexivity. Qed.

Lemma rm_group i r s cs k :
  rmatch ic inp (Group i r) s cs k
  = rmatch ic inp r s cs
      (fun s1 cs1 =>
         k s1 (<[i := Some (str_take (String.length s - String.length s1) s)]> cs1)).
Proof. reflexivity. Qed.

Lemma rm_cls neg items a s cs k :
  rmatch ic inp (Cls neg items) (String a s) cs k
  = if in_class ic neg items a then k s cs else None.
Proof. reflexivity. Qed.

(** A greedy repetition of a class over a run of its members that stops
    at [rest]. *)
Lemma loop_class neg items k v rest cs n :
  all_chars (in_class ic neg items) v = true ->
  stops (in_class ic neg items) rest = true ->
  String.length (v +:+ rest) < n ->
  repeat_loop (fun s0 cs0 k0 =>
                 rmatch ic inp (Cls neg items) s0 (reset (Cls neg items) cs0) k0)
              k n (v +:+ rest) cs
  = backtrack k v rest cs.
Proof.
  revert n. induction v as [|c v IH]; intros n Hv Hrest Hn.
  - str. destruct n as [|n]; [lia|]. cbn [repeat_loop backtrack].
    destruct rest as [|a rest]; [reflexivity|].
    rewrite rm_cls. simpl in Hrest.
    destruct (in_class ic neg items a); [discriminate | reflexivity].
  - str. simpl in Hv. apply andb_true_iff in Hv as [Hc Hv].
    destruct n as [|n]; [lia|]. cbn [repeat_loop backtrack].
    rewrite rm_cls, Hc. unfold shorter. simpl String.length.
    destruct (Nat.ltb_spec (String.length (v +:+ rest)) (S (String.length (v +:+ rest))));
      [|lia].
    unfold reset at 1. simpl foldr.
    rewrite IH by (try assumption; simpl in Hn; lia).
    reflexivity.
Qed.

Lemma rm_star_class neg items k v rest cs :
  all_chars (in_class ic neg items) v = true ->
  stops (in_class ic neg items) rest = true ->
  rmatch ic inp (Star (Cls neg items)) (v +:+ rest) cs k = backtrack k v rest cs.
Proof.
  intros Hv Hrest. cbn [rmatch]. apply loop_class; [assumption..|lia].
Qed.

Lemma rm_plus_class neg items k c v rest cs :
  in_class ic neg items c = true ->
  all_chars (in_class ic neg items) v = true ->
  stops (in_class ic neg items) rest = true ->
  rmatch ic inp (Plus (Cls neg items)) (String c (v +:+ rest)) cs k
  = backtrack k v rest cs.
Proof.
  intros Hc Hv Hrest. cbn [rmatch].
  change (xorb neg (cls_mem ic items c)) with (in_class ic neg items c).
  rewrite Hc. apply loop_class; [assumption..|lia].
Qed.

Lemma rm_plus_class_stop neg items k rest cs :
  stops (in_class ic neg items) rest = true ->
  rmatch ic inp (Plus (Cls neg items)) rest cs k = None.
Proof.
  intros Hrest. cbn [rmatch]. destruct rest as [|a rest]; [reflexivity|].
  simpl in Hrest.
  change (xorb neg (cls_mem ic items a)) with (in_class ic neg items a).
  destruct (in_class ic neg items a); [discriminate | reflexivity].
Qed.
End Engine.

Lemma backtrack_first k v rest cs z :
  k rest cs = Some z -> backtrack k v rest cs = Some z.
Proof.
  intros Hk. induction v as [|c v IH]; cbn [backtrack]; [exact Hk|].
  rewrite IH. reflexivity.
Qed.

Lemma backtrack_none k v rest cs :
  (forall v1 v2, v = v1 +:+ v2 -> k (v2 +:+ rest) cs = None) ->
  backtrack k v rest cs = None.
Proof.
  induction v as [|c v IH]; intros H; cbn [backtrack].
  - apply (H "" ""). reflexivity.
  - rewrite IH.
    + apply (H "" (String c v)). reflexivity.
    + intros v1 v2 ->. apply (H (String c v1) v2). reflexivity.
Qed.

(** ** Characters of the template syntax *)

Lemma word_not_special c : is_word c = true -> special c = false.
Proof. destruct c as [[] [] [] [] [] [] [] []]; vm_compute; congruence. Qed.

Lemma word_non_slash c : is_word c = true -> non_slash c = true.
Proof. destruct c as [[] [] [] [] [] [] [] []]; vm_compute; congruence. Qed.

Lemma word_not_backslash c : is_word c = true -> ascii_eqb "\" c = false.
Proof. destruct c as [[] [] [] [] [] [] [] []]; vm_compute; congruence. Qed.

Lemma special_not_alnum c : special c = true -> is_alnum c = false.
Proof. destruct c as [[] [] [] [] [] [] [] []]; vm_compute; congruence. Qed.

Lemma in_class_word c : in_class false false [CWord] c = is_word c.
Proof.
  unfold in_class, cls_mem, item_mem. simpl. destruct (is_word c); reflexivity.
Qed.

Lemma in_class_not_slash ic c : in_class ic true [CChar "/"] c = non_slash c.
Proof. destruct ic, c as [[] [] [] [] [] [] [] []]; reflexivity. Qed.

Lemma all_chars_ext p q (s : string) :
  (forall c, p c = q c) -> all_chars p s = all_chars q s.
Proof.
  intros H. induction s as [|c s IH]; simpl; [reflexivity|].
  rewrite H, IH. reflexivity.
Qed.

Lemma all_chars_impl p q (s : string) :
  (forall c, p c = true -> q c = true) ->
  all_chars p s = true -> all_chars q s = true.
Proof.
  intros H. induction s as [|c s IH]; simpl; [reflexivity|].
  intros [Hc Hs]%andb_true_iff. rewrite (H _ Hc), (IH Hs). reflexivity.
Qed.

Lemma stops_ext p q (s : string) :
  (forall c, p c = q c) -> stops p s = stops q s.
Proof. intros H. destruct s; simpl; [reflexivity | rewrite H; reflexivity]. Qed.

Lemma boundary_stops_word s : boundary s = true -> stops is_word s = true.
Proof.
  destruct s as [|c s]; simpl; [reflexivity|].
  intros ->%ascii_eqb_eq. reflexivity.
Qed.

Lemma name_ok_cons name :
  name_ok name = true ->
  exists c name', name = String c name'
                  /\ is_word c = true /\ all_chars is_word name' = true.
Proof.
  unfold name_ok. destruct name as [|c name]; [discriminate|].
  cbn [all_chars]. intros [[Hc Hn]%andb_true_iff _]%andb_true_iff. eauto.
Qed.

(** ** Runs of word characters *)

Section WordRuns.
Variable inp : string.

Lemma word_run_first name rest cs k z :
  name_ok name = true ->
  stops is_word rest = true ->
  k rest cs = Some z ->
  rmatch false inp (Plus word_class) (name +:+ rest) cs k = Some z.
Proof.
  intros (c & name' & -> & Hc & Hn)%name_ok_cons Hrest Hk. str.
  unfold word_class. rewrite rm_plus_class.
  - apply backtrack_first, Hk.
  - rewrite in_class_word. exact Hc.
  - rewrite (all_chars_ext _ is_word) by apply in_class_word. exact Hn.
  - rewrite (stops_ext _ is_word) by apply in_class_word. exact Hrest.
Qed.

Lemma word_run_none name rest cs k :
  name_ok name = true ->
  stops is_word rest = true ->
  (forall s, stops (ascii_eqb "\") s = true -> k s cs = None) ->
  stops (ascii_eqb "\") rest = true ->
  rmatch false inp (Plus word_class) (name +:+ rest) cs k = None.
Proof.
  intros (c & name' & -> & Hc & Hn)%name_ok_cons Hrest Hk Hb. str.
  unfold word_class. rewrite rm_plus_class.
  - apply backtrack_none. intros v1 v2 ->. apply Hk.
    destruct v2 as [|a v2]; str; [exact Hb|]. simpl.
    rewrite all_chars_app in Hn. apply andb_true_iff in Hn as [_ Hn].
    simpl in Hn. apply andb_true_iff in Hn as [Ha _].
    rewrite (word_not_backslash _ Ha). reflexivity.
  - rewrite in_class_word. exact Hc.
  - rewrite (all_chars_ext _ is_word) by apply in_class_word. exact Hn.
  - rewrite (stops_ext _ is_word) by apply in_class_word. exact Hrest.
Qed.
End WordRuns.

(** ** Patterns that start with a slash *)

Section SlashPatterns.
Variable r : regex.
Variable inp : string.

Lemma match_at_not_slash c s :
  non_slash c = true -> match_at (literal (Seq (Chr "/") r)) inp (String c s) = None.
Proof.
  intros Hc. unfold match_at, literal. cbn [re_source re_ignoreCase].
  rewrite rm_seq, rm_chr. unfold chr_eq.
  unfold non_slash in Hc. apply negb_true_iff, ascii_eqb_neq in Hc.
  destruct (ascii_eqb "/" c) eqn:E; [|reflexivity].
  apply ascii_eqb_eq in E. congruence.
Qed.

Lemma match_at_nil : match_at (literal (Seq (Chr "/") r)) inp "" = None.
Proof. reflexivity. Qed.

Lemma scan_non_slash b rest :
  all_chars non_slash b = true ->
  scan (literal (Seq (Chr "/") r)) inp 0 (b +:+ rest)
  = (kept_text b ++ scan (literal (Seq (Chr "/") r)) inp 0 rest)%list.
Proof.
  induction b as [|c b IH]; intros Hb; str; [reflexivity|].
  simpl in Hb. apply andb_true_iff in Hb as [Hc Hb].
  rewrite scan_miss by (apply match_at_not_slash, Hc).
  simpl. rewrite IH by exact Hb. reflexivity.
Qed.
End SlashPatterns.

(** ** The passes of [createRouter] over a template of segments *)

Lemma rm_chr_stop inp c s cs k :
  stops (ascii_eqb c) s = true -> rmatch false inp (Chr c) s cs k = None.
Proof.
  destruct s as [|a s]; [reflexivity|]. simpl stops. intros H.
  rewrite rm_chr. unfold chr_eq. apply negb_true_iff in H. rewrite H. reflexivity.
Qed.

Lemma literal_char_non_slash c : literal_char c = true -> non_slash c = true.
Proof. destruct c as [[] [] [] [] [] [] [] []]; vm_compute; congruence. Qed.

Lemma escape_non_slash text :
  all_chars literal_char text = true -> all_chars non_slash (escape text) = true.
Proof.
  induction text as [|c text IH]; [reflexivity|]. cbn [all_chars escape].
  intros [Hc Ht]%andb_true_iff. rewrite all_chars_app, (IH Ht), andb_true_r.
  unfold escape_char. destruct (special c); cbn [all_chars];
    rewrite (literal_char_non_slash _ Hc); reflexivity.
Qed.

Lemma literal_non_slash text :
  literal_ok text = true -> all_chars non_slash text = true.
Proof.
  unfold literal_ok. intros [H _]%andb_true_iff.
  revert H. apply all_chars_impl, literal_char_non_slash.
Qed.

Lemma name_non_slash name : name_ok name = true -> all_chars non_slash name = true.
Proof.
  unfold name_ok. intros [H _]%andb_true_iff.
  revert H. apply all_chars_impl, word_non_slash.
Qed.

Lemma boundary_stops s c :
  ascii_eqb c "/" = false -> boundary s = true -> stops (ascii_eqb c) s = true.
Proof.
  intros Hc. destruct s as [|a s]; [reflexivity|]. simpl.
  intros ->%ascii_eqb_eq. rewrite Hc. reflexivity.
Qed.

(** The head of a literal segment and of what follows it is no colon. *)
Lemma literal_stops_colon text rest :
  literal_ok text = true -> boundary rest = true ->
  stops (ascii_eqb ":") (text +:+ rest) = true.
Proof.
  unfold literal_ok. intros [_ H]%andb_true_iff Hb.
  destruct text as [|c text]; str; [|exact H].
  apply boundary_stops; [reflexivity | exact Hb].
Qed.

(** After the escape, a literal segment does not continue with [\:]. *)
Lemma escaped_literal_no_param inp text rest cs r k :
  literal_ok text = true -> boundary rest = true ->
  rmatch false inp (Chr "\") (escape text +:+ rest) cs
    (fun s1 cs1 => rmatch false inp (Seq (Chr ":") r) s1 cs1 k) = None.
Proof.
  unfold literal_ok. intros [_ H]%andb_true_iff Hb.
  destruct text as [|c text]; cbn [escape]; str.
  - apply rm_chr_stop, boundary_stops; [reflexivity | exact Hb].
  - simpl in H. unfold escape_char. destruct (special c) eqn:Hs; str.
    + rewrite rm_chr_same, rm_seq, rm_chr. unfold chr_eq.
      apply negb_true_iff in H. rewrite H. reflexivity.
    + rewrite rm_chr. unfold chr_eq.
      destruct (ascii_eqb "\" c) eqn:E; [|reflexivity].
      apply ascii_eqb_eq in E. subst c. discriminate.
Qed.

Section Passes.
Variable inp : string.

(** *** The names: [/\/:\w+/g] on the template *)

Lemma param_at_name name rest :
  name_ok name = true -> stops is_word rest = true ->
  match_at re_param inp ("/:" +:+ name +:+ rest) = Some (rest, []).
Proof.
  intros Hn Hrest. unfold match_at, re_param, literal.
  cbn [re_source re_ignoreCase]. str.
  rewrite rm_seq, rm_chr_same, rm_seq, rm_chr_same.
  apply word_run_first; [assumption..|reflexivity].
Qed.

Lemma param_at_literal text rest :
  literal_ok text = true -> boundary rest = true ->
  match_at re_param inp ("/" +:+ text +:+ rest) = None.
Proof.
  intros Ht Hrest. unfold match_at, re_param, literal.
  cbn [re_source re_ignoreCase]. str.
  rewrite rm_seq, rm_chr_same, rm_seq.
  apply rm_chr_stop, literal_stops_colon; assumption.
Qed.

Lemma names_segment sg rest :
  segment_ok sg = true -> boundary rest = true ->
  scan re_param inp 0 (segment_text sg +:+ rest)
  = (name_pieces sg ++ scan re_param inp 0 rest)%list.
Proof.
  intros Hsg Hrest. destruct sg as [text|name|name];
    cbn [segment_text name_pieces segment_ok] in *; rewrite ?sapp_assoc; str.
  - rewrite scan_miss by (apply param_at_literal; assumption).
    unfold re_param. rewrite scan_non_slash by (apply literal_non_slash, Hsg).
    reflexivity.
  - change (String "/" (String ":" (name +:+ rest)))
      with (("/:" +:+ name) +:+ rest).
    erewrite scan_hit; [reflexivity | discriminate |].
    rewrite sapp_assoc.
    apply param_at_name; [exact Hsg | apply boundary_stops_word, Hrest].
  - change (String "/" (String ":" (name +:+ String "?" rest)))
      with (("/:" +:+ name) +:+ String "?" rest).
    erewrite scan_hit; [|discriminate|].
    + unfold re_param. rewrite scan_miss by (apply match_at_not_slash; reflexivity).
      reflexivity.
    + rewrite sapp_assoc. apply param_at_name; [exact Hsg | reflexivity].
Qed.

(** *** The escape: [/[\s!#$()+,.:<=?[\\\]^{|}]/g] *)

Lemma special_at c s :
  match_at re_special inp (String c s) = if special c then Some (s, []) else None.
Proof. reflexivity. Qed.

Lemma escape_scan s :
  str_concat (map (piece_text (fun m => "\" +:+ m)) (scan re_special inp 0 s))
  = escape s.
Proof.
  induction s as [|c s IH]; [reflexivity|]. cbn [escape]. unfold escape_char.
  destruct (special c) eqn:Hc.
  - change (String c s) with (String c "" +:+ s).
    erewrite scan_hit; [|discriminate | str; rewrite special_at, Hc; reflexivity].
    cbn [map str_concat piece_text]. rewrite IH. reflexivity.
  - rewrite scan_miss by (rewrite special_at, Hc; reflexivity).
    cbn [map str_concat piece_text]. rewrite IH. reflexivity.
Qed.

(** *** The optional parameters: [/\/\\:\w+\\\?/g] on the escaped text *)

Lemma optional_at_optional name rest :
  name_ok name = true ->
  match_at re_escaped_optional inp
    (String "/" (String "\" (String ":" (name +:+ String "\" (String "?" rest)))))
  = Some (rest, []).
Proof.
  intros Hn. unfold match_at, re_escaped_optional, literal.
  cbn [re_source re_ignoreCase].
  rewrite rm_seq, rm_chr_same, rm_seq, rm_chr_same, rm_seq, rm_chr_same, rm_seq.
  apply word_run_first; [assumption | reflexivity |].
  rewrite rm_seq, rm_chr_same, rm_chr_same. reflexivity.
Qed.

Lemma optional_at_required name rest :
  name_ok name = true -> boundary rest = true ->
  match_at re_escaped_optional inp
    (String "/" (String "\" (String ":" (name +:+ rest)))) = None.
Proof.
  intros Hn Hrest. unfold match_at, re_escaped_optional, literal.
  cbn [re_source re_ignoreCase].
  rewrite rm_seq, rm_chr_same, rm_seq, rm_chr_same, rm_seq, rm_chr_same, rm_seq.
  apply word_run_none; [assumption | apply boundary_stops_word, Hrest | |].
  - intros s Hs. rewrite rm_seq. apply rm_chr_stop, Hs.
  - apply boundary_stops; [reflexivity | exact Hrest].
Qed.

Lemma optional_at_literal text rest :
  literal_ok text = true -> boundary rest = true ->
  match_at re_escaped_optional inp (String "/" (escape text +:+ rest)) = None.
Proof.
  intros Ht Hrest. unfold match_at, re_escaped_optional, literal.
  cbn [re_source re_ignoreCase].
  rewrite rm_seq, rm_chr_same, rm_seq.
  apply escaped_literal_no_param; assumption.
Qed.

Lemma optional_segment sg rest :
  segment_ok sg = true -> boundary rest = true ->
  scan re_escaped_optional inp 0 (escaped_text sg +:+ rest)
  = ((if is_optional sg then [Matched (escaped_text sg)]
      else kept_text (escaped_text sg))
     ++ scan re_escaped_optional inp 0 rest)%list.
Proof.
  intros Hsg Hrest. destruct sg as [text|name|name];
    cbn [escaped_text is_optional segment_ok] in *.
  - rewrite ?sapp_assoc; str.
    rewrite scan_miss by (apply optional_at_literal; assumption).
    unfold re_escaped_optional.
    rewrite scan_non_slash by (apply escape_non_slash; unfold literal_ok in Hsg;
                               apply andb_true_iff in Hsg as [H _]; exact H).
    reflexivity.
  - rewrite ?sapp_assoc; str.
    rewrite scan_miss by (apply optional_at_required; assumption).
    unfold re_escaped_optional.
    change (String "\" (String ":" (name +:+ rest)))
      with (String "\" (String ":" name) +:+ rest).
    rewrite (scan_non_slash _ _ (String "\" (String ":" name)))
      by (cbn [all_chars]; rewrite name_non_slash by exact Hsg; reflexivity).
    reflexivity.
  - erewrite scan_hit; [reflexivity | discriminate |].
    rewrite ?sapp_assoc; str. apply optional_at_optional, Hsg.
Qed.

(** *** The required parameters: [/\/\\:\w+/g] after that *)

Lemma required_at_required name rest :
  name_ok name = true -> boundary rest = true ->
  match_at re_escaped_param inp
    (String "/" (String "\" (String ":" (name +:+ rest)))) = Some (rest, []).
Proof.
  intros Hn Hrest. unfold match_at, re_escaped_param, literal.
  cbn [re_source re_ignoreCase].
  rewrite rm_seq, rm_chr_same, rm_seq, rm_chr_same, rm_seq, rm_chr_same.
  apply word_run_first; [assumption | apply boundary_stops_word, Hrest | reflexivity].
Qed.

Lemma required_at_literal text rest :
  literal_ok text = true -> boundary rest = true ->
  match_at re_escaped_param inp (String "/" (escape text +:+ rest)) = None.
Proof.
  intros Ht Hrest. unfold match_at, re_escaped_param, literal.
  cbn [re_source re_ignoreCase].
  rewrite rm_seq, rm_chr_same, rm_seq.
  apply escaped_literal_no_param; assumption.
Qed.

Lemma required_segment sg rest :
  segment_ok sg = true -> boundary rest = true ->
  scan re_escaped_param inp 0 (optional_replaced sg +:+ rest)
  = ((match sg with
      | SReq _ => [Matched (escaped_text sg)]
      | _ => kept_text (optional_replaced sg)
      end)
     ++ scan re_escaped_param inp 0 rest)%list.
Proof.
  intros Hsg Hrest. destruct sg as [text|name|name];
    cbn [optional_replaced escaped_text segment_ok] in *.
  - rewrite ?sapp_assoc; str.
    rewrite scan_miss by (apply required_at_literal; assumption).
    unfold re_escaped_param.
    rewrite scan_non_slash by (apply escape_non_slash; unfold literal_ok in Hsg;
                               apply andb_true_iff in Hsg as [H _]; exact H).
    reflexivity.
  - erewrite scan_hit; [reflexivity | discriminate |].
    rewrite ?sapp_assoc; str. apply required_at_required; assumption.
  - str. rewrite scan_miss by reflexivity.
    unfold re_escaped_param.
    change (String "?" (String "(" (String "[" (String "^" ?x))))
      with ("?([^" +:+ x).
    rewrite (scan_non_slash _ _ "?([^") by reflexivity.
    rewrite (scan_miss (literal _)) by reflexivity.
    change (String "]" (String "*" (String ")" rest))) with ("]*)" +:+ rest).
    rewrite (scan_non_slash _ _ "]*)") by reflexivity.
    reflexivity.
Qed.
End Passes.

(** ** The names and the pattern source of a template of segments *)

Lemma scan_segments re inp (text : segment -> string) (out : segment -> list piece) segs :
  (forall sg rest, segment_ok sg = true -> boundary rest = true ->
     scan re inp 0 (text sg +:+ rest) = (out sg ++ scan re inp 0 rest)%list) ->
  (forall sg rest, boundary (text sg +:+ rest) = true) ->
  scan re inp 0 "" = [] ->
  all_ok segs = true ->
  scan re inp 0 (str_concat (map text segs)) = flat_map out segs.
Proof.
  intros Hseg Hb Hnil. induction segs as [|sg segs IH]; intros Hok.
  - exact Hnil.
  - cbn [all_ok forallb] in Hok. apply andb_true_iff in Hok as [Hsg Hok].
    cbn [map str_concat flat_map]. rewrite Hseg.
    + rewrite (IH Hok). reflexivity.
    + exact Hsg.
    + destruct segs as [|sg' segs]; [reflexivity|]. apply Hb.
Qed.

Lemma escape_app (a b : string) : escape (a +:+ b) = escape a +:+ escape b.
Proof.
  induction a as [|c a IH]; str; [reflexivity|]. cbn [escape].
  rewrite IH, sapp_assoc. reflexivity.
Qed.

Lemma escape_word name : all_chars is_word name = true -> escape name = name.
Proof.
  induction name as [|c name IH]; [reflexivity|]. cbn [all_chars escape].
  intros [Hc Hn]%andb_true_iff. unfold escape_char.
  rewrite (word_not_special _ Hc), (IH Hn). reflexivity.
Qed.

Lemma escape_segment sg :
  segment_ok sg = true -> escape (segment_text sg) = escaped_text sg.
Proof.
  destruct sg as [text|name|name]; cbn [segment_text escaped_text segment_ok];
    intros H; rewrite ?escape_app; try reflexivity;
    unfold name_ok in H; apply andb_true_iff in H as [H _];
    rewrite (escape_word _ H); reflexivity.
Qed.

Lemma escape_template segs :
  all_ok segs = true ->
  escape (template_of segs) = str_concat (map escaped_text segs).
Proof.
  unfold template_of. induction segs as [|sg segs IH]; [reflexivity|].
  cbn [all_ok forallb map str_concat]. intros [Hsg Hok]%andb_true_iff.
  rewrite escape_app, (escape_segment _ Hsg), (IH Hok). reflexivity.
Qed.

Lemma str_concat_flat_map {A} (f : piece -> string) (out : A -> list piece) l :
  str_concat (map f (flat_map out l))
  = str_concat (map (fun x => str_concat (map f (out x))) l).
Proof.
  induction l as [|x l IH]; [reflexivity|]. cbn [flat_map map str_concat].
  rewrite map_app, str_concat_app, IH. reflexivity.
Qed.

Lemma str_concat_ext {A} (f g : A -> string) l :
  Forall (fun x => f x = g x) l ->
  str_concat (map f l) = str_concat (map g l).
Proof.
  induction 1 as [|x l Hx _ IH]; [reflexivity|]. cbn [map str_concat].
  rewrite Hx, IH. reflexivity.
Qed.

Lemma all_ok_Forall segs :
  all_ok segs = true -> Forall (fun sg => segment_ok sg = true) segs.
Proof.
  induction segs as [|sg segs IH]; [constructor|].
  cbn [all_ok forallb]. intros [Hsg Hok]%andb_true_iff. constructor; auto.
Qed.

(** The names collected by [createRouter]. *)
Lemma template_names_segments segs :
  all_ok segs = true ->
  template_names (template_of segs) = segment_names segs.
Proof.
  intros Hok. unfold template_names, match_all, pieces, template_of.
  rewrite (scan_segments _ _ segment_text name_pieces);
    [| intros; apply names_segment; assumption
     | intros [?|?|?] ?; reflexivity
     | reflexivity
     | exact Hok].
  clear Hok. unfold segment_names.
  induction segs as [|sg segs IH]; [reflexivity|]. cbn [flat_map].
  rewrite omap_app, map_app, IH. destruct sg as [text|name|name]; cbn [name_pieces].
  - rewrite matched_kept. reflexivity.
  - reflexivity.
  - reflexivity.
Qed.

(** The source of the pattern built by [createRouter]. *)
Lemma template_pattern_segments segs :
  all_ok segs = true ->
  template_pattern (template_of segs) = pattern_of segs.
Proof.
  intros Hok. unfold template_pattern.
  unfold replace_all at 3. unfold pieces. rewrite escape_scan, (escape_template _ Hok).
  unfold replace_all at 2. unfold pieces.
  rewrite (scan_segments _ _ escaped_text
             (fun sg => if is_optional sg then [Matched (escaped_text sg)]
                        else kept_text (escaped_text sg)));
    [| intros; apply optional_segment; assumption
     | intros [?|?|?] ?; reflexivity
     | reflexivity
     | exact Hok].
  rewrite str_concat_flat_map.
  rewrite (str_concat_ext _ optional_replaced).
  2:{ apply Forall_forall. intros [text|name|name] _;
        cbn [is_optional optional_replaced map str_concat piece_text];
        rewrite ?concat_kept; reflexivity. }
  unfold replace_all, pieces.
  rewrite (scan_segments _ _ optional_replaced
             (fun sg => match sg with
                        | SReq _ => [Matched (escaped_text sg)]
                        | _ => kept_text (optional_replaced sg)
                        end));
    [| intros; apply required_segment; assumption
     | intros [?|?|?] ?; reflexivity
     | reflexivity
     | exact Hok].
  rewrite str_concat_flat_map. unfold pattern_of.
  apply str_concat_ext, Forall_forall. intros [text|name|name] _;
    cbn [optional_replaced segment_pattern map str_concat piece_text];
    rewrite ?concat_kept; reflexivity.
Qed.

(** ** The pattern of a template of segments, parsed *)

Lemma bind_ok {A B} (a : A) (f : A -> outcome B) : (Ok a ≫= f) = f a.
Proof. reflexivity. Qed.

Lemma quantify_none atom s : quant_free s = true -> quantify atom s = Ok (atom, s).
Proof.
  destruct s as [|c s]; [reflexivity|]. unfold quant_free. cbn [stops].
  intros H. apply negb_true_iff in H. unfold quantify.
  destruct c as [[] [] [] [] [] [] [] []]; try reflexivity;
    vm_compute in H; discriminate H.
Qed.

Lemma step_nil f g : parse_terms (S f) "" g = Ok (Empty, "", g).
Proof. reflexivity. Qed.

Lemma step_close f s g : parse_terms (S f) (String ")" s) g = Ok (Empty, String ")" s, g).
Proof. reflexivity. Qed.

Lemma step_start f s g :
  parse_terms (S f) (String "^" s) g
  = (r ← parse_terms f s g; Ok (Seq AssertStart r.1.1, r.1.2, r.2)).
Proof. reflexivity. Qed.

Lemma step_end f s g :
  parse_terms (S f) (String "$" s) g
  = (r ← parse_terms f s g; Ok (Seq AssertEnd r.1.1, r.1.2, r.2)).
Proof. reflexivity. Qed.

Lemma step_slash f s g :
  parse_terms (S f) (String "/" s) g
  = (q ← quantify (Chr "/") s;
     r ← parse_terms f q.2 g;
     Ok (Seq q.1 r.1.1, r.1.2, r.2)).
Proof. reflexivity. Qed.

Lemma step_plain f c s g :
  special c = false -> literal_char c = true ->
  parse_terms (S f) (String c s) g
  = (q ← quantify (Chr c) s;
     r ← parse_terms f q.2 g;
     Ok (Seq q.1 r.1.1, r.1.2, r.2)).
Proof.
  intros Hs Hl.
  destruct c as [[] [] [] [] [] [] [] []];
    try (vm_compute in Hs; discriminate Hs);
    try (vm_compute in Hl; discriminate Hl); reflexivity.
Qed.

Lemma step_escaped f c s g :
  special c = true ->
  parse_terms (S f) (String "\" (String c s)) g
  = (q ← quantify (Chr c) s;
     r ← parse_terms f q.2 g;
     Ok (Seq q.1 r.1.1, r.1.2, r.2)).
Proof.
  intros Hs.
  destruct c as [[] [] [] [] [] [] [] []];
    try (vm_compute in Hs; discriminate Hs); reflexivity.
Qed.

Lemma step_class f q s g :
  in_chars "*+" q = true ->
  parse_terms (S f) (String "[" (String "^" (String "/" (String "]"
                 (String q (String ")" s)))))) g
  = (r ← parse_terms f (String ")" s) g;
     Ok (Seq ((if ascii_eqb q "*" then Star else Plus) not_slash) r.1.1, r.1.2, r.2)).
Proof.
  intros Hq.
  destruct q as [[] [] [] [] [] [] [] []];
    try (vm_compute in Hq; discriminate Hq); reflexivity.
Qed.

Lemma step_group f s g inner rest g1 :
  stops (ascii_eqb "?") s = true ->
  parse_terms f s (S g) = Ok (inner, String ")" rest, g1) ->
  parse_terms (S f) (String "(" s) g
  = (q ← quantify (Group g inner) rest;
     r ← parse_terms f q.2 g1;
     Ok (Seq q.1 r.1.1, r.1.2, r.2)).
Proof.
  intros Hs Hin.
  assert (parse_terms (S f) (String "(" s) g
          = (a ← (r ← parse_terms f s (S g);
                  match r.1.2 with
                  | String ")" rest => Ok (Group g r.1.1, rest, r.2)
                  | _ => Throw SyntaxError
                  end);
             q ← quantify a.1.1 a.1.2;
             r ← parse_terms f q.2 a.2;
             Ok (Seq q.1 r.1.1, r.1.2, r.2))) as ->.
  { destruct s as [|c s]; [reflexivity|]. cbn [stops] in Hs.
    destruct c as [[] [] [] [] [] [] [] []]; try reflexivity;
      vm_compute in Hs; discriminate Hs. }
  rewrite Hin. reflexivity.
Qed.

Lemma literal_char_quant_free c s :
  literal_char c = true -> quant_free (escape_char c +:+ s) = true.
Proof.
  intros Hl. unfold escape_char, quant_free. destruct (special c) eqn:Hs; str.
  - reflexivity.
  - cbn [stops]. destruct c as [[] [] [] [] [] [] [] []]; try reflexivity;
      try (vm_compute in Hs; discriminate Hs); vm_compute in Hl; discriminate Hl.
Qed.

Lemma escape_quant_free text rest :
  all_chars literal_char text = true -> quant_free rest = true ->
  quant_free (escape text +:+ rest) = true.
Proof.
  destruct text as [|c text]; [intros _ H; exact H|].
  cbn [all_chars escape]. intros [Hc _]%andb_true_iff _.
  rewrite sapp_assoc. apply literal_char_quant_free, Hc.
Qed.

Lemma escape_char_length c : 0 < String.length (escape_char c).
Proof. unfold escape_char. destruct (special c); simpl; lia. Qed.

Lemma parse_literal text rest g R rest' g' :
  all_chars literal_char text = true ->
  quant_free rest = true ->
  (forall f, String.length rest < f -> parse_terms f rest g = Ok (R, rest', g')) ->
  forall f, String.length (escape text +:+ rest) < f ->
            parse_terms f (escape text +:+ rest) g = Ok (lits text R, rest', g').
Proof.
  intros Ht Hq Hrest. induction text as [|c text IH]; [exact Hrest|].
  cbn [all_chars] in Ht. apply andb_true_iff in Ht as [Hc Ht].
  intros f Hf. cbn [escape lits] in *. rewrite sapp_assoc in *.
  rewrite slength_app in Hf. pose proof (escape_char_length c) as Hlen.
  destruct f as [|f]; [lia|].
  assert (quant_free (escape text +:+ rest) = true) as Hq'
    by (apply escape_quant_free; assumption).
  assert (String.length (escape text +:+ rest) < f) as Hf'.
  { unfold escape_char in Hf. destruct (special c); simpl in Hf; lia. }
  unfold escape_char in *. destruct (special c) eqn:Hs; str.
  - rewrite step_escaped by exact Hs.
    rewrite quantify_none, bind_ok by exact Hq'. cbn [fst snd].
    rewrite (IH Ht f Hf'). reflexivity.
  - rewrite step_plain by assumption.
    rewrite quantify_none, bind_ok by exact Hq'. cbn [fst snd].
    rewrite (IH Ht f Hf'). reflexivity.
Qed.

Lemma segment_names_cons sg segs :
  segment_names (sg :: segs)
  = match segment_name sg with
    | Some n => n :: segment_names segs
    | None => segment_names segs
    end.
Proof. reflexivity. Qed.

Lemma pattern_quant_free segs : quant_free (pattern_of segs +:+ "$") = true.
Proof. destruct segs as [|[?|?|?] segs]; reflexivity. Qed.

Lemma parse_segments segs :
  all_ok segs = true ->
  forall g f,
    String.length (pattern_of segs +:+ "$") < f ->
    parse_terms f (pattern_of segs +:+ "$") g
    = Ok (segs_re segs g (Seq AssertEnd Empty), "", g + length (segment_names segs)).
Proof.
  unfold pattern_of. induction segs as [|sg segs IH]; intros Hok g f Hf.
  - cbn [map str_concat segs_re] in *. str. simpl in Hf.
    destruct f as [|[|f]]; try lia.
    rewrite step_end, step_nil, bind_ok. cbn [fst snd segment_names omap length].
    rewrite Nat.add_0_r. reflexivity.
  - cbn [all_ok forallb] in Hok. apply andb_true_iff in Hok as [Hsg Hok].
    specialize (IH Hok). cbn [map str_concat] in *. rewrite sapp_assoc in *.
    pose proof (pattern_quant_free segs) as Hq. unfold pattern_of in Hq.
    set (rest := str_concat (map segment_pattern segs) +:+ "$") in *.
    destruct sg as [text|name|name]; cbn [segment_pattern segs_re segment_ok] in *.
    + rewrite sapp_assoc in *. str. destruct f as [|f]; [simpl in Hf; lia|].
      unfold literal_ok in Hsg. apply andb_true_iff in Hsg as [Ht _].
      rewrite step_slash, quantify_none, bind_ok
        by (apply escape_quant_free; assumption).
      cbn [fst snd].
      rewrite (parse_literal text rest g _ _ _ Ht Hq (IH g))
        by (simpl in Hf; lia).
      reflexivity.
    + str. simpl in Hf.
      destruct f as [|[|[|[|f]]]]; try lia.
      rewrite step_slash, quantify_none, bind_ok by reflexivity. cbn [fst snd].
      rewrite (step_group _ _ g (Seq (Plus not_slash) Empty) rest (S g));
        [| reflexivity | rewrite step_class, step_close by reflexivity; reflexivity].
      rewrite quantify_none, bind_ok by exact Hq. cbn [fst snd].
      rewrite (IH (S g)) by lia. rewrite !bind_ok. cbn [fst snd].
      replace (g + length (segment_names (SReq name :: segs)))
        with (S g + length (segment_names segs))
        by (rewrite segment_names_cons; simpl; lia).
      reflexivity.
    + str. simpl in Hf.
      destruct f as [|[|[|[|f]]]]; try lia.
      rewrite step_slash.
      change (quantify (Chr "/") (String "?" (String "(" ?x)))
        with (Ok (Opt (Chr "/"), String "(" x) : outcome (regex * string)).
      rewrite bind_ok. cbn [fst snd].
      rewrite (step_group _ _ g (Seq (Star not_slash) Empty) rest (S g));
        [| reflexivity | rewrite step_class, step_close by reflexivity; reflexivity].
      rewrite quantify_none, bind_ok by exact Hq. cbn [fst snd].
      rewrite (IH (S g)) by lia. rewrite !bind_ok. cbn [fst snd].
      replace (g + length (segment_names (SOpt name :: segs)))
        with (S g + length (segment_names segs))
        by (rewrite segment_names_cons; simpl; lia).
      reflexivity.
Qed.

(** [RegExp('^' + pattern + '$', 'i')] for the pattern of a template of
    segments. *)
Lemma RegExp_new_segments segs :
  all_ok segs = true ->
  RegExp_new ("^" +:+ pattern_of segs +:+ "$") true = Ok (template_regex segs).
Proof.
  intros Hok. unfold RegExp_new. str. cbn [String.length].
  rewrite step_start, (parse_segments segs Hok 0) by lia.
  reflexivity.
Qed.

(** ** Matching the path of a template *)

Lemma fits_optional_value name segs v vs :
  fits (SOpt name :: segs) (Some v :: vs) = all_chars non_slash v && fits segs vs.
Proof. destruct segs; reflexivity. Qed.

Lemma fits_optional_none name segs vs :
  fits (SOpt name :: segs) (None :: vs) = true -> segs = [] /\ vs = [].
Proof. destruct segs, vs; try discriminate. auto. Qed.

Lemma fits_optional_nil name segs : fits (SOpt name :: segs) [] = false.
Proof. destruct segs; reflexivity. Qed.

Section TemplateMatch.
Variable inp : string.

Lemma lits_match text pre s tail cs k :
  same_text text pre = true ->
  rmatch true inp (lits text tail) (pre +:+ s) cs k = rmatch true inp tail s cs k.
Proof.
  revert pre. induction text as [|c text IH]; intros [|a pre] H;
    try discriminate; [reflexivity|].
  cbn [same_text] in H. apply andb_true_iff in H as [Hc Ht].
  cbn [lits]. str. rewrite rm_seq, rm_chr, Hc. apply IH, Ht.
Qed.

Lemma lits_inv text tail s0 cs k z :
  rmatch true inp (lits text tail) s0 cs k = Some z ->
  exists pre s, s0 = pre +:+ s /\ same_text text pre = true
                /\ rmatch true inp tail s cs k = Some z.
Proof.
  revert s0. induction text as [|c text IH]; intros s0 H.
  - exists "", s0. auto.
  - cbn [lits] in H. rewrite rm_seq in H. destruct s0 as [|a s0]; [discriminate|].
    rewrite rm_chr in H. destruct (chr_eq true c a) eqn:Hc; [|discriminate].
    destruct (IH _ H) as (pre & s & -> & Ht & Hs).
    exists (String a pre), s. cbn [same_text]. rewrite Hc, Ht. auto.
Qed.

Lemma fill_boundary segs vs : fits segs vs = true -> boundary (fill segs vs) = true.
Proof.
  destruct segs as [|[text|name|name] segs]; [reflexivity..| |].
  - cbn [fits fill]. destruct vs as [|[v|] vs]; try discriminate. reflexivity.
  - destruct vs as [|[v|] vs].
    + rewrite fits_optional_nil. discriminate.
    + reflexivity.
    + intros [-> ->]%fits_optional_none. reflexivity.
Qed.

Lemma non_slash_run (v : string) :
  all_chars non_slash v = true ->
  all_chars (in_class true true [CChar "/"]) v = true.
Proof.
  intros H. rewrite (all_chars_ext _ non_slash) by apply in_class_not_slash. exact H.
Qed.

Lemma boundary_stops_run s :
  boundary s = true -> stops (in_class true true [CChar "/"]) s = true.
Proof.
  intros H. rewrite (stops_ext _ non_slash) by apply in_class_not_slash.
  destruct s as [|c s]; [reflexivity|]. simpl in *.
  apply ascii_eqb_eq in H as ->. reflexivity.
Qed.

(** The group of a required parameter takes the whole value. *)
Lemma required_group g v rest cs k z :
  segment_value v = true -> boundary rest = true ->
  k rest (<[g := Some v]> cs) = Some z ->
  rmatch true inp (Group g (Seq (Plus not_slash) Empty)) (v +:+ rest) cs k = Some z.
Proof.
  unfold segment_value. intros [Hv Hne]%andb_true_iff Hrest Hk.
  destruct v as [|c v]; [discriminate|]. clear Hne.
  cbn [all_chars] in Hv. apply andb_true_iff in Hv as [Hc Hv].
  rewrite rm_group, rm_seq. unfold not_slash. str.
  rewrite rm_plus_class;
    [| rewrite in_class_not_slash; exact Hc
     | apply non_slash_run, Hv
     | apply boundary_stops_run, Hrest].
  apply backtrack_first. rewrite rm_empty.
  change (String c (v +:+ rest)) with (String c v +:+ rest).
  rewrite slength_app_minus, str_take_app. exact Hk.
Qed.

(** The group of an optional parameter takes the whole value, which can
    be empty. *)
Lemma optional_group g v rest cs k z :
  all_chars non_slash v = true -> boundary rest = true ->
  k rest (<[g := Some v]> cs) = Some z ->
  rmatch true inp (Group g (Seq (Star not_slash) Empty)) (v +:+ rest) cs k = Some z.
Proof.
  intros Hv Hrest Hk. rewrite rm_group, rm_seq. unfold not_slash.
  rewrite rm_star_class;
    [| apply non_slash_run, Hv | apply boundary_stops_run, Hrest].
  apply backtrack_first. rewrite rm_empty.
  rewrite slength_app_minus, str_take_app. exact Hk.
Qed.

Lemma optional_slash s cs k z :
  k s cs = Some z ->
  rmatch true inp (Opt (Chr "/")) (String "/" s) cs k = Some z.
Proof.
  intros Hk. cbn [rmatch]. unfold shorter. simpl String.length.
  destruct (Nat.ltb_spec (String.length s) (S (String.length s))); [|lia].
  unfold reset. simpl. rewrite Hk. reflexivity.
Qed.

Lemma optional_slash_nil cs k :
  rmatch true inp (Opt (Chr "/")) "" cs k = k "" cs.
Proof. reflexivity. Qed.

Lemma template_match segs :
  forall vs g cs k z,
    fits segs vs = true ->
    k "" (set_groups g (map captured vs) cs) = Some z ->
    rmatch true inp (segs_re segs g (Seq AssertEnd Empty)) (fill segs vs) cs k = Some z.
Proof.
  induction segs as [|sg segs IH]; intros vs g cs k z Hfit Hk.
  - destruct vs; [|discriminate]. exact Hk.
  - destruct sg as [text|name|name]; cbn [fill segs_re] in *.
    + cbn [fits] in Hfit. str. rewrite rm_seq, rm_chr_same.
      rewrite lits_match by apply same_text_refl. apply IH; assumption.
    + cbn [fits] in Hfit. destruct vs as [|[v|] vs]; try discriminate.
      apply andb_true_iff in Hfit as [Hv Hfit].
      str. rewrite rm_seq, rm_chr_same, rm_seq.
      apply required_group; [exact Hv | apply fill_boundary, Hfit|].
      apply IH; assumption.
    + destruct vs as [|[v|] vs].
      * rewrite fits_optional_nil in Hfit. discriminate.
      * rewrite fits_optional_value in Hfit.
        apply andb_true_iff in Hfit as [Hv Hfit].
        str. rewrite rm_seq. apply optional_slash. rewrite rm_seq.
        apply optional_group; [exact Hv | apply fill_boundary, Hfit|].
        apply IH; assumption.
      * apply fits_optional_none in Hfit as [-> ->].
        cbn [fill segs_re map set_groups captured default] in *.
        rewrite rm_seq, optional_slash_nil, rm_seq.
        change "" with ("" +:+ "") at 1.
        apply optional_group; [reflexivity..|].
        rewrite rm_seq, rm_end_nil, rm_empty. exact Hk.
Qed.
End TemplateMatch.

(** ** The route of a template of segments *)

Lemma groups_of_lits text tail : groups_of (lits text tail) = groups_of tail.
Proof. induction text as [|c text IH]; [reflexivity | exact IH]. Qed.

Lemma groups_of_segments segs g :
  groups_of (segs_re segs g (Seq AssertEnd Empty))
  = seq g (length (segment_names segs)).
Proof.
  revert g. induction segs as [|[text|name|name] segs IH]; intros g;
    [reflexivity|..]; rewrite segment_names_cons; cbn [segs_re segment_name groups_of].
  - rewrite groups_of_lits. simpl. apply IH.
  - simpl. rewrite IH. reflexivity.
  - simpl. rewrite IH. reflexivity.
Qed.

Lemma max_index_seq g n :
  foldr (fun i acc => Nat.max (S i) acc) 0 (seq g n) = match n with 0 => 0 | _ => g + n end.
Proof.
  revert g. induction n as [|n IH]; intros g; [reflexivity|].
  cbn [seq foldr]. rewrite IH. destruct n; lia.
Qed.

Lemma ngroups_segments segs :
  ngroups (template_regex segs) = length (segment_names segs).
Proof.
  unfold ngroups, template_regex. cbn [re_source groups_of app].
  rewrite groups_of_segments, max_index_seq. destruct (length _); reflexivity.
Qed.

Lemma set_groups_fresh (vs : list string) (pre : captures) :
  set_groups (length pre) vs (pre ++ replicate (length vs) None)%list
  = (pre ++ map Some vs)%list.
Proof.
  revert pre. induction vs as [|v vs IH]; intros pre; [reflexivity|].
  cbn [set_groups length replicate map].
  rewrite insert_app_r_alt by lia. rewrite Nat.sub_diag. cbn [insert list_insert].
  rewrite (cons_middle (Some v) pre), app_assoc.
  replace (S (length pre)) with (length (pre ++ [Some v])%list)
    by (rewrite length_app; simpl; lia).
  rewrite IH, <- app_assoc. reflexivity.
Qed.

Lemma fits_length segs vs :
  fits segs vs = true -> length vs = length (segment_names segs).
Proof.
  revert vs. induction segs as [|[text|name|name] segs IH]; intros vs H.
  - destruct vs; [reflexivity | discriminate].
  - rewrite segment_names_cons. apply IH, H.
  - rewrite segment_names_cons. cbn [fits] in H.
    destruct vs as [|[v|] vs]; try discriminate.
    apply andb_true_iff in H as [_ H]. simpl. rewrite (IH _ H). reflexivity.
  - rewrite segment_names_cons. destruct vs as [|[v|] vs].
    + rewrite fits_optional_nil in H. discriminate.
    + rewrite fits_optional_value in H. apply andb_true_iff in H as [_ H].
      simpl. rewrite (IH _ H). reflexivity.
    + apply fits_optional_none in H as [-> ->]. reflexivity.
Qed.

(** The pattern of the template accepts the path of [fill] and captures
    the values. *)
Lemma match_groups_fill segs vs :
  fits segs vs = true ->
  match_groups (template_regex segs) (fill segs vs)
  = Some (map (fun v => Some (captured v)) vs).
Proof.
  intros Hfit. unfold match_groups, exec.
  assert (match_at (template_regex segs) (fill segs vs) (fill segs vs)
          = Some ("", map (fun v => Some (captured v)) vs)) as Hat.
  { unfold match_at. rewrite ngroups_segments, <- (fits_length _ _ Hfit).
    unfold template_regex. cbn [re_source re_ignoreCase].
    rewrite rm_seq. cbn [rmatch]. rewrite Nat.eqb_refl.
    apply template_match; [exact Hfit|].
    rewrite <- (length_map captured vs).
    pose proof (set_groups_fresh (map captured vs) []) as Hs.
    cbn [app length] in Hs. rewrite Hs, map_map. reflexivity. }
  destruct (fill segs vs) eqn:E; cbn [search]; rewrite Hat; reflexivity.
Qed.

Lemma make_route_segments name template segs :
  all_ok segs = true ->
  normalize_template template = template_of segs ->
  make_route name (Template template) = Ok (template_route name segs).
Proof.
  intros Hok Hnorm. unfold make_route. rewrite Hnorm.
  rewrite (template_pattern_segments _ Hok), (RegExp_new_segments _ Hok).
  rewrite (template_names_segments _ Hok). reflexivity.
Qed.

(** ** The decoder of a template route *)

Lemma decode_matches_assign ws :
  forall ds pre names acc,
    Forall2 decodes ws ds ->
    length ws = length names ->
    decode_matches (pre ++ names) (length pre) (map Some ws) acc
    = Ok (assign acc names ds).
Proof.
  induction ws as [|w ws IH]; intros ds pre names acc Hd Hlen.
  - inversion Hd; subst. destruct names; [reflexivity | discriminate].
  - inversion Hd as [|? d ? ds' Hw Hds]; subst.
    destruct names as [|n names]; [discriminate|].
    cbn [map decode_matches]. change (to_string (Some w)) with w.
    unfold decodes in Hw. rewrite Hw, bind_ok.
    rewrite list_lookup_middle by reflexivity.
    change (to_string (Some n)) with n. cbn [assign].
    rewrite (cons_middle n pre names), app_assoc.
    replace (S (length pre)) with (length (pre ++ [n])%list)
      by (rewrite length_app; simpl; lia).
    apply IH; [exact Hds | simpl in Hlen; lia].
Qed.

Lemma assign_union names :
  forall values acc,
    NoDup names -> "__proto__" ∉ names -> length values = length names ->
    assign acc names values = list_to_map (zip names values) ∪ acc.
Proof.
  induction names as [|n names IH]; intros values acc Hnd Hp Hlen.
  - destruct values; [|discriminate]. cbn [assign zip zip_with list_to_map foldr].
    rewrite (left_id_L ∅ (∪)). reflexivity.
  - destruct values as [|v values]; [discriminate|].
    apply NoDup_cons in Hnd as [Hn Hnd].
    apply not_elem_of_cons in Hp as [Hne Hp].
    cbn [assign]. rewrite IH by (try assumption; simpl in Hlen; lia).
    unfold obj_set. destruct (decide (n = "__proto__")) as [->|_]; [contradiction|].
    cbn [zip zip_with list_to_map foldr uncurry fst snd].
    rewrite <- insert_union_l. symmetry. apply insert_union_r.
    apply not_elem_of_list_to_map_1. rewrite fst_zip by (simpl in Hlen; lia).
    exact Hn.
Qed.

Lemma decode_template segs vs ds :
  fits segs vs = true ->
  Forall2 decodes (map captured vs) ds ->
  NoDup (segment_names segs) -> "__proto__" ∉ segment_names segs ->
  decode_matches (segment_names segs) 0 (map (fun v => Some (captured v)) vs) ∅
  = Ok (list_to_map (zip (segment_names segs) ds)).
Proof.
  intros Hfit Hd Hnd Hp.
  pose proof (fits_length _ _ Hfit) as Hlen.
  pose proof (Forall2_length _ _ _ Hd) as Hlen'. rewrite length_map in Hlen'.
  rewrite <- (map_map captured Some).
  rewrite (decode_matches_assign _ ds [] (segment_names segs) ∅ Hd)
    by (rewrite length_map; exact Hlen).
  rewrite assign_union by (try assumption; lia).
  rewrite (right_id_L ∅ (∪)). reflexivity.
Qed.

(** ** A router with one template *)

Lemma object_keys_single {A} name (v : A) : object_keys [(name, v)] = [name].
Proof.
  unfold object_keys, index_keys. cbn [map fst foldr].
  rewrite filter_cons, filter_nil.
  destruct (array_index name) eqn:E.
  - destruct (decide (Some n = None)); [discriminate | reflexivity].
  - destruct (decide (None = None)); [reflexivity | contradiction].
Qed.

(** [parse] of a path whose normal form is the path of a template with
    the values [vs], in a router made of that template. *)
Lemma parse_template name segs vs ds o st p :
  fits segs vs = true ->
  normalize_path (opt_search o) p = fill segs vs ->
  Forall2 decodes (map captured vs) ds ->
  NoDup (segment_names segs) -> "__proto__" ∉ segment_names segs ->
  prev st ≠ Some (fill segs vs) ->
  (parse {| routes := [template_route name segs]; opts := o |} p st).1
  = Ok (Parsed (Some {| path := fill segs vs; route := name;
                        params := list_to_map (zip (segment_names segs) ds) |})).
Proof.
  intros Hfit Hpath Hd Hnd Hp Hprev.
  rewrite parse_fresh by (cbn [opts]; rewrite Hpath; exact Hprev).
  cbn [fst opts routes]. rewrite Hpath. cbn [find_page template_route r_pattern r_cb r_name].
  rewrite (match_groups_fill _ _ Hfit), (decode_template _ _ _ Hfit Hd Hnd Hp).
  reflexivity.
Qed.

(** ** The normal form of templates and paths *)

Lemma strip_slash_app (a b : string) :
  b ≠ "" -> strip_slash (a +:+ b) = a +:+ strip_slash b.
Proof.
  intros Hb. induction a as [|c a IH]; str; [reflexivity|].
  cbn [strip_slash]. rewrite IH.
  destruct (a +:+ b) eqn:E; [|reflexivity].
  destruct a, b; try discriminate. contradiction.
Qed.

Lemma strip_slash_keep (t : string) :
  all_chars non_slash t = true -> strip_slash t = t.
Proof.
  induction t as [|c t IH]; [reflexivity|]. cbn [all_chars strip_slash].
  intros [Hc Ht]%andb_true_iff. rewrite (IH Ht).
  destruct t; [|reflexivity].
  unfold non_slash in Hc. apply negb_true_iff in Hc. rewrite Hc. reflexivity.
Qed.

Lemma trailing_slash_at inp c s :
  match_at re_trailing_slash inp (String c s)
  = match s with
    | "" => if ascii_eqb c "/" then Some ("", []) else None
    | _ => None
    end.
Proof.
  destruct (ascii_eqb c "/") eqn:E.
  - apply ascii_eqb_eq in E as ->. destruct s; reflexivity.
  - unfold re_trailing_slash. rewrite match_at_not_slash
      by (unfold non_slash; rewrite E; reflexivity).
    destruct s; reflexivity.
Qed.

(** [value.replace(/\/$/g, '')] *)
Lemma replace_trailing_slash s :
  replace_all re_trailing_slash (fun _ => "") s = strip_slash s.
Proof.
  unfold replace_all, pieces. generalize s at 1 as inp. intros inp.
  induction s as [|c s IH]; [reflexivity|].
  cbn [scan strip_slash]. rewrite trailing_slash_at.
  destruct s as [|c' s].
  - destruct (ascii_eqb c "/"); reflexivity.
  - cbn [map str_concat piece_text]. rewrite IH. reflexivity.
Qed.

Lemma normalize_template_strip s : normalize_template s = str_or (strip_slash s) "/".
Proof. unfold normalize_template. rewrite replace_trailing_slash. reflexivity. Qed.

Lemma segment_text_keep sg :
  segment_ok sg = true -> sg ≠ SLit "" ->
  strip_slash (segment_text sg) = segment_text sg.
Proof.
  intros Hok Hne. destruct sg as [text|name|name]; cbn [segment_text segment_ok] in *.
  - destruct text as [|c text]; [contradiction|].
    rewrite strip_slash_app by discriminate.
    rewrite strip_slash_keep by (apply literal_non_slash, Hok). reflexivity.
  - apply name_ok_cons in Hok as (c & name' & -> & Hc & Hn).
    rewrite strip_slash_app by discriminate.
    rewrite strip_slash_keep; [reflexivity|].
    cbn [all_chars]. rewrite (word_non_slash _ Hc).
    apply (all_chars_impl is_word); [apply word_non_slash | exact Hn].
  - rewrite <- sapp_assoc. rewrite strip_slash_app by discriminate. reflexivity.
Qed.

Lemma template_of_cons sg segs :
  template_of (sg :: segs) = segment_text sg +:+ template_of segs.
Proof. reflexivity. Qed.

Lemma template_of_nonempty sg segs : template_of (sg :: segs) ≠ "".
Proof. destruct sg; discriminate. Qed.

Lemma trim_cons sg segs :
  trim (sg :: segs)
  = match segs, sg with
    | [], SLit "" => []
    | _, _ => sg :: trim segs
    end.
Proof. reflexivity. Qed.

Lemma trim_cons_cons sg sg' segs : trim (sg :: sg' :: segs) = sg :: trim (sg' :: segs).
Proof. rewrite trim_cons. destruct sg as [[|? ?]|?|?]; reflexivity. Qed.

Lemma trim_single sg : sg ≠ SLit "" -> trim [sg] = [sg].
Proof. destruct sg as [[|? ?]|?|?]; intros H; try reflexivity. contradiction. Qed.

Lemma segment_eq_dec_empty sg : {sg = SLit ""} + {sg ≠ SLit ""}.
Proof. destruct sg as [[|? ?]|?|?]; (left; reflexivity) || (right; discriminate). Qed.

Lemma strip_template segs :
  all_ok segs = true -> strip_slash (template_of segs) = template_of (trim segs).
Proof.
  induction segs as [|sg segs IH]; [reflexivity|].
  cbn [all_ok forallb]. intros [Hsg Hok]%andb_true_iff.
  destruct segs as [|sg' segs].
  - destruct (segment_eq_dec_empty sg) as [->|Hne]; [reflexivity|].
    rewrite (trim_single _ Hne). unfold template_of. cbn [map str_concat].
    rewrite sapp_nil_r. apply segment_text_keep; assumption.
  - rewrite trim_cons_cons.
    rewrite (template_of_cons sg (sg' :: segs)), (template_of_cons sg (trim _)).
    rewrite strip_slash_app by apply template_of_nonempty.
    rewrite (IH Hok). reflexivity.
Qed.

Lemma trim_ok segs : all_ok segs = true -> all_ok (trim segs) = true.
Proof.
  induction segs as [|sg segs IH]; [reflexivity|].
  cbn [all_ok forallb]. intros [Hsg Hok]%andb_true_iff.
  destruct segs as [|sg' segs].
  - destruct (segment_eq_dec_empty sg) as [->|Hne]; [reflexivity|].
    rewrite (trim_single _ Hne). cbn [all_ok forallb]. rewrite Hsg. reflexivity.
  - rewrite trim_cons_cons. cbn [all_ok forallb]. rewrite Hsg. apply IH, Hok.
Qed.

Lemma norm_ok segs : all_ok segs = true -> all_ok (norm segs) = true.
Proof.
  intros H. apply trim_ok in H. unfold norm. destruct (trim segs); [reflexivity | exact H].
Qed.

(** The template that [createRouter] keeps. *)
Lemma normalize_template_segments segs :
  all_ok segs = true ->
  normalize_template (template_of segs) = template_of (norm segs).
Proof.
  intros Hok. rewrite normalize_template_strip, (strip_template _ Hok).
  unfold norm. destruct (trim segs) as [|sg l]; [reflexivity|].
  destruct sg as [text|name|name]; reflexivity.
Qed.

Lemma trim_names segs : segment_names (trim segs) = segment_names segs.
Proof.
  induction segs as [|sg segs IH]; [reflexivity|].
  destruct segs as [|sg' segs].
  - destruct (segment_eq_dec_empty sg) as [->|Hne]; [reflexivity|].
    rewrite (trim_single _ Hne). reflexivity.
  - rewrite trim_cons_cons, !(segment_names_cons sg), IH. reflexivity.
Qed.

Lemma norm_names segs : segment_names (norm segs) = segment_names segs.
Proof.
  unfold norm. pose proof (trim_names segs) as H.
  destruct (trim segs); [rewrite <- H; reflexivity | exact H].
Qed.

(** ** A router with one template *)

Lemma make_route_template name segs :
  all_ok segs = true ->
  make_route name (Template (template_of segs)) = Ok (template_route name (norm segs)).
Proof.
  intros Hok. apply make_route_segments;
    [apply norm_ok, Hok | apply normalize_template_segments, Hok].
Qed.

Lemma createRouter_template name segs o :
  all_ok segs = true ->
  createRouter [(name, Template (template_of segs))] o
  = Ok {| routes := [template_route name (norm segs)]; opts := o |}.
Proof.
  intros Hok. unfold createRouter, make_routes.
  rewrite object_keys_single. cbn [map_outcome object_get].
  rewrite String.eqb_refl, (make_route_template _ _ Hok).
  reflexivity.
Qed.

(** ** The normal form of a path without query *)

Lemma before_question_id s : no_query s = true -> before_question s = s.
Proof.
  induction s as [|c s IH]; [reflexivity|]. unfold no_query. cbn [all_chars before_question].
  intros [Hc Hs]%andb_true_iff. apply negb_true_iff in Hc. rewrite Hc, (IH Hs).
  reflexivity.
Qed.

Lemma slash_before_end_at inp c s :
  no_query s = true ->
  match_at re_slash_before_end inp (String c s)
  = match s with
    | "" => if ascii_eqb c "/" then Some ("", [Some ""]) else None
    | _ => None
    end.
Proof.
  intros Hq. destruct (ascii_eqb c "/") eqn:E.
  - apply ascii_eqb_eq in E as ->. destruct s as [|c' s]; [reflexivity|].
    unfold no_query in Hq. cbn [all_chars] in Hq.
    apply andb_true_iff in Hq as [Hc _]. apply negb_true_iff in Hc.
    unfold match_at, re_slash_before_end, literal. cbn [re_source re_ignoreCase].
    rewrite rm_seq, rm_chr_same, rm_group. cbn [rmatch]. unfold chr_eq.
    replace (ascii_eqb "?" c') with false; [reflexivity|].
    symmetry. apply ascii_eqb_neq. intros <-. discriminate.
  - unfold re_slash_before_end. rewrite match_at_not_slash
      by (unfold non_slash; rewrite E; reflexivity).
    destruct s; reflexivity.
Qed.

Lemma search_slash_before_end pre s :
  no_query s = true ->
  match search re_slash_before_end (pre +:+ s) s with
  | Some m => m_before m +:+ dollar1 m +:+ m_after m
  | None => pre +:+ s
  end = pre +:+ strip_slash s.
Proof.
  revert pre. induction s as [|c s IH]; intros pre Hq; [reflexivity|].
  assert (no_query s = true) as Hq'.
  { unfold no_query in *. cbn [all_chars] in Hq. apply andb_true_iff in Hq as [_ H].
    exact H. }
  cbn [search]. rewrite (slash_before_end_at _ _ _ Hq').
  destruct s as [|c' s].
  - destruct (ascii_eqb c "/") eqn:E.
    + apply ascii_eqb_eq in E as ->. cbn [strip_slash]. unfold mk_match.
      cbn [m_before m_after dollar1 m_groups fst snd].
      rewrite slength_app_minus, str_take_app. rewrite !sapp_nil_r. reflexivity.
    + cbn [strip_slash search]. rewrite E. reflexivity.
  - specialize (IH (pre +:+ String c "") Hq').
    rewrite !sapp_assoc in IH. str. rewrite IH. reflexivity.
Qed.

Lemma normalize_path_strip b s :
  no_query s = true -> normalize_path b s = str_or (strip_slash s) "/".
Proof.
  intros Hq. unfold normalize_path.
  replace (if b then s else before_question s) with s
    by (destruct b; [reflexivity | symmetry; apply before_question_id, Hq]).
  unfold replace_first, exec.
  pose proof (search_slash_before_end "" s Hq) as H. str. rewrite <- H.
  destruct (search _ _ _); reflexivity.
Qed.

(** ** The path of a template without optional parameter *)

Lemma fill_cons_nonempty sg segs vs :
  required_only (sg :: segs) = true -> fits (sg :: segs) vs = true ->
  fill (sg :: segs) vs ≠ "".
Proof.
  destruct sg as [text|name|name]; cbn [required_only forallb is_optional negb andb];
    try discriminate; intros _ Hfit; cbn [fits fill] in *.
  destruct vs as [|[v|] vs]; discriminate.
Qed.

Lemma fill_literal text segs vs :
  fill (SLit text :: segs) vs = "/" +:+ text +:+ fill segs vs.
Proof. reflexivity. Qed.

Lemma fill_required name segs v vs :
  fill (SReq name :: segs) (Some v :: vs) = "/" +:+ v +:+ fill segs vs.
Proof. reflexivity. Qed.

Lemma strip_fill segs :
  forall vs,
    all_ok segs = true -> required_only segs = true -> fits segs vs = true ->
    strip_slash (fill segs vs) = fill (trim segs) vs.
Proof.
  induction segs as [|sg segs IH]; intros vs Hok Hreq Hfit; [reflexivity|].
  pose proof Hok as Hok'. pose proof Hreq as Hreq'.
  cbn [all_ok forallb] in Hok'. apply andb_true_iff in Hok' as [Hsg Hoks].
  cbn [required_only forallb] in Hreq'. apply andb_true_iff in Hreq' as [Hr Hreqs].
  destruct sg as [text|name|name]; [| |discriminate]; cbn [fits segment_ok] in *.
  - destruct segs as [|sg' segs].
    + destruct text as [|c text]; [reflexivity|].
      cbn [trim fill]. rewrite !sapp_nil_r.
      rewrite strip_slash_app by discriminate.
      rewrite strip_slash_keep by (apply literal_non_slash, Hsg). reflexivity.
    + rewrite trim_cons_cons, !fill_literal. rewrite <- !sapp_assoc.
      rewrite strip_slash_app by (apply fill_cons_nonempty; assumption).
      rewrite (IH vs) by assumption. reflexivity.
  - destruct vs as [|[v|] vs]; try discriminate.
    apply andb_true_iff in Hfit as [Hv Hfit].
    unfold segment_value in Hv. apply andb_true_iff in Hv as [Hv Hne].
    destruct segs as [|sg' segs].
    + cbn [trim fill]. rewrite !sapp_nil_r.
      destruct v as [|c v]; [discriminate|].
      rewrite strip_slash_app by discriminate.
      rewrite strip_slash_keep by exact Hv. reflexivity.
    + rewrite trim_cons_cons, !fill_required. rewrite <- !sapp_assoc.
      rewrite strip_slash_app by (apply fill_cons_nonempty; assumption).
      rewrite (IH vs) by assumption. reflexivity.
Qed.

Lemma trim_required segs : required_only segs = true -> required_only (trim segs) = true.
Proof.
  induction segs as [|sg segs IH]; [reflexivity|].
  cbn [required_only forallb]. intros [Hsg Hreq]%andb_true_iff.
  destruct segs as [|sg' segs].
  - destruct (segment_eq_dec_empty sg) as [->|Hne]; [reflexivity|].
    rewrite (trim_single _ Hne). cbn [required_only forallb]. rewrite Hsg. reflexivity.
  - rewrite trim_cons_cons. cbn [required_only forallb]. rewrite Hsg. apply IH, Hreq.
Qed.

Lemma trim_fits segs :
  forall vs, required_only segs = true -> fits (trim segs) vs = fits segs vs.
Proof.
  induction segs as [|sg segs IH]; intros vs Hreq; [reflexivity|].
  cbn [required_only forallb] in Hreq. apply andb_true_iff in Hreq as [Hsg Hreq].
  destruct segs as [|sg' segs].
  - destruct (segment_eq_dec_empty sg) as [->|Hne]; [reflexivity|].
    rewrite (trim_single _ Hne). reflexivity.
  - rewrite trim_cons_cons. destruct sg as [text|name|name]; [| |discriminate];
      cbn [fits].
    + apply IH, Hreq.
    + destruct vs as [|[v|] vs]; try reflexivity. rewrite IH by exact Hreq. reflexivity.
Qed.

Lemma norm_fits segs vs :
  required_only segs = true -> fits (norm segs) vs = fits segs vs.
Proof.
  intros Hreq. unfold norm. rewrite <- (trim_fits segs) by exact Hreq.
  destruct (trim segs); reflexivity.
Qed.

Lemma normalize_path_fill b segs vs :
  all_ok segs = true -> required_only segs = true -> fits segs vs = true ->
  no_query (fill segs vs) = true ->
  normalize_path b (fill segs vs) = fill (norm segs) vs.
Proof.
  intros Hok Hreq Hfit Hq.
  rewrite (normalize_path_strip _ _ Hq), (strip_fill _ _ Hok Hreq Hfit).
  unfold norm. pose proof (trim_required _ Hreq) as Hreq'.
  pose proof (trim_fits segs vs Hreq) as Hfit'. rewrite Hfit in Hfit'.
  destruct (trim segs) as [|sg l] eqn:E; [reflexivity|].
  pose proof (fill_cons_nonempty _ _ _ Hreq' Hfit') as Hne.
  destruct (fill (sg :: l) vs); [contradiction | reflexivity].
Qed.

(** C4 (as amended).  Take a template of literal segments (without ['/'],
    ['*'] and ['?'], and not starting with [':']) and required parameters
    with distinct names other than [__proto__], and values for the
    parameters that are not empty, contain no ['/'] and no ['?'], and are
    left unchanged by [decodeURIComponent].  In a router made of the
    template, [parse] of the path obtained by substituting the values
    returns the page of the route, and its params map each parameter to its
    value. *)
Theorem round_trip_required name segs values o st :
  all_ok segs = true ->
  required_only segs = true ->
  fits segs (map Some values) = true ->
  no_query (fill segs (map Some values)) = true ->
  Forall (fun v => decodes v v) values ->
  NoDup (segment_names segs) ->
  "__proto__" ∉ segment_names segs ->
  prev st ≠ Some (normalize_path (opt_search o) (fill segs (map Some values))) ->
  exists router,
    createRouter [(name, Template (template_of segs))] o = Ok router
    /\ (parse router (fill segs (map Some values)) st).1
       = Ok (Parsed (Some
               {| path := normalize_path (opt_search o) (fill segs (map Some values));
                  route := name;
                  params := list_to_map (zip (segment_names segs) values) |})).
Proof.
  intros Hok Hreq Hfit Hq Hd Hnd Hp Hprev.
  eexists. split; [apply createRouter_template, Hok|].
  pose proof (normalize_path_fill (opt_search o) _ _ Hok Hreq Hfit Hq) as Hn.
  rewrite Hn in *. rewrite <- (norm_names segs).
  apply parse_template.
  - rewrite norm_fits by exact Hreq. exact Hfit.
  - exact Hn.
  - rewrite map_map. cbn [captured default]. rewrite map_id.
    apply Forall2_same_length_lookup. split; [reflexivity|].
    intros i v v' Hv Hv'. rewrite Hv in Hv'. injection Hv' as <-.
    rewrite Forall_forall in Hd. apply Hd. eapply list_elem_of_lookup_2, Hv.
  - rewrite norm_names. exact Hnd.
  - rewrite norm_names. exact Hp.
  - exact Hprev.
Qed.

(** ** Templates that end with an optional parameter *)

Lemma trim_optional_end pre w : trim (pre ++ [SOpt w]) = (pre ++ [SOpt w])%list.
Proof.
  induction pre as [|sg pre IH]; [reflexivity|].
  cbn [app]. destruct (pre ++ [SOpt w])%list as [|sg' l] eqn:E.
  - destruct pre; discriminate.
  - rewrite trim_cons_cons, IH. reflexivity.
Qed.

Lemma norm_optional_end pre w : norm (pre ++ [SOpt w]) = (pre ++ [SOpt w])%list.
Proof.
  unfold norm. rewrite trim_optional_end.
  destruct (pre ++ [SOpt w])%list eqn:E; [|reflexivity].
  destruct pre; discriminate.
Qed.

Lemma segment_names_app l1 l2 :
  segment_names (l1 ++ l2) = (segment_names l1 ++ segment_names l2)%list.
Proof. unfold segment_names. apply omap_app. Qed.

Lemma assign_app names1 :
  forall values1 names2 values2 acc,
    length values1 = length names1 ->
    assign acc (names1 ++ names2) (values1 ++ values2)
    = assign (assign acc names1 values1) names2 values2.
Proof.
  induction names1 as [|n names1 IH]; intros [|v values1] names2 values2 acc Hlen;
    try discriminate; [reflexivity|].
  cbn [app assign]. apply IH. simpl in Hlen. lia.
Qed.

(** ** The paths that the pattern of an optional parameter accepts *)

Lemma backtrack_inv k v rest cs z :
  backtrack k v rest cs = Some z ->
  exists v1 v2, v = v1 +:+ v2 /\ k (v2 +:+ rest) cs = Some z.
Proof.
  induction v as [|c v IH]; cbn [backtrack]; intros H.
  - exists "", "". auto.
  - destruct (backtrack k v rest cs) as [z'|] eqn:E.
    + injection H as ->. destruct (IH eq_refl) as (v1 & v2 & -> & Hk).
      exists (String c v1), v2. auto.
    + exists "", (String c v). auto.
Qed.

(** A text is a run without slash followed by nothing or by a slash. *)
Lemma span_non_slash s :
  exists v rest, s = v +:+ rest /\ all_chars non_slash v = true /\ boundary rest = true.
Proof.
  induction s as [|c s (v & rest & -> & Hv & Hr)].
  - exists "", "". auto.
  - destruct (non_slash c) eqn:Hc.
    + exists (String c v), rest. cbn [all_chars]. rewrite Hc, Hv. auto.
    + exists "", (String c (v +:+ rest)). repeat split.
      unfold non_slash in Hc. apply negb_false_iff in Hc. exact Hc.
Qed.

Lemma slash_canonical c : chr_eq true "/" c = ascii_eqb "/" c.
Proof. destruct c as [[] [] [] [] [] [] [] []]; reflexivity. Qed.

Lemma lits_app a b tail : lits (a +:+ b) tail = lits a (lits b tail).
Proof. induction a as [|c a IH]; str; [reflexivity|]. cbn [lits]. rewrite IH. reflexivity. Qed.

Lemma segs_re_literals texts rest g tail :
  segs_re (map SLit texts ++ rest) g tail
  = lits (template_of (map SLit texts)) (segs_re rest g tail).
Proof.
  induction texts as [|t texts IH]; [reflexivity|].
  cbn [map app segs_re]. rewrite template_of_cons. cbn [segment_text].
  rewrite !lits_app, IH. reflexivity.
Qed.

Section OptionalEnd.
Variable inp : string.

Lemma star_end_inv g x cs z :
  rmatch true inp (Seq (Group g (Seq (Star not_slash) Empty)) (Seq AssertEnd Empty))
    x cs final = Some z ->
  all_chars non_slash x = true /\ z = ("", <[g := Some x]> cs).
Proof.
  destruct (span_non_slash x) as (v & rest & -> & Hv & Hr).
  rewrite rm_seq, rm_group, rm_seq. unfold not_slash.
  rewrite rm_star_class by (apply non_slash_run, Hv || apply boundary_stops_run, Hr).
  intros (v1 & v2 & -> & Hk)%backtrack_inv.
  rewrite rm_empty, rm_seq in Hk.
  destruct (v2 +:+ rest) as [|c y] eqn:E; [|discriminate].
  destruct v2; [|discriminate]. str. subst rest.
  rewrite rm_end_nil, rm_empty in Hk. unfold final in Hk.
  injection Hk as <-. rewrite !sapp_nil_r in *.
  rewrite Nat.sub_0_r, str_take_all. auto.
Qed.

Lemma star_end_run g v cs :
  all_chars non_slash v = true ->
  rmatch true inp (Seq (Group g (Seq (Star not_slash) Empty)) (Seq AssertEnd Empty))
    v cs final = Some ("", <[g := Some v]> cs).
Proof.
  intros Hv. rewrite rm_seq. rewrite <- (sapp_nil_r v) at 1.
  apply optional_group; [exact Hv | reflexivity|].
  rewrite rm_seq, rm_end_nil, rm_empty. reflexivity.
Qed.

Lemma optional_slash_inv s cs k z :
  rmatch true inp (Opt (Chr "/")) s cs k = Some z ->
  (exists s', s = String "/" s' /\ k s' cs = Some z) \/ k s cs = Some z.
Proof.
  cbn [rmatch]. destruct s as [|a s]; [auto|].
  rewrite slash_canonical. destruct (ascii_eqb "/" a) eqn:E; [|auto].
  apply ascii_eqb_eq in E as <-. unfold shorter. simpl String.length.
  destruct (Nat.ltb_spec (String.length s) (S (String.length s))); [|lia].
  unfold reset. simpl foldr. destruct (k s cs) eqn:Hk; [|auto].
  intros [= <-]. left. eauto.
Qed.

Lemma optional_slash_skip s cs k :
  stops (ascii_eqb "/") s = true ->
  rmatch true inp (Opt (Chr "/")) s cs k = k s cs.
Proof.
  intros Hs. cbn [rmatch]. destruct s as [|a s]; [reflexivity|].
  rewrite slash_canonical. simpl in Hs. apply negb_true_iff in Hs. rewrite Hs.
  reflexivity.
Qed.

Lemma optional_end_inv g s cs z :
  rmatch true inp (optional_end g) s cs final = Some z ->
  exists slash v, s = slash +:+ v /\ (slash = "" \/ slash = "/")
                  /\ all_chars non_slash v = true
                  /\ z = ("", <[g := Some v]> cs).
Proof.
  unfold optional_end, optional_at. rewrite rm_seq.
  intros [(s' & -> & H)|H]%optional_slash_inv.
  - apply star_end_inv in H as [Hv ->]. exists "/", s'. auto.
  - apply star_end_inv in H as [Hv ->]. exists "", s. auto.
Qed.

Lemma optional_end_run g slash v cs :
  slash = "" \/ slash = "/" ->
  all_chars non_slash v = true ->
  rmatch true inp (optional_end g) (slash +:+ v) cs final
  = Some ("", <[g := Some v]> cs).
Proof.
  intros [->| ->] Hv; unfold optional_end, optional_at; rewrite rm_seq; str.
  - rewrite optional_slash_skip; [apply star_end_run, Hv|].
    destruct v as [|c v]; [reflexivity|]. cbn [all_chars] in Hv.
    apply andb_true_iff in Hv as [Hc _]. simpl.
    unfold non_slash in Hc. destruct (ascii_eqb "/" c) eqn:E; [|reflexivity].
    apply ascii_eqb_eq in E as <-. discriminate.
  - apply optional_slash. apply star_end_run, Hv.
Qed.
End OptionalEnd.

Lemma backtrack_some k v1 v2 rest cs :
  is_Some (k (v2 +:+ rest) cs) -> is_Some (backtrack k (v1 +:+ v2) rest cs).
Proof.
  intros Hk. induction v1 as [|c v1 IH]; str.
  - destruct v2 as [|c v2]; [exact Hk|]. cbn [backtrack].
    destruct (backtrack k v2 rest cs); [eauto | exact Hk].
  - cbn [backtrack]. destruct IH as [z ->]. eauto.
Qed.

Section OptionalAt.
Variable inp : string.
Variable g : nat.
Variable tail : regex.

(** The group of an optional parameter takes a run without slash, and the
    pattern goes on after it. *)
Lemma group_run_inv x cs k z :
  rmatch true inp (Seq (Group g (Seq (Star not_slash) Empty)) tail) x cs k = Some z ->
  exists v s',
    x = v +:+ s' /\ all_chars non_slash v = true
    /\ rmatch true inp tail s' (<[g := Some v]> cs) k = Some z.
Proof.
  destruct (span_non_slash x) as (run & rest & -> & Hrun & Hr).
  rewrite rm_seq, rm_group, rm_seq. unfold not_slash.
  rewrite rm_star_class by (apply non_slash_run, Hrun || apply boundary_stops_run, Hr).
  intros (v1 & v2 & -> & Hk)%backtrack_inv.
  rewrite rm_empty in Hk. rewrite sapp_assoc in *.
  rewrite slength_app_minus, str_take_app in Hk.
  rewrite all_chars_app in Hrun. apply andb_true_iff in Hrun as [H1 _].
  exists v1, (v2 +:+ rest). auto.
Qed.

Lemma group_run_some v s' cs k :
  all_chars non_slash v = true ->
  is_Some (rmatch true inp tail s' (<[g := Some v]> cs) k) ->
  is_Some (rmatch true inp (Seq (Group g (Seq (Star not_slash) Empty)) tail)
             (v +:+ s') cs k).
Proof.
  intros Hv Hk. destruct (span_non_slash s') as (run & rest & -> & Hrun & Hr).
  rewrite rm_seq, rm_group, rm_seq. unfold not_slash. rewrite <- sapp_assoc.
  rewrite rm_star_class;
    [| apply non_slash_run; rewrite all_chars_app, Hv, Hrun; reflexivity
     | apply boundary_stops_run, Hr].
  apply backtrack_some. rewrite rm_empty, sapp_assoc.
  rewrite slength_app_minus, str_take_app. exact Hk.
Qed.

Lemma optional_some (r : regex) s cs k :
  is_Some (k s cs) -> is_Some (rmatch true inp (Opt r) s cs k).
Proof.
  intros Hk. cbn [rmatch]. destruct (rmatch true inp r s (reset r cs) _); [eauto | exact Hk].
Qed.

(** What the pattern of an optional parameter takes at its position: an
    optional slash and a run without slash, which it captures. *)
Lemma optional_at_inv s cs k z :
  rmatch true inp (optional_at g tail) s cs k = Some z ->
  exists slash v s',
    s = slash +:+ v +:+ s' /\ (slash = "" \/ slash = "/")
    /\ all_chars non_slash v = true
    /\ rmatch true inp tail s' (<[g := Some v]> cs) k = Some z.
Proof.
  unfold optional_at. rewrite rm_seq.
  intros [(x & -> & H)|H]%optional_slash_inv;
    apply group_run_inv in H as (v & s' & -> & Hv & H).
  - exists "/", v, s'. auto.
  - exists "", v, s'. auto.
Qed.

Lemma optional_at_some slash v s' cs k :
  slash = "" \/ slash = "/" ->
  all_chars non_slash v = true ->
  is_Some (rmatch true inp tail s' (<[g := Some v]> cs) k) ->
  is_Some (rmatch true inp (optional_at g tail) (slash +:+ v +:+ s') cs k).
Proof.
  intros Hslash Hv Hk. pose proof (group_run_some _ _ _ _ Hv Hk) as [z Hz].
  unfold optional_at. rewrite rm_seq. destruct Hslash as [->| ->]; str.
  - apply optional_some. rewrite Hz. eauto.
  - rewrite (optional_slash _ _ _ _ z); [eauto | exact Hz].
Qed.
End OptionalAt.

(** A pattern anchored by [^] matches at the start of the input only. *)
Lemma search_anchored r ic inp s :
  String.length s < String.length inp ->
  search {| re_source := Seq AssertStart r; re_ignoreCase := ic |} inp s = None.
Proof.
  induction s as [|c s IH]; intros Hlen.
  - cbn [search]. unfold match_at. cbn [re_source re_ignoreCase rmatch].
    destruct (Nat.eqb_spec (String.length "") (String.length inp)); [lia | reflexivity].
  - cbn [search]. unfold match_at at 1. cbn [re_source re_ignoreCase].
    rewrite rm_seq. cbn [rmatch].
    destruct (Nat.eqb_spec (String.length (String c s)) (String.length inp)); [lia|].
    apply IH. simpl in Hlen. lia.
Qed.

Lemma match_groups_anchored r ic s :
  match_groups {| re_source := Seq AssertStart r; re_ignoreCase := ic |} s
  = snd <$> match_at {| re_source := Seq AssertStart r; re_ignoreCase := ic |} s s.
Proof.
  unfold match_groups, exec. destruct s as [|c s]; cbn [search].
  - destruct (match_at _ _ _); reflexivity.
  - destruct (match_at _ _ _); [reflexivity|].
    rewrite search_anchored by (simpl; lia). reflexivity.
Qed.

Lemma literal_names texts : segment_names (map SLit texts) = [].
Proof. induction texts as [|t texts IH]; [reflexivity | exact IH]. Qed.

Lemma match_at_optional_end texts w path :
  match_at (template_regex (map SLit texts ++ [SOpt w])) path path
  = rmatch true path (lits (template_of (map SLit texts)) (optional_end 0))
      path [None] final.
Proof.
  unfold match_at. rewrite ngroups_segments, segment_names_app, literal_names.
  unfold template_regex. cbn [re_source re_ignoreCase].
  rewrite rm_seq. cbn [rmatch]. rewrite Nat.eqb_refl.
  rewrite segs_re_literals. reflexivity.
Qed.

Lemma trim_app_cons pre sg post :
  trim (pre ++ sg :: post) = (pre ++ trim (sg :: post))%list.
Proof.
  induction pre as [|sg' pre IH]; [reflexivity|].
  cbn [app]. destruct (pre ++ sg :: post)%list as [|x l] eqn:E.
  - destruct pre; discriminate.
  - rewrite trim_cons_cons, IH. reflexivity.
Qed.

Lemma norm_optional pre w post :
  norm (pre ++ SOpt w :: post) = (pre ++ SOpt w :: trim post)%list.
Proof.
  unfold norm. rewrite trim_app_cons, trim_cons.
  replace (match post with [] | _ => SOpt w :: trim post end) with (SOpt w :: trim post)
    by (destruct post; reflexivity).
  destruct pre; reflexivity.
Qed.

Lemma segs_re_app pre rest g tail :
  segs_re (pre ++ rest) g tail
  = segs_re pre g (segs_re rest (g + length (segment_names pre)) tail).
Proof.
  revert g. induction pre as [|sg pre IH]; intros g.
  - cbn [app segs_re segment_names omap length]. rewrite Nat.add_0_r. reflexivity.
  - rewrite segment_names_cons.
    destruct sg as [text|n|n]; cbn [app segs_re segment_name length]; rewrite IH.
    + reflexivity.
    + rewrite Nat.add_succ_r. reflexivity.
    + rewrite Nat.add_succ_r. reflexivity.
Qed.

(** C5 (as amended).  For every template of segments that contains an
    optional parameter marker ['/:word?'], the compiled pattern has at that
    position an optional ['/'] followed by a group that captures a run,
    which can be empty, of characters other than ['/']: the slash and the
    run are independent of each other.  For a template whose marker ends a
    literal prefix, the accepted paths are exactly the prefix, compared
    without case, followed by nothing or ['/'] and then by a text without
    ['/'], which is captured. *)
Theorem optional_pattern_accepts name pre w post :
  all_ok (pre ++ SOpt w :: post) = true ->
  exists r tail,
    make_route name (Template (template_of (pre ++ SOpt w :: post))) = Ok r
    /\ r_pattern r
       = {| re_source :=
              Seq AssertStart
                (segs_re pre 0 (optional_at (length (segment_names pre)) tail));
            re_ignoreCase := true |}
    /\ (forall inp s cs k,
          is_Some (rmatch true inp (optional_at (length (segment_names pre)) tail) s cs k)
          <-> exists slash v s',
                s = slash +:+ v +:+ s'
                /\ (slash = "" \/ slash = "/")
                /\ all_chars non_slash v = true
                /\ is_Some (rmatch true inp tail s'
                              (<[length (segment_names pre) := Some v]> cs) k))
    /\ (forall texts,
          pre = map SLit texts -> post = [] ->
          (forall prefix slash v,
             same_text (template_of pre) prefix = true ->
             slash = "" \/ slash = "/" ->
             all_chars non_slash v = true ->
             match_groups (r_pattern r) (prefix +:+ slash +:+ v) = Some [Some v])
          /\ (forall path,
                is_Some (match_groups (r_pattern r) path) ->
                exists prefix slash v,
                  path = prefix +:+ slash +:+ v
                  /\ same_text (template_of pre) prefix = true
                  /\ (slash = "" \/ slash = "/")
                  /\ all_chars non_slash v = true)).
Proof.
  intros Hok. eexists. eexists. split; [apply make_route_template, Hok|].
  rewrite norm_optional. cbn [template_route r_pattern].
  split; [|split].
  - unfold template_regex. rewrite segs_re_app. cbn [segs_re Nat.add].
    reflexivity.
  - intros inp s cs k. split.
    + intros [z (slash & v & s' & -> & Hslash & Hv & Hz)%optional_at_inv].
      exists slash, v, s'. rewrite Hz. eauto.
    + intros (slash & v & s' & -> & Hslash & Hv & Hz).
      apply optional_at_some; assumption.
  - intros texts -> ->. cbn [trim]. unfold template_regex at 1 2. split.
    + intros prefix slash v Hpre Hslash Hv.
      rewrite match_groups_anchored.
      change {| re_source := _; re_ignoreCase := true |}
        with (template_regex (map SLit texts ++ [SOpt w])).
      rewrite match_at_optional_end, (lits_match _ _ _ _ _ _ _ Hpre).
      rewrite (optional_end_run _ _ _ _ _ Hslash Hv). reflexivity.
    + intros path [groups H]. rewrite match_groups_anchored in H.
      change {| re_source := _; re_ignoreCase := true |}
        with (template_regex (map SLit texts ++ [SOpt w])) in H.
      rewrite match_at_optional_end in H.
      destruct (rmatch _ _ _ _ _ _) as [z|] eqn:E; [|discriminate].
      apply lits_inv in E as (prefix & s & -> & Hpre & E).
      apply optional_end_inv in E as (slash & v & -> & Hslash & Hv & _).
      exists prefix, slash, v. auto.
Qed.

(** ** The characters of what a match captures *)

Section Invariant.
Variable p : ascii -> bool.
Variable ic : bool.
Variable inp : string.

Lemma str_take_ok n s : all_chars p s = true -> all_chars p (str_take n s) = true.
Proof.
  revert n. induction s as [|c s IH]; intros [|n] H; try reflexivity.
  cbn [all_chars str_take] in *. apply andb_true_iff in H as [Hc Hs].
  rewrite Hc, (IH n Hs). reflexivity.
Qed.

Lemma reset_ok r cs : Forall (text_ok p) cs -> Forall (text_ok p) (reset r cs).
Proof.
  intros H. unfold reset. induction (groups_of r) as [|i l IH]; [exact H|].
  cbn [foldr]. apply Forall_insert; [exact IH | exact I].
Qed.

Lemma loop_ok (m : string -> captures -> cont -> option mres) k :
  (forall k0, cont_ok p k0 -> cont_ok p (fun s cs => m s cs k0)) ->
  cont_ok p k ->
  forall n, cont_ok p (repeat_loop m k n).
Proof.
  intros Hm Hk. induction n as [|n IH]; [exact Hk|].
  intros s cs z Hs Hcs. cbn [repeat_loop].
  destruct (m s cs _) as [z'|] eqn:E.
  - intros [= <-]. revert E. apply Hm; [|assumption..].
    intros s1 cs1 z1 Hs1 Hcs1. destruct (shorter s1 s); [|discriminate].
    apply IH; assumption.
  - apply Hk; assumption.
Qed.

Lemma rmatch_ok r :
  forall k, cont_ok p k -> cont_ok p (fun s cs => rmatch ic inp r s cs k).
Proof.
  induction r as [|c|neg items| | |r1 IH1 r2 IH2|r1 IH1 r2 IH2|r IH|r IH|r IH|i r IH];
    intros k Hk s cs z Hs Hcs; cbn [rmatch].
  - apply Hk; assumption.
  - destruct s as [|a s]; [discriminate|]. destruct (chr_eq ic c a); [|discriminate].
    cbn [all_chars] in Hs. apply andb_true_iff in Hs as [_ Hs]. apply Hk; assumption.
  - destruct s as [|a s]; [discriminate|].
    destruct (xorb neg (cls_mem ic items a)); [|discriminate].
    cbn [all_chars] in Hs. apply andb_true_iff in Hs as [_ Hs]. apply Hk; assumption.
  - destruct (Nat.eqb _ _); [|discriminate]. apply Hk; assumption.
  - destruct s; [|discriminate]. apply Hk; assumption.
  - apply (IH1 (fun s1 cs1 => rmatch ic inp r2 s1 cs1 k)); [|assumption..].
    apply IH2, Hk.
  - destruct (rmatch ic inp r1 s cs k) as [z'|] eqn:E.
    + intros [= <-]. revert E. apply IH1; assumption.
    + apply IH2; assumption.
  - apply (loop_ok (fun s0 cs0 k0 => rmatch ic inp r s0 (reset r cs0) k0));
      [|assumption..].
    intros k0 Hk0 s0 cs0 z0 Hs0 Hcs0. apply IH; [assumption..|].
    apply reset_ok, Hcs0.
  - apply IH; [|assumption|apply reset_ok, Hcs].
    intros s1 cs1 z1 Hs1 Hcs1.
    apply (loop_ok (fun s0 cs0 k0 => rmatch ic inp r s0 (reset r cs0) k0) k);
      [|assumption..].
    intros k0 Hk0 s0 cs0 z0 Hs0 Hcs0. apply IH; [assumption..|].
    apply reset_ok, Hcs0.
  - destruct (rmatch ic inp r s (reset r cs) _) as [z'|] eqn:E.
    + intros [= <-]. revert E. apply IH; [|assumption|apply reset_ok, Hcs].
      intros s1 cs1 z1 Hs1 Hcs1. destruct (shorter s1 s); [|discriminate].
      apply Hk; assumption.
    + apply Hk; assumption.
  - apply IH; [|assumption..].
    intros s1 cs1 z1 Hs1 Hcs1. apply Hk; [assumption|].
    apply Forall_insert; [exact Hcs1|]. apply str_take_ok, Hs.
Qed.

Lemma final_ok : cont_ok p final.
Proof. intros s cs z Hs Hcs [= <-]. split; assumption. Qed.

End Invariant.

Lemma match_at_ok p inp re s z :
  all_chars p s = true -> match_at re inp s = Some z -> result_ok p z.
Proof.
  intros Hs. unfold match_at.
  pose proof (rmatch_ok p (re_ignoreCase re) inp (re_source re) final (final_ok p)) as H.
  unfold cont_ok in H. apply H; [exact Hs|].
  apply Forall_replicate. exact I.
Qed.

Lemma all_chars_tail p c s : all_chars p (String c s) = true -> all_chars p s = true.
Proof. cbn [all_chars]. intros [_ H]%andb_true_iff. exact H. Qed.

Lemma search_ok p re inp s m :
  all_chars p inp = true -> all_chars p s = true ->
  search re inp s = Some m ->
  all_chars p (m_before m) = true /\ Forall (text_ok p) (m_groups m)
  /\ all_chars p (m_after m) = true.
Proof.
  intros Hinp. induction s as [|c s IH]; intros Hs; cbn [search].
  - destruct (match_at re inp "") as [z|] eqn:E; [|discriminate].
    intros [= <-]. destruct (match_at_ok p inp re "" z Hs E) as [H1 H2].
    cbn [mk_match m_before m_groups m_after]. auto using str_take_ok.
  - destruct (match_at re inp (String c s)) as [z|] eqn:E.
    + intros [= <-]. destruct (match_at_ok p inp re _ z Hs E) as [H1 H2].
      cbn [mk_match m_before m_groups m_after]. auto using str_take_ok.
    + apply IH. eapply all_chars_tail, Hs.
Qed.

Lemma before_question_ok p s :
  all_chars p s = true -> all_chars p (before_question s) = true.
Proof.
  induction s as [|c s IH]; [reflexivity|]. cbn [all_chars before_question].
  intros [Hc Hs]%andb_true_iff. destruct (ascii_eqb c "?"); [reflexivity|].
  cbn [all_chars]. rewrite Hc, (IH Hs). reflexivity.
Qed.

(** The normal form of a path has the characters of the path. *)
Lemma normalize_path_ok (p : ascii -> bool) b path :
  p "/"%char = true -> all_chars p path = true ->
  all_chars p (normalize_path b path) = true.
Proof.
  intros Hslash Hpath. unfold normalize_path.
  set (s := if b then path else before_question path).
  assert (all_chars p s = true) as Hs
    by (unfold s; destruct b; [exact Hpath | apply before_question_ok, Hpath]).
  assert (all_chars p (replace_first re_slash_before_end dollar1 s) = true) as Hr.
  { unfold replace_first, exec.
    destruct (search re_slash_before_end s s) as [m|] eqn:E; [|exact Hs].
    destruct (search_ok p _ _ _ _ Hs Hs E) as (H1 & H2 & H3).
    rewrite !all_chars_app, H1, H3, andb_true_r. cbn [andb].
    unfold dollar1. destruct (m_groups m) as [|[t|] l]; try reflexivity.
    apply Forall_cons in H2 as [Ht _]. exact Ht. }
  destruct (replace_first _ _ _); [|exact Hr].
  cbn [str_or all_chars]. rewrite Hslash. reflexivity.
Qed.

Lemma match_groups_ok p re path groups :
  all_chars p path = true ->
  match_groups re path = Some groups -> Forall (text_ok p) groups.
Proof.
  intros Hpath. unfold match_groups, exec.
  destruct (search re path path) as [m|] eqn:E; [|discriminate].
  intros [= <-]. apply (search_ok p _ _ _ _ Hpath Hpath E).
Qed.

(** ** [parse] throws what a decoder throws *)

Lemma decode_no_percent s : no_percent s = true -> decodeURIComponent s = Ok s.
Proof.
  induction s as [|c s IH]; [reflexivity|]. unfold no_percent. cbn [all_chars].
  intros [Hc Hs]%andb_true_iff. cbn [decodeURIComponent]. rewrite Hc.
  rewrite (IH Hs). reflexivity.
Qed.

Lemma decode_matches_total names groups :
  forall index acc,
    Forall (text_ok (fun c => negb (ascii_eqb c "%"))) groups ->
    exists ps, decode_matches names index groups acc = Ok ps.
Proof.
  induction groups as [|m groups IH]; intros index acc H; [eexists; reflexivity|].
  apply Forall_cons in H as [Hm H]. cbn [decode_matches].
  rewrite decode_no_percent; [rewrite bind_ok; apply IH, H|].
  destruct m as [t|]; [exact Hm | reflexivity].
Qed.

Lemma decode_matches_throw names groups :
  forall index acc e,
    decode_matches names index groups acc = Throw e ->
    exists m, m ∈ groups /\ decodeURIComponent (to_string m) = Throw e.
Proof.
  induction groups as [|m groups IH]; intros index acc e; [discriminate|].
  cbn [decode_matches]. destruct (decodeURIComponent (to_string m)) as [v|e'] eqn:E.
  - rewrite bind_ok. intros (m' & Hin & Hm')%IH. exists m'. split; [|exact Hm'].
    apply elem_of_cons. auto.
  - intros [= <-]. exists m. split; [apply elem_of_cons; auto | exact E].
Qed.

Lemma object_get_elem {A} (o : list (string * A)) name v :
  object_get o name = Some v -> (name, v) ∈ o.
Proof.
  induction o as [|[k x] o IH]; [discriminate|]. cbn [object_get].
  destruct (String.eqb k name) eqn:E.
  - apply String.eqb_eq in E as ->. intros [= ->]. apply elem_of_cons. auto.
  - intros H. apply elem_of_cons. right. apply IH, H.
Qed.

Lemma make_routes_template_cb config rs :
  templates_only config -> make_routes config = Ok rs -> Forall template_cb rs.
Proof.
  intros Hconfig. unfold make_routes. generalize (object_keys config) as keys.
  intros keys. revert rs. induction keys as [|k keys IH]; intros rs Hrs; simpl in Hrs.
  - injection Hrs as <-. constructor.
  - destruct (object_get config k) as [v|] eqn:Hk; [|discriminate].
    destruct (make_route k v) as [r|] eqn:Hr; [|discriminate]. simpl in Hrs.
    destruct (map_outcome _ keys) as [rs'|]; [|discriminate].
    simpl in Hrs. injection Hrs as <-. constructor; [|apply IH; reflexivity].
    destruct (Hconfig _ _ (object_get_elem _ _ _ Hk)) as [t ->].
    simpl in Hr. destruct (RegExp_new _ _); simpl in Hr; [|discriminate].
    injection Hr as <-. eexists. intros groups. reflexivity.
Qed.

Lemma find_page_total rs path :
  Forall template_cb rs -> no_percent path = true ->
  exists result, find_page rs path = Ok result.
Proof.
  intros Hrs Hpath. induction Hrs as [|r rs [names Hr] _ IH]; [eexists; reflexivity|].
  cbn [find_page]. destruct (match_groups (r_pattern r) path) as [groups|] eqn:E; [|exact IH].
  rewrite Hr.
  destruct (decode_matches_total names groups 0 ∅) as [ps ->]; [|eexists; reflexivity].
  eapply match_groups_ok; [exact Hpath | exact E].
Qed.

Lemma find_page_throw rs path e :
  find_page rs path = Throw e ->
  exists r groups,
    r ∈ rs /\ match_groups (r_pattern r) path = Some groups /\ r_cb r groups = Throw e.
Proof.
  induction rs as [|r rs IH]; [discriminate|]. cbn [find_page].
  destruct (match_groups (r_pattern r) path) as [groups|] eqn:E.
  - destruct (r_cb r groups) as [ps|e'] eqn:Hcb; [discriminate|].
    intros [= <-]. exists r, groups. split; [apply elem_of_cons; auto | auto].
  - intros (r' & groups & Hin & H)%IH. exists r', groups.
    split; [apply elem_of_cons; auto | exact H].
Qed.

Lemma find_page_none rs path :
  Forall (fun r => match_groups (r_pattern r) path = None) rs ->
  find_page rs path = Ok None.
Proof.
  induction 1 as [|r rs Hr _ IH]; [reflexivity|]. cbn [find_page]. rewrite Hr. exact IH.
Qed.

(** C6 (as amended).  [parse] returns for every path, with the memo set
    to the normal form of the path: [false] for the path just parsed, and
    [undefined] when no route matches.  In a router made of templates, an
    exception escapes [parse] only from [decodeURIComponent] on a segment
    captured by a matching route, as the [URIError] of a malformed percent
    encoding; so none escapes on a path without ['%']. *)
Theorem parse_throws_from_decoder config o router path st :
  createRouter config o = Ok router ->
  templates_only config ->
  prev (parse router path st).2 = Some (normalize_path (opt_search o) path)
  /\ (prev st = Some (normalize_path (opt_search o) path) ->
      (parse router path st).1 = Ok Unchanged)
  /\ (prev st ≠ Some (normalize_path (opt_search o) path) ->
      Forall (fun r => match_groups (r_pattern r) (normalize_path (opt_search o) path)
                       = None) (routes router) ->
      (parse router path st).1 = Ok (Parsed None))
  /\ (no_percent path = true -> exists result, (parse router path st).1 = Ok result)
  /\ (forall e, (parse router path st).1 = Throw e ->
        exists r groups m,
          r ∈ routes router
          /\ match_groups (r_pattern r) (normalize_path (opt_search o) path) = Some groups
          /\ m ∈ groups
          /\ decodeURIComponent (to_string m) = Throw e).
Proof.
  intros Hc Hconfig. unfold createRouter in Hc.
  destruct (make_routes config) as [rs|] eqn:Hrs; [|discriminate].
  cbn in Hc. injection Hc as <-.
  pose proof (make_routes_template_cb _ _ Hconfig Hrs) as Hcb.
  split; [apply parse_prev|]. split; [|split; [|split]].
  - intros Hp. rewrite parse_same by exact Hp. reflexivity.
  - intros Hp Hnone. rewrite parse_fresh by exact Hp. cbn [fst opts routes] in *.
    rewrite (find_page_none _ _ Hnone). reflexivity.
  - intros Hpath. unfold parse. cbn [opts routes]. case_decide; [eexists; reflexivity|].
    cbn [fst].
    destruct (find_page_total rs (normalize_path (opt_search o) path) Hcb) as [res ->];
      [|eexists; reflexivity].
    apply normalize_path_ok; [reflexivity | exact Hpath].
  - intros e. unfold parse. cbn [opts routes]. case_decide; [discriminate|]. cbn [fst].
    destruct (find_page rs _) as [res|e'] eqn:E; [discriminate|].
    intros [= <-]. apply find_page_throw in E as (r & groups & Hin & Hm & Hthrow).
    rewrite Forall_forall in Hcb. destruct (Hcb r Hin) as [names Hr].
    rewrite Hr in Hthrow. apply decode_matches_throw in Hthrow as (m & Hmin & Hd).
    exists r, groups, m. auto.
Qed.

(** ** The examples of the specification *)

Lemma round_trip_required_witness :
  all_ok post_segments = true
  /\ required_only post_segments = true
  /\ fits post_segments (map Some ["guides"; "10"]) = true
  /\ no_query "/posts/guides/10" = true
  /\ Forall (fun v => decodes v v) ["guides"; "10"]
  /\ NoDup (segment_names post_segments)
  /\ ("__proto__" ∉ segment_names post_segments)
  /\ prev initial ≠ Some (normalize_path false "/posts/guides/10")
  /\ exists router,
       createRouter [("post", Template "/posts/:categoryId/:id")] default_options
       = Ok router
       /\ (parse router "/posts/guides/10" initial).1
          = Ok (Parsed (Some {| path := "/posts/guides/10"; route := "post";
                                params := {[ "categoryId" := "guides"; "id" := "10" ]} |})).
Proof.
  assert (Forall (fun v => decodes v v) ["guides"; "10"]) as Hd
    by (repeat constructor).
  assert (NoDup (segment_names post_segments)) as Hnd
    by (apply (bool_decide_unpack _); vm_compute; reflexivity).
  assert ("__proto__" ∉ segment_names post_segments) as Hp
    by (apply (bool_decide_unpack _); vm_compute; reflexivity).
  assert (prev initial ≠ Some (normalize_path false "/posts/guides/10")) as Hprev
    by discriminate.
  split; [reflexivity|]. split; [reflexivity|]. split; [reflexivity|].
  split; [reflexivity|]. split; [exact Hd|]. split; [exact Hnd|].
  split; [exact Hp|]. split; [exact Hprev|].
  destruct (round_trip_required "post" post_segments ["guides"; "10"] default_options
              initial eq_refl eq_refl eq_refl eq_refl Hd Hnd Hp Hprev)
    as (router & Hc & Hparse).
  exists router. split; [exact Hc|].
  refine (eq_trans Hparse _). vm_compute. reflexivity.
Defined.

(** C4, counterexample: the value ['%41'] has no slash, and the params
    of [parse('/posts/%41')] map [id] to ['A']; the empty value gives a path
    that no route matches; the value ['%'] makes [parse] throw. *)
Lemma round_trip_percent :
  createRouter post_config default_options = Ok (router_of post_config)
  /\ segment_value "%41" = true
  /\ (parse (router_of post_config) "/posts/%41" initial).1
     = Ok (Parsed (Some {| path := "/posts/%41"; route := "post";
                           params := {[ "id" := "A" ]} |}))
  /\ (({[ "id" := "A" ]} : ParamObject) !! "id") ≠ Some "%41"
  /\ (parse (router_of post_config) "/posts/" initial).1 = Ok (Parsed None)
  /\ (parse (router_of post_config) "/posts/%" initial).1 = Throw URIError.
Proof.
  split; [compiled|].
  repeat split; try (vm_compute; reflexivity).
  vm_compute. discriminate.
Qed.

(** C3, counterexample: for the template ['/posts/:tag?'] the params of
    [parse('/posts')] hold the key [tag] with the empty string; they are not
    the empty mapping. *)
Lemma optional_omitted_empty_string :
  createRouter tag_config default_options = Ok (router_of tag_config)
  /\ (parse (router_of tag_config) "/posts" initial).1
     = Ok (Parsed (Some {| path := "/posts"; route := "posts";
                           params := {[ "tag" := "" ]} |}))
  /\ ({[ "tag" := "" ]} : ParamObject) !! "tag" = Some ""
  /\ ({[ "tag" := "" ]} : ParamObject) ≠ ∅.
Proof.
  split; [compiled|]. split; [vm_compute; reflexivity|].
  split; [reflexivity|]. intros H. apply (f_equal (fun m : ParamObject => m !! "tag")) in H.
  vm_compute in H. discriminate.
Qed.

Lemma optional_pattern_accepts_witness :
  all_ok (map SLit ["posts"] ++ [SOpt "tag"]) = true
  /\ exists r,
       make_route "posts" (Template "/posts/:tag?") = Ok r
       /\ match_groups (r_pattern r) "/posts" = Some [Some ""]
       /\ match_groups (r_pattern r) "/posts/news" = Some [Some "news"]
       /\ match_groups (r_pattern r) "/postsnews" = Some [Some "news"]
       /\ match_groups (r_pattern r) "/posts/" = Some [Some ""]
       /\ (forall path,
             is_Some (match_groups (r_pattern r) path) ->
             exists prefix slash v,
               path = prefix +:+ slash +:+ v
               /\ same_text "/posts" prefix = true
               /\ (slash = "" \/ slash = "/")
               /\ all_chars non_slash v = true).
Proof.
  split; [reflexivity|].
  destruct (optional_pattern_accepts "posts" (map SLit ["posts"]) "tag" [] eq_refl)
    as (r & tail & Hr & _ & _ & Hlang).
  destruct (Hlang ["posts"] eq_refl eq_refl) as [Hacc Hshape].
  exists r. split; [exact Hr|].
  split; [exact (Hacc "/posts" "" "" eq_refl (or_introl eq_refl) eq_refl)|].
  split; [exact (Hacc "/posts" "/" "news" eq_refl (or_intror eq_refl) eq_refl)|].
  split; [exact (Hacc "/posts" "" "news" eq_refl (or_introl eq_refl) eq_refl)|].
  split; [exact (Hacc "/posts" "/" "" eq_refl (or_intror eq_refl) eq_refl)|].
  exact Hshape.
Defined.

(** C5, counterexample: the pattern compiled for ['/posts/:tag?'] accepts
    ['/postsnews'], where the segment comes without its slash, and
    ['/posts/'], where the slash comes without a segment. *)
Lemma optional_pattern_other_shapes :
  createRouter tag_config default_options = Ok (router_of tag_config)
  /\ r_template tag_route = Some "/posts/:tag?"
  /\ match_groups (r_pattern tag_route) "/postsnews" = Some [Some "news"]
  /\ match_groups (r_pattern tag_route) "/posts/" = Some [Some ""]
  /\ (parse (router_of tag_config) "/postsnews" initial).1
     = Ok (Parsed (Some {| path := "/postsnews"; route := "posts";
                           params := {[ "tag" := "news" ]} |})).
Proof.
  split; [compiled|]. repeat split; vm_compute; reflexivity.
Qed.

Lemma templates_only_post : templates_only post_config.
Proof.
  intros name value [= -> ->]%list_elem_of_singleton. eexists. reflexivity.
Qed.

Lemma parse_throws_from_decoder_witness :
  createRouter post_config default_options = Ok (router_of post_config)
  /\ templates_only post_config
  /\ no_percent "/posts/10" = true
  /\ prev (parse (router_of post_config) "/posts/10" initial).2 = Some "/posts/10"
  /\ exists result, (parse (router_of post_config) "/posts/10" initial).1 = Ok result.
Proof.
  assert (createRouter post_config default_options = Ok (router_of post_config))
    as Hc by compiled.
  destruct (parse_throws_from_decoder post_config default_options (router_of post_config)
              "/posts/10" initial Hc templates_only_post) as (Hprev & _ & _ & Hok & _).
  split; [exact Hc|]. split; [exact templates_only_post|]. split; [reflexivity|].
  split; [exact Hprev|]. apply Hok. reflexivity.
Defined.

(** C6, counterexample: the route ['/posts/:id'] matches ['/posts/%'],
    [decodeURIComponent('%')] throws a [URIError], and the exception
    escapes [parse]. *)
Lemma parse_malformed_percent :
  createRouter post_config default_options = Ok (router_of post_config)
  /\ decodeURIComponent "%" = Throw URIError
  /\ (parse (router_of post_config) "/posts/%" initial).1 = Throw URIError.
Proof.
  split; [compiled|]. split; vm_compute; reflexivity.
Qed.

(** ** Path generation *)

Lemma getPagePath_with_template env env' router name ps :
  str_truthy (find_route router name ≫= r_template) = true ->
  getPagePath env router name ps = getPagePath env' router name ps.
Proof.
  intros Ht. unfold getPagePath. rewrite Ht.
  destruct (decide (NODE_ENV env = _)), (decide (NODE_ENV env' = _)); reflexivity.
Qed.

(** C1.  With the configuration of the documentation, [getPagePath(router,
    'post', { categoryId: 'guides', id: '10' })] does not return
    ['/posts/guides/10']: the rest parameter [params] is the array of the
    arguments, the markers [categoryId] and [id] name no property of that
    array, and each marker is replaced by ['/undefined']. *)
Theorem getPagePath_post_example env :
  createRouter blog_config default_options = Ok (router_of blog_config)
  ∧ getPagePath env (router_of blog_config) "post" [guides_10]
    = Ok "/posts/undefined/undefined".
Proof.
  split; [compiled|].
  rewrite (getPagePath_with_template env development) by (vm_compute; reflexivity).
  vm_compute. reflexivity.
Qed.

(** Without a template there is nothing to invert: the check made outside
    production throws, and production returns the root path. *)
Lemma getPagePath_no_template env router name ps :
  find_route router name ≫= r_template = None ->
  getPagePath env router name ps
  = if decide (NODE_ENV env = Some "production") then Ok "/"
    else Throw (Error "RegExp routes are not supported").
Proof.
  intros Ht. unfold getPagePath. rewrite Ht. simpl.
  destruct (decide (NODE_ENV env = _)); reflexivity.
Qed.

Lemma make_routes_custom config name re cb rs :
  object_get config name = Some (Custom re cb) ->
  forall keys,
  map_outcome (fun name => match object_get config name with
                           | Some value => make_route name value
                           | None => Throw TypeError
                           end) keys = Ok rs ->
  List.find (fun i => String.eqb (r_name i) name) rs ≫= r_template = None.
Proof.
  intros Hget keys. revert rs.
  induction keys as [|k keys IH]; intros rs Hrs; simpl in Hrs.
  - injection Hrs as <-. reflexivity.
  - destruct (object_get config k) as [v|] eqn:Hk; [|discriminate].
    destruct (make_route k v) as [r|] eqn:Hr; [|discriminate]. simpl in Hrs.
    destruct (map_outcome _ keys) as [rs'|] eqn:Hrs'; [|discriminate].
    simpl in Hrs. injection Hrs as <-. simpl.
    assert (r_name r = k) as Hn.
    { destruct v; simpl in Hr.
      - destruct (RegExp_new _ _); simpl in Hr; [|discriminate].
        injection Hr as <-. reflexivity.
      - injection Hr as <-. reflexivity. }
    rewrite Hn. destruct (String.eqb k name) eqn:Hkn.
    + apply String.eqb_eq in Hkn. rewrite Hkn, Hget in Hk.
      injection Hk as <-. simpl in Hr. injection Hr as <-. reflexivity.
    + apply IH. reflexivity.
Qed.

(** C7 (as amended).  For a route registered with a [[RegExp, decoder]]
    pair, [getPagePath] throws only where [process.env.NODE_ENV] differs
    from ['production']; in production it returns ['/']. *)
Theorem getPagePath_custom_route config o router name re cb env ps :
  createRouter config o = Ok router ->
  object_get config name = Some (Custom re cb) ->
  getPagePath env router name ps
  = if decide (NODE_ENV env = Some "production") then Ok "/"
    else Throw (Error "RegExp routes are not supported").
Proof.
  intros Hc Hget. apply getPagePath_no_template.
  unfold createRouter in Hc.
  destruct (make_routes config) as [rs|] eqn:Hrs; [|discriminate].
  simpl in Hc. injection Hc as <-. unfold find_route. simpl.
  exact (make_routes_custom _ _ _ _ _ Hget _ Hrs).
Qed.

Lemma getPagePath_custom_route_witness :
  createRouter files_config default_options = Ok (router_of files_config)
  ∧ object_get files_config "files" = Some (Custom files_pattern files_decoder)
  ∧ getPagePath development (router_of files_config) "files" []
    = Throw (Error "RegExp routes are not supported").
Proof.
  split; [compiled|]. split; [reflexivity|].
  refine (getPagePath_custom_route files_config default_options _ "files"
            files_pattern files_decoder development [] _ _).
  - compiled.
  - reflexivity.
Defined.

(** C7, counterexample: in production the call returns a path. *)
Lemma getPagePath_custom_production :
  createRouter files_config default_options = Ok (router_of files_config)
  ∧ (find_route (router_of files_config) "files" ≫= r_template) = None
  ∧ getPagePath production (router_of files_config) "files" [] = Ok "/".
Proof.
  split; [compiled|]. split; vm_compute; reflexivity.
Qed.

(** ** Navigation *)

(** C2 (as amended).  When no route matches, [parse] returns [undefined]
    and [open] goes on as for a page: it pushes (or replaces) the path in
    the history, where [history] is defined, and stores [undefined] in the
    atom.  [open] makes no call on [history] and no write of the atom
    exactly when [parse] returns the [false] of an unchanged path or
    throws; the value of the atom is then the one it had. *)
Theorem open_unmatched env router path redirect st :
  ((parse router path st).1 = Ok (Parsed None) ->
   (open env router path redirect st).1 = Ok ()
   ∧ calls (open env router path redirect st).2
     = (calls st ++ history_calls env path redirect ++ [SetState None])%list
   ∧ value (open env router path redirect st).2 = Stored None)
  ∧ (calls (open env router path redirect st).2 = calls st
     <-> (parse router path st).1 = Ok Unchanged
         ∨ exists e, (parse router path st).1 = Throw e)
  ∧ (calls (open env router path redirect st).2 = calls st ->
     value (open env router path redirect st).2 = value st).
Proof.
  pose proof (open_effect env router path redirect st) as He.
  destruct (parse router path st).1 as [[|page]|e] eqn:Hp.
  - destruct He as (_ & Hc & Hv). split; [discriminate|]. split; [|auto].
    split; [auto | intros _; exact Hc].
  - destruct He as (Ho & Hc & Hv).
    assert (calls (open env router path redirect st).2 ≠ calls st) as Hne.
    { rewrite Hc. intros H. apply (f_equal length) in H.
      rewrite !length_app in H. simpl in H. lia. }
    split; [|split].
    + intros [= <-]. auto.
    + split; [contradiction | intros [H|[e H]]; discriminate].
    + contradiction.
  - destruct He as (_ & Hc & Hv). split; [discriminate|]. split; [|auto].
    split; [eauto | intros _; exact Hc].
Qed.

Lemma open_unmatched_witness :
  (parse (router_of blog_config) "/nope" initial).1 = Ok (Parsed None)
  ∧ (open development (router_of blog_config) "/nope" false initial).1 = Ok ()
  ∧ calls (open development (router_of blog_config) "/nope" false initial).2
    = [PushState "/nope"; SetState None]
  ∧ value (open development (router_of blog_config) "/nope" false initial).2
    = Stored None
  ∧ (parse (router_of post_config) "/posts/%" initial).1 = Throw URIError
  ∧ calls (open development (router_of post_config) "/posts/%" false initial).2
    = calls initial.
Proof.
  split; [vm_compute; reflexivity|].
  destruct (open_unmatched development (router_of blog_config) "/nope" false initial)
    as (Hnone & _ & _).
  destruct Hnone as (H1 & H2 & H3); [vm_compute; reflexivity|].
  split; [exact H1|]. split; [exact H2|]. split; [exact H3|].
  assert ((parse (router_of post_config) "/posts/%" initial).1 = Throw URIError) as Ht
    by (vm_compute; reflexivity).
  split; [exact Ht|].
  destruct (open_unmatched development (router_of post_config) "/posts/%" false initial)
    as (_ & Hiff & _).
  apply Hiff. right. exists URIError. exact Ht.
Defined.

(** C2, counterexample: no route of the documentation's configuration
    matches ['/nope'], and [open('/nope')] calls [history.pushState] and
    replaces the value of the atom. *)
Lemma open_unmatched_mutates :
  createRouter blog_config default_options = Ok (router_of blog_config)
  ∧ (parse (router_of blog_config) "/nope" initial).1 = Ok (Parsed None)
  ∧ calls (open development (router_of blog_config) "/nope" false initial).2
    = [PushState "/nope"; SetState None]
  ∧ value initial = EmptyObject
  ∧ value (open development (router_of blog_config) "/nope" false initial).2
    = Stored None.
Proof.
  split; [compiled|]. repeat split; vm_compute; reflexivity.
Qed.

(** C9 (as amended).  Two calls of [open] in a row with paths of the same
    normal form: in the second call [parse] returns [Unchanged], and the
    call returns without a call on [history] or on the atom, whatever the
    first one did.  The two calls together write the atom exactly once
    when the first call meets a path that differs from the memo and
    returns; they do not write it when the memo holds the path already, or
    when the first call throws. *)
Theorem open_twice env router path1 path2 redirect1 redirect2 st :
  normalize_path (opt_search (opts router)) path1
  = normalize_path (opt_search (opts router)) path2 ->
  let st1 := (open env router path1 redirect1 st).2 in
  parse router path2 st1 = (Ok Unchanged, st1)
  ∧ open env router path2 redirect2 st1 = (Ok (), st1)
  ∧ (prev st ≠ Some (normalize_path (opt_search (opts router)) path1) ->
     (open env router path1 redirect1 st).1 = Ok () ->
     transitions (open env router path2 redirect2 st1).2 = S (transitions st))
  ∧ (prev st = Some (normalize_path (opt_search (opts router)) path1) ->
     transitions (open env router path2 redirect2 st1).2 = transitions st)
  ∧ (forall e,
       (open env router path1 redirect1 st).1 = Throw e ->
       transitions (open env router path2 redirect2 st1).2 = transitions st).
Proof.
  intros Hn st1.
  assert (prev st1 = Some (normalize_path (opt_search (opts router)) path2)) as Hp.
  { unfold st1. rewrite open_prev. f_equal. exact Hn. }
  pose proof (open_same env router path2 redirect2 st1 Hp) as H2.
  split; [exact (parse_same _ _ _ Hp)|].
  split; [exact H2|]. rewrite H2. cbn [snd]. unfold st1.
  pose proof (open_effect env router path1 redirect1 st) as He.
  split; [|split].
  - intros Hfresh Hok.
    rewrite (parse_fresh _ _ _ Hfresh) in He. simpl in He.
    destruct (find_page _ _) as [page|e]; simpl in He.
    + destruct He as (_ & Hc & _). unfold transitions. rewrite Hc.
      rewrite !count_set_state_app. simpl. unfold history_calls.
      destruct (has_history env), redirect1; simpl; lia.
    + destruct He as (Hthrow & _). rewrite Hthrow in Hok. discriminate.
  - intros Hheld. rewrite (open_same _ _ _ redirect1 _ Hheld). reflexivity.
  - intros e Hthrow.
    destruct (parse router path1 st).1 as [[|page]|e'].
    + destruct He as (_ & Hc & _). unfold transitions. rewrite Hc. reflexivity.
    + destruct He as (Hok & _). rewrite Hok in Hthrow. discriminate.
    + destruct He as (_ & Hc & _). unfold transitions. rewrite Hc. reflexivity.
Qed.

Lemma open_twice_witness :
  normalize_path false "/posts/guides/10/" = normalize_path false "/posts/guides/10"
  ∧ parse (router_of blog_config) "/posts/guides/10"
      (open development (router_of blog_config) "/posts/guides/10/" false initial).2
    = (Ok Unchanged,
       (open development (router_of blog_config) "/posts/guides/10/" false initial).2)
  ∧ open development (router_of blog_config) "/posts/guides/10" false
      (open development (router_of blog_config) "/posts/guides/10/" false initial).2
    = (Ok (), (open development (router_of blog_config) "/posts/guides/10/" false initial).2)
  ∧ transitions
      (open development (router_of blog_config) "/posts/guides/10" false
         (open development (router_of blog_config) "/posts/guides/10/" false initial).2).2
    = 1.
Proof.
  split; [vm_compute; reflexivity|].
  pose proof (open_twice development (router_of blog_config)
                "/posts/guides/10/" "/posts/guides/10" false false initial) as H.
  destruct H as (H0 & H1 & H2 & _); [vm_compute; reflexivity|].
  split; [exact H0|]. split; [exact H1|].
  apply H2; [vm_compute; discriminate | vm_compute; reflexivity].
Defined.

(** C9, counterexample: two calls of [open('/posts/%')] in a row write the
    atom not once but never, since the first one throws; and after
    [open('/posts/1')], two more calls of it in a row write nothing. *)
Lemma open_twice_no_transition :
  createRouter post_config default_options = Ok (router_of post_config)
  ∧ (open development (router_of post_config) "/posts/%" false initial).1
    = Throw URIError
  ∧ transitions
      (open development (router_of post_config) "/posts/%" false
         (open development (router_of post_config) "/posts/%" false initial).2).2
    = 0
  ∧ transitions (open development (router_of post_config) "/posts/1" false initial).2
    = 1
  ∧ transitions
      (open development (router_of post_config) "/posts/1" false
         (open development (router_of post_config) "/posts/1" false
            (open development (router_of post_config) "/posts/1" false initial).2).2).2
    = 1.
Proof.
  split; [compiled|]. repeat split; vm_compute; reflexivity.
Qed.

(** C10.  Every call of [parse] leaves the memo equal to the normal form
    of its path, whatever it returns; so the next [parse] of a path with
    that normal form returns [false], also after an [undefined], and a
    second [open] in a row of an unmatched path makes no call on [history]
    and does not write the atom. *)
Theorem memo_after_parse env router path path' redirect redirect' st :
  normalize_path (opt_search (opts router)) path'
  = normalize_path (opt_search (opts router)) path ->
  prev (parse router path st).2
  = Some (normalize_path (opt_search (opts router)) path)
  ∧ parse router path' (parse router path st).2
    = (Ok Unchanged, (parse router path st).2)
  ∧ open env router path' redirect' (open env router path redirect st).2
    = (Ok (), (open env router path redirect st).2).
Proof.
  intros Hn. split; [apply parse_prev|]. split.
  - apply parse_same. rewrite parse_prev, Hn. reflexivity.
  - apply open_same. rewrite open_prev, Hn. reflexivity.
Qed.

Lemma memo_after_parse_witness :
  normalize_path false "/nope/" = normalize_path false "/nope"
  ∧ (parse (router_of blog_config) "/nope" initial).1 = Ok (Parsed None)
  ∧ prev (parse (router_of blog_config) "/nope" initial).2 = Some "/nope"
  ∧ parse (router_of blog_config) "/nope/" (parse (router_of blog_config) "/nope" initial).2
    = (Ok Unchanged, (parse (router_of blog_config) "/nope" initial).2)
  ∧ open development (router_of blog_config) "/nope/" false
      (open development (router_of blog_config) "/nope" false initial).2
    = (Ok (), (open development (router_of blog_config) "/nope" false initial).2).
Proof.
  split; [vm_compute; reflexivity|]. split; [vm_compute; reflexivity|].
  refine (memo_after_parse development (router_of blog_config) "/nope" "/nope/"
            false false initial _).
  vm_compute. reflexivity.
Defined.

(** ** The order of the routes *)

Lemma make_route_name name v r : make_route name v = Ok r -> r_name r = name.
Proof.
  destruct v; simpl.
  - destruct (RegExp_new _ _); simpl; [|discriminate]. intros [= <-]. reflexivity.
  - intros [= <-]. reflexivity.
Qed.

Lemma make_routes_names config rs :
  make_routes config = Ok rs -> map r_name rs = object_keys config.
Proof.
  unfold make_routes. generalize (object_keys config) as keys.
  intros keys. revert rs.
  induction keys as [|k keys IH]; intros rs Hrs; simpl in Hrs.
  - injection Hrs as <-. reflexivity.
  - destruct (object_get config k) as [v|]; [|discriminate].
    destruct (make_route k v) as [r|] eqn:Hr; [|discriminate]. simpl in Hrs.
    destruct (map_outcome _ keys) as [rs'|]; [|discriminate].
    simpl in Hrs. injection Hrs as <-. simpl.
    rewrite (make_route_name _ _ _ Hr), (IH rs' eq_refl). reflexivity.
Qed.

Lemma index_keys_none keys :
  Forall (fun k => array_index k = None) keys -> index_keys keys = [].
Proof.
  induction 1 as [|k keys Hk _ IH]; simpl; [reflexivity|].
  rewrite Hk. exact IH.
Qed.

Lemma object_keys_declared {A} (o : list (string * A)) :
  Forall (fun k => array_index k = None) (map fst o) ->
  object_keys o = map fst o.
Proof.
  intros H. unfold object_keys. rewrite (index_keys_none _ H). simpl.
  induction H as [|k keys Hk _ IH]; [reflexivity|].
  rewrite filter_cons. destruct (decide _); [|contradiction].
  f_equal. exact IH.
Qed.

Lemma find_page_first before r after path groups :
  Forall (fun r' => match_groups (r_pattern r') path = None) before ->
  match_groups (r_pattern r) path = Some groups ->
  find_page (before ++ r :: after) path
  = (ps ← r_cb r groups;
     Ok (Some {| path := path; route := r_name r; params := ps |})).
Proof.
  intros Hb Hr. induction Hb as [|r' before Hr' _ IH]; simpl.
  - rewrite Hr. reflexivity.
  - rewrite Hr'. exact IH.
Qed.

(** C8 (as amended).  [router.routes] follows the order of
    [Object.keys(routes)]: the names that are array indices first, in
    ascending numeric order, then the other names in the order of their
    declaration; that is the order of declaration when no name is an array
    index.  [parse] scans [router.routes] in order, without scoring: the
    page, or the exception, comes from the decoder of the first entry
    whose pattern accepts the path, whatever the entries after it
    accept. *)
Theorem first_route_wins config o router path st before r after groups :
  createRouter config o = Ok router ->
  routes router = (before ++ r :: after)%list ->
  Forall (fun r' => match_groups (r_pattern r') (normalize_path (opt_search o) path) = None)
         before ->
  match_groups (r_pattern r) (normalize_path (opt_search o) path) = Some groups ->
  prev st ≠ Some (normalize_path (opt_search o) path) ->
  map r_name (routes router) = object_keys config
  ∧ (Forall (fun k => array_index k = None) (map fst config) ->
     map r_name (routes router) = map fst config)
  ∧ (parse router path st).1
    = (ps ← r_cb r groups;
       Ok (Parsed (Some {| path := normalize_path (opt_search o) path;
                           route := r_name r; params := ps |}))).
Proof.
  intros Hc Hrs Hb Hr Hfresh.
  unfold createRouter in Hc.
  destruct (make_routes config) as [rs|] eqn:Hmk; [|discriminate].
  simpl in Hc. injection Hc as <-. simpl in *.
  pose proof (make_routes_names _ _ Hmk) as Hnames.
  split; [exact Hnames|]. split.
  - intros Hdecl. rewrite Hnames. apply object_keys_declared, Hdecl.
  - rewrite parse_fresh by exact Hfresh. simpl.
    rewrite Hrs, (find_page_first _ _ _ _ _ Hb Hr).
    destruct (r_cb r groups); reflexivity.
Qed.

Lemma two_elements {A} (d : A) (l : list A) :
  length l = 2 -> l = [default d (l !! 0); default d (l !! 1)].
Proof.
  destruct l as [|x [|y [|z l]]]; simpl; try discriminate. reflexivity.
Qed.

Lemma first_route_wins_witness :
  createRouter overlap_config default_options = Ok (router_of overlap_config)
  ∧ routes (router_of overlap_config) = ([] ++ route_404 :: [route_all])%list
  ∧ match_groups (r_pattern route_404) (normalize_path false "/a") = Some [Some "a"]
  ∧ prev initial ≠ Some (normalize_path false "/a")
  ∧ map r_name (routes (router_of overlap_config)) = object_keys overlap_config
  ∧ (parse (router_of overlap_config) "/a" initial).1
    = Ok (Parsed (Some {| path := "/a"; route := "404"; params := {[ "y" := "a" ]} |})).
Proof.
  assert (createRouter overlap_config default_options = Ok (router_of overlap_config))
    as Hc by compiled.
  assert (routes (router_of overlap_config) = ([] ++ route_404 :: [route_all])%list)
    as Hrs by (apply (two_elements no_route); vm_compute; reflexivity).
  assert (match_groups (r_pattern route_404) (normalize_path false "/a") = Some [Some "a"])
    as Hm by (vm_compute; reflexivity).
  assert (prev initial ≠ Some (normalize_path false "/a")) as Hp by discriminate.
  destruct (first_route_wins overlap_config default_options (router_of overlap_config)
              "/a" initial [] route_404 [route_all] [Some "a"] Hc Hrs
              (Forall_nil_2 _) Hm Hp) as (Hn & _ & Hparse).
  split; [exact Hc|]. split; [exact Hrs|]. split; [exact Hm|].
  split; [exact Hp|]. split; [exact Hn|].
  rewrite Hparse. vm_compute. reflexivity.
Defined.

(** C8, counterexample: ['all'] is declared before ['404'] and the
    patterns of both accept ['/a'], but [Object.keys] puts ['404'] first
    and [parse] returns the page of ['404']. *)
Lemma second_declared_wins :
  createRouter overlap_config default_options = Ok (router_of overlap_config)
  ∧ map fst overlap_config = ["all"; "404"]
  ∧ map r_name (routes (router_of overlap_config)) = ["404"; "all"]
  ∧ map (fun r => match_groups (r_pattern r) "/a") (routes (router_of overlap_config))
    = [Some [Some "a"]; Some [Some "a"]]
  ∧ (parse (router_of overlap_config) "/a" initial).1
    = Ok (Parsed (Some {| path := "/a"; route := "404"; params := {[ "y" := "a" ]} |})).
Proof.
  split; [compiled|]. repeat split; vm_compute; reflexivity.
Qed.

(** * Further properties *)

(** ** The normal form of a path and the query *)

Lemma parse_normal router p1 p2 st :
  normalize_path (opt_search (opts router)) p1
  = normalize_path (opt_search (opts router)) p2 ->
  parse router p1 st = parse router p2 st.
Proof. intros H. unfold parse. rewrite H. reflexivity. Qed.

Lemma before_question_app p q :
  no_query p = true -> before_question (p +:+ String "?" q) = p.
Proof.
  induction p as [|c p IH]; str; [reflexivity|].
  unfold no_query. cbn [all_chars before_question].
  intros [Hc Hp]%andb_true_iff. apply negb_true_iff in Hc. rewrite Hc, (IH Hp).
  reflexivity.
Qed.

Lemma no_query_app a b : no_query (a +:+ b) = no_query a && no_query b.
Proof. apply all_chars_app. Qed.

Lemma str_or_app_cons a c b d : str_or (a +:+ String c b) d = a +:+ String c b.
Proof. destruct a; reflexivity. Qed.

(** X1.  Without [opts.search], [parse] drops the query: a path with a query is
    parsed as the path before its first ['?']. *)
Theorem parse_ignores_query router p q st :
  opt_search (opts router) = false ->
  no_query p = true ->
  parse router (p +:+ "?" +:+ q) st = parse router p st.
Proof.
  intros Hs Hp. apply parse_normal. rewrite Hs. unfold normalize_path. str.
  rewrite (before_question_app _ _ Hp), (before_question_id _ Hp). reflexivity.
Qed.

Lemma parse_ignores_query_witness :
  opt_search (opts (router_of blog_config)) = false
  ∧ no_query "/posts/guides/10" = true
  ∧ parse (router_of blog_config) "/posts/guides/10?page=2" initial
    = parse (router_of blog_config) "/posts/guides/10" initial.
Proof.
  split; [vm_compute; reflexivity|]. split; [reflexivity|].
  refine (parse_ignores_query (router_of blog_config) "/posts/guides/10" "page=2"
            initial _ _); vm_compute; reflexivity.
Defined.

(** X2.  [parse] removes one slash at the end of a path, and one only: a path
    and the path followed by a slash are parsed alike, and a path that ends
    with two slashes keeps one. *)
Theorem parse_trailing_slash router p st :
  no_query p = true ->
  strip_slash p = p ->
  parse router (p +:+ "/") st = parse router p st
  ∧ normalize_path (opt_search (opts router)) (p +:+ "//") = p +:+ "/".
Proof.
  intros Hq Hp. split.
  - apply parse_normal.
    rewrite !normalize_path_strip
      by (rewrite ?no_query_app, ?Hq; reflexivity).
    rewrite strip_slash_app by discriminate. cbn [strip_slash ascii_eqb].
    rewrite Hp. simpl. rewrite sapp_nil_r. reflexivity.
  - rewrite normalize_path_strip by (rewrite no_query_app, Hq; reflexivity).
    rewrite strip_slash_app by discriminate. simpl strip_slash.
    apply str_or_app_cons.
Qed.

Lemma parse_trailing_slash_witness :
  no_query "/posts" = true
  ∧ strip_slash "/posts" = "/posts"
  ∧ parse (router_of blog_config) "/posts/" initial
    = parse (router_of blog_config) "/posts" initial
  ∧ normalize_path (opt_search (opts (router_of blog_config))) "/posts//" = "/posts/".
Proof.
  split; [reflexivity|]. split; [reflexivity|].
  exact (parse_trailing_slash (router_of blog_config) "/posts" initial eq_refl eq_refl).
Defined.

(** [/\/($|\?)/] at a position. *)
Lemma slash_before_end_step inp c s :
  match_at re_slash_before_end inp (String c s)
  = if ascii_eqb "/" c then
      match s with
      | "" => Some ("", [Some ""])
      | String a s' => if ascii_eqb "?" a then Some (s', [Some "?"]) else None
      end
    else None.
Proof.
  unfold match_at, re_slash_before_end, literal. cbn [re_source re_ignoreCase].
  rewrite rm_seq, rm_chr. unfold chr_eq.
  destruct (ascii_eqb "/" c); [|reflexivity].
  rewrite rm_group. cbn [rmatch]. destruct s as [|a s']; [reflexivity|].
  unfold chr_eq. destruct (ascii_eqb "?" a) eqn:E; [|reflexivity].
  apply ascii_eqb_eq in E as <-. simpl String.length.
  replace (S (String.length s') - String.length s') with 1 by lia.
  reflexivity.
Qed.

Lemma search_query_slash pre p q :
  no_query p = true ->
  search re_slash_before_end (pre +:+ p +:+ "/?" +:+ q) (p +:+ "/?" +:+ q)
  = Some {| m_before := pre +:+ p; m_text := "/?"; m_groups := [Some "?"];
            m_after := q |}.
Proof.
  revert pre. induction p as [|c p IH]; intros pre Hq.
  - str. cbn [search]. rewrite slash_before_end_step. cbn [ascii_eqb].
    simpl. unfold mk_match. cbn [fst snd]. f_equal. f_equal.
    + change (String "/" (String "?" q)) with ("/?" +:+ q).
      rewrite slength_app_minus, str_take_app. symmetry. apply sapp_nil_r.
    + simpl String.length.
      replace (S (S (String.length q)) - String.length q) with 2 by lia.
      reflexivity.
  - unfold no_query in Hq. cbn [all_chars] in Hq.
    apply andb_true_iff in Hq as [Hc Hq]. str. cbn [search].
    rewrite slash_before_end_step.
    replace (if ascii_eqb "/" c then _ else None) with (@None mres).
    + specialize (IH (pre +:+ String c "") Hq). rewrite !sapp_assoc in IH.
      str. exact IH.
    + destruct (ascii_eqb "/" c); [|reflexivity].
      destruct p as [|a p]; str; [reflexivity|].
      cbn [all_chars] in Hq. apply andb_true_iff in Hq as [Ha _].
      apply negb_true_iff in Ha.
      replace (ascii_eqb "?" a) with false; [reflexivity|].
      symmetry. apply ascii_eqb_neq. intros <-. discriminate.
Qed.

(** X3.  With [opts.search], [parse] keeps the query and removes the slash
    before it: the memo of ['/posts/?page=2'] is ['/posts?page=2']. *)
Theorem query_slash_removed router p q st :
  opt_search (opts router) = true ->
  no_query p = true ->
  normalize_path (opt_search (opts router)) (p +:+ "/?" +:+ q) = p +:+ "?" +:+ q
  ∧ prev (parse router (p +:+ "/?" +:+ q) st).2 = Some (p +:+ "?" +:+ q).
Proof.
  intros Hs Hq.
  assert (normalize_path (opt_search (opts router)) (p +:+ "/?" +:+ q)
          = p +:+ "?" +:+ q) as Hn.
  { rewrite Hs. unfold normalize_path, replace_first, exec.
    pose proof (search_query_slash "" p q Hq) as H. rewrite sapp_nil_l in H.
    rewrite H. cbn [m_before m_after m_groups dollar1]. simpl mjoin.
    cbn [default]. str. apply str_or_app_cons. }
  split; [exact Hn|]. rewrite parse_prev, Hn. reflexivity.
Qed.

Lemma query_slash_removed_witness :
  opt_search {| opt_search := true; opt_links := true |} = true
  ∧ no_query "/posts" = true
  ∧ normalize_path true "/posts/?page=2" = "/posts?page=2"
  ∧ prev (parse {| routes := []; opts := {| opt_search := true; opt_links := true |} |}
            "/posts/?page=2" initial).2
    = Some "/posts?page=2".
Proof.
  split; [reflexivity|]. split; [reflexivity|].
  exact (query_slash_removed
           {| routes := []; opts := {| opt_search := true; opt_links := true |} |}
           "/posts" "page=2" initial eq_refl eq_refl).
Defined.

(** ** The memo across [open], [popstate] and the clean-up *)

Lemma popstate_prev router location st :
  prev (popstate router location st).2
  = Some (normalize_path (opt_search (opts router)) location).
Proof.
  unfold popstate. pose proof (parse_prev router location st) as Hp.
  destruct (parse router location st) as [[[|page]|e] st']; exact Hp.
Qed.

Lemma popstate_same router location st :
  prev st = Some (normalize_path (opt_search (opts router)) location) ->
  popstate router location st = (Ok (), st).
Proof.
  intros Hp. unfold popstate. rewrite (parse_same _ _ _ Hp). reflexivity.
Qed.

(** X4.  [open] and [popstate] share the memo: after one of them, the other
    one on a path of the same normal form returns without a call. *)
Theorem popstate_after_open env router path1 path2 redirect st :
  normalize_path (opt_search (opts router)) path1
  = normalize_path (opt_search (opts router)) path2 ->
  popstate router path2 (open env router path1 redirect st).2
  = (Ok (), (open env router path1 redirect st).2)
  ∧ open env router path2 redirect (popstate router path1 st).2
    = (Ok (), (popstate router path1 st).2).
Proof.
  intros Hn. split.
  - apply popstate_same. rewrite open_prev, Hn. reflexivity.
  - apply open_same. rewrite popstate_prev, Hn. reflexivity.
Qed.

Lemma popstate_after_open_witness :
  normalize_path (opt_search (opts (router_of blog_config))) "/posts/guides/"
  = normalize_path (opt_search (opts (router_of blog_config))) "/posts/guides?x=1"
  ∧ popstate (router_of blog_config) "/posts/guides?x=1"
      (open development (router_of blog_config) "/posts/guides/" false initial).2
    = (Ok (), (open development (router_of blog_config) "/posts/guides/" false initial).2)
  ∧ open development (router_of blog_config) "/posts/guides?x=1" false
      (popstate (router_of blog_config) "/posts/guides/" initial).2
    = (Ok (), (popstate (router_of blog_config) "/posts/guides/" initial).2).
Proof.
  split; [vm_compute; reflexivity|].
  apply (popstate_after_open development (router_of blog_config)
           "/posts/guides/" "/posts/guides?x=1" false initial).
  vm_compute. reflexivity.
Defined.

(** X5.  The clean-up of [onConnect] forgets the memo: after it, [open] of the
    path that was opened last goes through again, with its call on
    [history] and its write of the atom. *)
Theorem open_after_disconnect env router path redirect st page :
  find_page (routes router) (normalize_path (opt_search (opts router)) path) = Ok page ->
  open env router path redirect (disconnect (open env router path redirect st).2)
  = (Ok (),
     {| prev := Some (normalize_path (opt_search (opts router)) path);
        value := Stored page;
        calls := (calls (open env router path redirect st).2
                  ++ history_calls env path redirect ++ [SetState page])%list |}).
Proof.
  intros Hpage. unfold open at 1. rewrite parse_fresh by discriminate.
  rewrite Hpage. cbn [fmap outcome_fmap]. unfold history_calls.
  destruct (has_history env), redirect;
    unfold set_state, history_call, set_prev, disconnect;
    cbn [prev value calls app]; rewrite <- ?app_assoc; reflexivity.
Qed.

Lemma open_after_disconnect_witness :
  find_page (routes (router_of blog_config))
    (normalize_path (opt_search (opts (router_of blog_config))) "/") 
  = Ok (Some {| path := "/"; route := "home"; params := ∅ |})
  ∧ calls (open development (router_of blog_config) "/" false
             (disconnect (open development (router_of blog_config) "/" false initial).2)).2
    = [PushState "/"; SetState (Some {| path := "/"; route := "home"; params := ∅ |});
       PushState "/"; SetState (Some {| path := "/"; route := "home"; params := ∅ |})].
Proof.
  split; [vm_compute; reflexivity|].
  rewrite (open_after_disconnect development (router_of blog_config) "/" false initial
             (Some {| path := "/"; route := "home"; params := ∅ |}))
    by (vm_compute; reflexivity).
  vm_compute. reflexivity.
Defined.


(** ** [getPagePath] and the object of the parameters *)

Lemma map_outcome_ext {A B} (f g : A -> outcome B) l :
  (forall x, f x = g x) -> map_outcome f l = map_outcome g l.
Proof.
  intros H. induction l as [|x l IH]; [reflexivity|].
  cbn [map_outcome]. rewrite H, IH. reflexivity.
Qed.

Lemma replace_all_with_ext re f g s :
  (forall i, f i = g i) -> replace_all_with re f s = replace_all_with re g s.
Proof.
  intros H. unfold replace_all_with.
  rewrite (map_outcome_ext _ (fun p => match p with
                                     | Kept c => Ok (String c "")
                                     | Matched text => g text
                                     end)); [reflexivity|].
  intros [c|text]; [reflexivity | apply H].
Qed.

Lemma array_get_single o1 o2 key :
  o1 !! "toString" = None -> o2 !! "toString" = None ->
  truthy (array_get [o1] key) = truthy (array_get [o2] key)
  ∧ js_to_string (array_get [o1] key) = js_to_string (array_get [o2] key).
Proof.
  intros H1 H2. unfold array_get.
  destruct (array_index key) as [i|]; [|split; reflexivity].
  destruct (N.to_nat i) as [|n]; [|split; reflexivity].
  cbn [lookup list_lookup truthy js_to_string]. rewrite H1, H2. split; reflexivity.
Qed.

(** X8.  What [getPagePath] returns does not depend on the entries of the
    object passed for the parameters: [params] is the array of the rest
    arguments, and the object is only ever converted to a string as a
    whole. *)
Theorem getPagePath_ignores_params env router name o1 o2 :
  o1 !! "toString" = None ->
  o2 !! "toString" = None ->
  getPagePath env router name [o1] = getPagePath env router name [o2].
Proof.
  intros H1 H2. unfold getPagePath.
  destruct (find_route router name ≫= r_template) as [t|]; [|reflexivity].
  rewrite (replace_all_with_ext re_optional_param _
             (fun i =>
                let param := array_get [o2] (slice_0_m1 (slice2 i)) in
                if truthy param then
                  s ← js_to_string param; Ok ("/" +:+ encodeURIComponent s)
                else Ok "")).
  2:{ intros i. cbn zeta.
      destruct (array_get_single o1 o2 (slice_0_m1 (slice2 i)) H1 H2) as [-> ->].
      reflexivity. }
  destruct (replace_all_with re_optional_param _ t) as [p1|e];
    [|reflexivity].
  cbn [mbind outcome_bind].
  rewrite (replace_all_with_ext re_param _
             (fun i =>
                s ← js_to_string (array_get [o2] (slice2 i));
                Ok ("/" +:+ encodeURIComponent s))).
  2:{ intros i. destruct (array_get_single o1 o2 (slice2 i) H1 H2) as [_ ->].
      reflexivity. }
  reflexivity.
Qed.

Lemma getPagePath_ignores_params_witness :
  (guides_10 !! "toString" = None)
  ∧ ((∅ : ParamObject) !! "toString" = None)
  ∧ getPagePath development (router_of blog_config) "post" [guides_10]
    = getPagePath development (router_of blog_config) "post" [∅].
Proof.
  split; [vm_compute; reflexivity|]. split; [reflexivity|].
  apply getPagePath_ignores_params; [vm_compute; reflexivity | reflexivity].
Defined.

(** ** [getPagePath] on a template of segments *)

Section RawPasses.
Variable inp : string.

Lemma word_run_stop c name rest cs k :
  name_ok name = true ->
  stops is_word rest = true ->
  is_word c = false ->
  (forall s, stops (ascii_eqb c) s = true -> k s cs = None) ->
  stops (ascii_eqb c) rest = true ->
  rmatch false inp (Plus word_class) (name +:+ rest) cs k = None.
Proof.
  intros (a & name' & -> & Ha & Hn)%name_ok_cons Hrest Hc Hk Hb. str.
  unfold word_class. rewrite rm_plus_class.
  - apply backtrack_none. intros v1 v2 ->. apply Hk.
    destruct v2 as [|b v2]; str; [exact Hb|]. simpl.
    rewrite all_chars_app in Hn. apply andb_true_iff in Hn as [_ Hn].
    simpl in Hn. apply andb_true_iff in Hn as [Hb' _].
    apply negb_true_iff, ascii_eqb_neq. intros ->. congruence.
  - rewrite in_class_word. exact Ha.
  - rewrite (all_chars_ext _ is_word) by apply in_class_word. exact Hn.
  - rewrite (stops_ext _ is_word) by apply in_class_word. exact Hrest.
Qed.

(** [/\/:\w+\?/g] on the template *)

Lemma optional_param_at_optional name rest :
  name_ok name = true ->
  match_at re_optional_param inp ("/:" +:+ name +:+ String "?" rest) = Some (rest, []).
Proof.
  intros Hn. unfold match_at, re_optional_param, literal.
  cbn [re_source re_ignoreCase]. str.
  rewrite rm_seq, rm_chr_same, rm_seq, rm_chr_same, rm_seq.
  apply word_run_first; [assumption | reflexivity |].
  rewrite rm_chr_same. reflexivity.
Qed.

Lemma optional_param_at_required name rest :
  name_ok name = true -> boundary rest = true ->
  match_at re_optional_param inp ("/:" +:+ name +:+ rest) = None.
Proof.
  intros Hn Hrest. unfold match_at, re_optional_param, literal.
  cbn [re_source re_ignoreCase]. str.
  rewrite rm_seq, rm_chr_same, rm_seq, rm_chr_same, rm_seq.
  apply (word_run_stop "?"); [assumption | apply boundary_stops_word, Hrest
                             | reflexivity | |].
  - intros s Hs. apply rm_chr_stop, Hs.
  - apply boundary_stops; [reflexivity | exact Hrest].
Qed.

Lemma optional_param_at_literal text rest :
  literal_ok text = true -> boundary rest = true ->
  match_at re_optional_param inp ("/" +:+ text +:+ rest) = None.
Proof.
  intros Ht Hrest. unfold match_at, re_optional_param, literal.
  cbn [re_source re_ignoreCase]. str.
  rewrite rm_seq, rm_chr_same, rm_seq.
  apply rm_chr_stop, literal_stops_colon; assumption.
Qed.

Lemma raw_optional_segment sg rest :
  segment_ok sg = true -> boundary rest = true ->
  scan re_optional_param inp 0 (segment_text sg +:+ rest)
  = ((if is_optional sg then [Matched (segment_text sg)]
      else kept_text (segment_text sg))
     ++ scan re_optional_param inp 0 rest)%list.
Proof.
  intros Hsg Hrest. destruct sg as [text|name|name];
    cbn [segment_text is_optional segment_ok] in *.
  - rewrite ?sapp_assoc; str.
    rewrite scan_miss by (apply optional_param_at_literal; assumption).
    unfold re_optional_param.
    rewrite scan_non_slash by (apply literal_non_slash, Hsg).
    reflexivity.
  - rewrite ?sapp_assoc; str.
    rewrite scan_miss by (apply optional_param_at_required; assumption).
    unfold re_optional_param.
    change (String ":" (name +:+ rest)) with (String ":" name +:+ rest).
    rewrite (scan_non_slash _ _ (String ":" name))
      by (cbn [all_chars]; rewrite name_non_slash by exact Hsg; reflexivity).
    reflexivity.
  - erewrite scan_hit; [reflexivity | discriminate |].
    rewrite ?sapp_assoc; str. apply optional_param_at_optional, Hsg.
Qed.
End RawPasses.

Lemma map_outcome_app {A B} (f : A -> outcome B) l1 l2 r1 r2 :
  map_outcome f l1 = Ok r1 -> map_outcome f l2 = Ok r2 ->
  map_outcome f (l1 ++ l2)%list = Ok (r1 ++ r2)%list.
Proof.
  revert r1. induction l1 as [|x l1 IH]; intros r1 H1 H2.
  - injection H1 as <-. exact H2.
  - cbn [map_outcome app] in *. destruct (f x) as [y|e]; [|discriminate].
    cbn [mbind outcome_bind] in *.
    destruct (map_outcome f l1) as [ys|e]; [|discriminate].
    injection H1 as <-. rewrite (IH ys eq_refl H2). reflexivity.
Qed.

Lemma on_piece_kept f b :
  exists l, map_outcome (on_piece f) (kept_text b) = Ok l ∧ str_concat l = b.
Proof.
  induction b as [|c b (l & Hl & Hb)]; [exists []; auto|].
  exists (String c "" :: l). cbn [kept_text map_outcome on_piece].
  rewrite Hl. cbn [mbind outcome_bind str_concat]. rewrite Hb. auto.
Qed.

(** A pass of [replace] with a callback over a text cut by segments. *)
Lemma pass_segments f (out : segment -> list piece) (res : segment -> string) segs :
  Forall (fun sg => exists l, map_outcome (on_piece f) (out sg) = Ok l
                              ∧ str_concat l = res sg) segs ->
  exists l, map_outcome (on_piece f) (flat_map out segs) = Ok l
            ∧ str_concat l = str_concat (map res segs).
Proof.
  induction 1 as [|sg segs (l1 & H1 & E1) _ (l2 & H2 & E2)]; [exists []; auto|].
  exists (l1 ++ l2)%list. cbn [flat_map map str_concat].
  rewrite (map_outcome_app _ _ _ _ _ H1 H2), str_concat_app, E1, E2. auto.
Qed.

Lemma replace_all_with_pieces re f s l :
  map_outcome (on_piece f) (pieces re s) = Ok l ->
  replace_all_with re f s = Ok (str_concat l).
Proof.
  intros H. unfold replace_all_with. fold (on_piece f). rewrite H. reflexivity.
Qed.

Lemma plain_name_get ps key : plain_name key = true -> array_get ps key = VUndefined.
Proof.
  unfold plain_name, array_get. destruct (array_index key); [discriminate|].
  intros [H1 H2]%andb_true_iff. apply negb_true_iff in H1, H2.
  rewrite H1, H2. reflexivity.
Qed.

Lemma slice_optional name : slice_0_m1 (slice2 ("/:" +:+ name +:+ "?")) = name.
Proof.
  str. unfold slice2, slice_0_m1. cbn [str_drop].
  rewrite slength_app. simpl String.length.
  replace (String.length name + 1 - 1) with (String.length name) by lia.
  apply str_take_app.
Qed.

(** The template without its optional parameters. *)
Lemma required_template segs :
  str_concat (map (fun sg => if is_optional sg then "" else segment_text sg) segs)
  = template_of (filter (fun sg => is_optional sg = false) segs).
Proof.
  induction segs as [|sg segs IH]; [reflexivity|].
  cbn [map str_concat]. rewrite filter_cons, IH.
  destruct sg; cbn [is_optional];
    (destruct (decide _) as [_|F]; [reflexivity | contradiction])
    || (destruct (decide _) as [F|_]; [discriminate | reflexivity]).
Qed.

Lemma required_ok segs :
  all_ok segs = true -> all_ok (filter (fun sg => is_optional sg = false) segs) = true.
Proof.
  induction segs as [|sg segs IH]; [reflexivity|].
  cbn [all_ok forallb]. intros [Hsg Hok]%andb_true_iff. rewrite filter_cons.
  destruct (decide _); [|apply IH, Hok].
  cbn [all_ok forallb]. rewrite Hsg. apply IH, Hok.
Qed.

Lemma blank_fill segs :
  str_concat (map (fun sg => match sg with
                             | SReq _ => "/undefined"
                             | _ => segment_text sg
                             end)
                  (filter (fun sg => is_optional sg = false) segs))
  = fill segs (blank_values segs).
Proof.
  induction segs as [|sg segs IH]; [reflexivity|].
  rewrite filter_cons. destruct sg as [text|name|name]; cbn [is_optional].
  - destruct (decide _) as [_|F]; [|contradiction].
    cbn [map str_concat segment_text]. rewrite IH.
    change (blank_values (SLit text :: segs)) with (blank_values segs).
    rewrite fill_literal, sapp_assoc. reflexivity.
  - destruct (decide _) as [_|F]; [|contradiction].
    cbn [map str_concat]. rewrite IH.
    change (blank_values (SReq name :: segs))
      with (Some "undefined" :: blank_values segs).
    rewrite fill_required. str. reflexivity.
  - destruct (decide _) as [F|_]; [discriminate|]. rewrite IH. reflexivity.
Qed.

Lemma plain_segments segs :
  all_ok segs = true ->
  Forall (fun n => plain_name n = true) (segment_names segs) ->
  Forall (fun sg => segment_ok sg = true
                    ∧ forall n, segment_name sg = Some n -> plain_name n = true) segs.
Proof.
  induction segs as [|sg segs IH]; [constructor|].
  cbn [all_ok forallb]. intros [Hsg Hok]%andb_true_iff. rewrite segment_names_cons.
  intros Hp. constructor.
  - split; [exact Hsg|]. intros n Hn. rewrite Hn in Hp.
    apply Forall_cons in Hp as [H _]. exact H.
  - apply IH; [exact Hok|]. destruct (segment_name sg); [|exact Hp].
    apply Forall_cons in Hp as [_ H]. exact H.
Qed.

Lemma filter_plain segs :
  Forall (fun n => plain_name n = true) (segment_names segs) ->
  Forall (fun n => plain_name n = true)
         (segment_names (filter (fun sg => is_optional sg = false) segs)).
Proof.
  induction segs as [|sg segs IH]; [constructor|].
  rewrite segment_names_cons, filter_cons. intros Hp.
  assert (Forall (fun n => plain_name n = true) (segment_names segs)) as Hs.
  { destruct (segment_name sg); [|exact Hp]. apply Forall_cons in Hp as [_ H].
    exact H. }
  destruct (decide _); [|apply IH, Hs].
  rewrite segment_names_cons. destruct (segment_name sg); [|apply IH, Hs].
  apply Forall_cons in Hp as [H _]. constructor; [exact H | apply IH, Hs].
Qed.

(** The first pass of [getPagePath]: the optional parameters. *)
Lemma optional_pass ps segs :
  all_ok segs = true ->
  Forall (fun n => plain_name n = true) (segment_names segs) ->
  replace_all_with re_optional_param (optional_value ps) (template_of segs)
  = Ok (template_of (filter (fun sg => is_optional sg = false) segs)).
Proof.
  intros Hok Hp. rewrite <- required_template.
  destruct (pass_segments (optional_value ps)
              (fun sg => if is_optional sg then [Matched (segment_text sg)]
                         else kept_text (segment_text sg))
              (fun sg => if is_optional sg then "" else segment_text sg) segs)
    as (l & Hl & <-).
  - eapply Forall_impl; [apply plain_segments; eassumption|].
    intros [text|name|name] [Hsg Hn]; cbn [is_optional]; try apply on_piece_kept.
    exists [""]. split; [|reflexivity].
    cbn [map_outcome on_piece segment_text]. unfold optional_value.
    rewrite slice_optional, plain_name_get by (apply Hn; reflexivity).
    reflexivity.
  - apply replace_all_with_pieces. unfold pieces, template_of.
    rewrite (scan_segments _ _ segment_text
               (fun sg => if is_optional sg then [Matched (segment_text sg)]
                          else kept_text (segment_text sg)));
      [exact Hl
      | intros; apply raw_optional_segment; assumption
      | intros [?|?|?] ?; reflexivity
      | reflexivity
      | exact Hok].
Qed.

(** The second pass: the required parameters. *)
Lemma required_pass ps segs :
  all_ok segs = true ->
  Forall (fun n => plain_name n = true) (segment_names segs) ->
  replace_all_with re_param (required_value ps) (template_of segs)
  = Ok (str_concat (map (fun sg => match sg with
                                   | SLit _ => segment_text sg
                                   | SReq _ => "/undefined"
                                   | SOpt _ => "/undefined?"
                                   end) segs)).
Proof.
  intros Hok Hp.
  destruct (pass_segments (required_value ps) name_pieces
              (fun sg => match sg with
                         | SLit _ => segment_text sg
                         | SReq _ => "/undefined"
                         | SOpt _ => "/undefined?"
                         end) segs)
    as (l & Hl & <-).
  - eapply Forall_impl; [apply plain_segments; eassumption|].
    intros [text|name|name] [Hsg Hn]; cbn [name_pieces].
    + apply on_piece_kept.
    + exists ["/undefined"]. split; [|reflexivity].
      cbn [map_outcome on_piece]. unfold required_value, slice2. str.
      cbn [str_drop]. rewrite plain_name_get by (apply Hn; reflexivity).
      reflexivity.
    + exists ["/undefined"; "?"]. split; [|reflexivity].
      cbn [map_outcome on_piece]. unfold required_value, slice2. str.
      cbn [str_drop]. rewrite plain_name_get by (apply Hn; reflexivity).
      reflexivity.
  - apply replace_all_with_pieces. unfold pieces, template_of.
    rewrite (scan_segments _ _ segment_text name_pieces);
      [exact Hl
      | intros; apply names_segment; assumption
      | intros [?|?|?] ?; reflexivity
      | reflexivity
      | exact Hok].
Qed.

Lemma required_text segs :
  map (fun sg => match sg with
                 | SLit _ => segment_text sg
                 | SReq _ => "/undefined"
                 | SOpt _ => "/undefined?"
                 end) (filter (fun sg => is_optional sg = false) segs)
  = map (fun sg => match sg with
                   | SReq _ => "/undefined"
                   | _ => segment_text sg
                   end) (filter (fun sg => is_optional sg = false) segs).
Proof.
  apply map_ext_in. intros [text|name|name] H; try reflexivity.
  apply list_elem_of_In, list_elem_of_filter in H as [H _]. discriminate.
Qed.

(** X9.  On a route with a template of segments whose parameters have names
    that are no property of an array, [getPagePath] returns the template
    with [undefined] for each required parameter and without the optional
    parameters, whatever is passed for the parameters. *)
Theorem getPagePath_template env router name r segs ps :
  all_ok segs = true ->
  segs ≠ [] ->
  Forall (fun n => plain_name n = true) (segment_names segs) ->
  find_route router name = Some r ->
  r_template r = Some (template_of segs) ->
  getPagePath env router name ps = Ok (str_or (fill segs (blank_values segs)) "/").
Proof.
  intros Hok Hne Hplain Hr Ht. unfold getPagePath. rewrite Hr. cbn [mbind option_bind].
  rewrite Ht.
  replace (str_truthy (Some (template_of segs))) with true
    by (destruct segs as [|[?|?|?] ?]; [contradiction|reflexivity..]).
  fold (optional_value ps). fold (required_value ps).
  rewrite (optional_pass _ _ Hok Hplain).
  destruct (decide (NODE_ENV env = Some "production")); rewrite !bind_ok;
    rewrite (required_pass ps _ (required_ok _ Hok) (filter_plain _ Hplain));
    rewrite !bind_ok; cbn [default]; rewrite required_text, blank_fill;
    reflexivity.
Qed.

Lemma getPagePath_template_witness :
  all_ok post_segments = true
  /\ post_segments ≠ []
  /\ Forall (fun n => plain_name n = true) (segment_names post_segments)
  /\ getPagePath development
       {| routes := [template_route "post" post_segments]; opts := default_options |}
       "post" [guides_10]
     = Ok "/posts/undefined/undefined".
Proof.
  assert (post_segments ≠ []) as Hne by discriminate.
  assert (Forall (fun n => plain_name n = true) (segment_names post_segments)) as Hp
    by (repeat constructor).
  split; [reflexivity|]. split; [exact Hne|]. split; [exact Hp|].
  exact (getPagePath_template development
           {| routes := [template_route "post" post_segments]; opts := default_options |}
           "post" (template_route "post" post_segments) post_segments [guides_10]
           eq_refl Hne Hp eq_refl eq_refl).
Defined.

(** ** Values written by [encodeURIComponent] and read by [parse] *)

Lemma decode_encode_char c rest :
  decodeURIComponent (encode_char c +:+ rest) = prepend c (decodeURIComponent rest).
Proof. destruct c as [[] [] [] [] [] [] [] []]; reflexivity. Qed.

Lemma decode_encode s : decodeURIComponent (encodeURIComponent s) = Ok s.
Proof.
  induction s as [|c s IH]; [reflexivity|].
  cbn [encodeURIComponent]. rewrite decode_encode_char, IH. reflexivity.
Qed.

Lemma encode_char_chars c : all_chars encoded_char (encode_char c) = true.
Proof. destruct c as [[] [] [] [] [] [] [] []]; reflexivity. Qed.

Lemma encode_char_nonempty c : encode_char c ≠ "".
Proof. destruct c as [[] [] [] [] [] [] [] []]; discriminate. Qed.

Lemma encode_chars s : all_chars encoded_char (encodeURIComponent s) = true.
Proof.
  induction s as [|c s IH]; [reflexivity|].
  cbn [encodeURIComponent]. rewrite all_chars_app, encode_char_chars, IH. reflexivity.
Qed.

Lemma encoded_non_slash c : encoded_char c = true -> non_slash c = true.
Proof. destruct c as [[] [] [] [] [] [] [] []]; vm_compute; congruence. Qed.

Lemma encoded_no_question c : encoded_char c = true -> negb (ascii_eqb c "?") = true.
Proof. destruct c as [[] [] [] [] [] [] [] []]; vm_compute; congruence. Qed.

Lemma encode_segment_value v : v ≠ "" -> segment_value (encodeURIComponent v) = true.
Proof.
  intros Hv. unfold segment_value. apply andb_true_iff. split.
  - apply (all_chars_impl encoded_char); [apply encoded_non_slash | apply encode_chars].
  - destruct v as [|c v]; [contradiction|]. cbn [encodeURIComponent].
    pose proof (encode_char_nonempty c) as H.
    destruct (encode_char c); [contradiction | reflexivity].
Qed.

Lemma encode_no_query v : no_query (encodeURIComponent v) = true.
Proof.
  apply (all_chars_impl encoded_char); [apply encoded_no_question | apply encode_chars].
Qed.

Lemma fits_encoded segs :
  forall values,
    required_only segs = true ->
    length values = length (segment_names segs) ->
    Forall (fun v => v ≠ "") values ->
    fits segs (map (fun v => Some (encodeURIComponent v)) values) = true.
Proof.
  induction segs as [|sg segs IH]; intros values Hreq Hlen Hv.
  - destruct values; [reflexivity | discriminate].
  - cbn [required_only forallb] in Hreq. apply andb_true_iff in Hreq as [Hsg Hreq].
    rewrite segment_names_cons in Hlen.
    destruct sg as [text|name|name]; [| |discriminate]; cbn [segment_name] in Hlen.
    + cbn [fits]. apply IH; assumption.
    + destruct values as [|v values]; [discriminate|].
      apply Forall_cons in Hv as [Hne Hv]. cbn [map fits].
      rewrite (encode_segment_value _ Hne). apply IH; try assumption.
      simpl in Hlen. lia.
Qed.

Lemma no_query_fill_encoded segs :
  forall values,
    required_only segs = true ->
    no_query (template_of segs) = true ->
    no_query (fill segs (map (fun v => Some (encodeURIComponent v)) values)) = true.
Proof.
  induction segs as [|sg segs IH]; intros values Hreq Hq; [reflexivity|].
  cbn [required_only forallb] in Hreq. apply andb_true_iff in Hreq as [Hsg Hreq].
  rewrite template_of_cons, no_query_app in Hq. apply andb_true_iff in Hq as [Ht Hq].
  destruct sg as [text|name|name]; [| |discriminate].
  - rewrite fill_literal, <- sapp_assoc, no_query_app. cbn [segment_text] in Ht.
    rewrite Ht. apply IH; assumption.
  - destruct values as [|v values]; [apply (IH []); assumption|].
    cbn [map]. rewrite fill_required. rewrite !no_query_app.
    rewrite encode_no_query, (IH values) by assumption. reflexivity.
Qed.

(** X10.  Values of any characters round-trip through [encodeURIComponent] and
    [parse]: for a template of literal segments and required parameters
    with distinct names, [parse] of the path made of the encoded values
    returns the page of the route with each parameter mapped to its value. *)
Theorem parse_encoded_values name segs values o st :
  all_ok segs = true ->
  required_only segs = true ->
  no_query (template_of segs) = true ->
  length values = length (segment_names segs) ->
  Forall (fun v => v ≠ "") values ->
  NoDup (segment_names segs) ->
  "__proto__" ∉ segment_names segs ->
  prev st ≠ Some (normalize_path (opt_search o)
                    (fill segs (map (fun v => Some (encodeURIComponent v)) values))) ->
  exists router,
    createRouter [(name, Template (template_of segs))] o = Ok router
    /\ (parse router (fill segs (map (fun v => Some (encodeURIComponent v)) values)) st).1
       = Ok (Parsed (Some
               {| path := normalize_path (opt_search o)
                            (fill segs (map (fun v => Some (encodeURIComponent v)) values));
                  route := name;
                  params := list_to_map (zip (segment_names segs) values) |})).
Proof.
  intros Hok Hreq Hq Hlen Hv Hnd Hp Hprev.
  eexists. split; [apply createRouter_template, Hok|].
  pose proof (fits_encoded _ _ Hreq Hlen Hv) as Hfit.
  pose proof (normalize_path_fill (opt_search o) _ _ Hok Hreq Hfit
                (no_query_fill_encoded _ values Hreq Hq)) as Hn.
  rewrite Hn in *. rewrite <- (norm_names segs).
  apply parse_template.
  - rewrite norm_fits by exact Hreq. exact Hfit.
  - exact Hn.
  - rewrite map_map. cbn [captured default]. clear.
    induction values as [|v values IH]; constructor; [apply decode_encode | exact IH].
  - rewrite norm_names. exact Hnd.
  - rewrite norm_names. exact Hp.
  - exact Hprev.
Qed.

Lemma parse_encoded_values_witness :
  all_ok [SLit "files"; SReq "dir"; SReq "name"] = true
  /\ required_only [SLit "files"; SReq "dir"; SReq "name"] = true
  /\ no_query (template_of [SLit "files"; SReq "dir"; SReq "name"]) = true
  /\ Forall (fun v => v ≠ "") ["a/b"; "50% off?"]
  /\ NoDup (segment_names [SLit "files"; SReq "dir"; SReq "name"])
  /\ ("__proto__" ∉ segment_names [SLit "files"; SReq "dir"; SReq "name"])
  /\ exists router,
       createRouter [("file", Template "/files/:dir/:name")] default_options = Ok router
       /\ (parse router "/files/a%2Fb/50%25%20off%3F" initial).1
          = Ok (Parsed (Some {| path := "/files/a%2Fb/50%25%20off%3F"; route := "file";
                                params := {[ "dir" := "a/b"; "name" := "50% off?" ]} |})).
Proof.
  assert (Forall (fun v => v ≠ "") ["a/b"; "50% off?"]) as Hv
    by (repeat constructor; discriminate).
  assert (NoDup (segment_names [SLit "files"; SReq "dir"; SReq "name"])) as Hnd
    by (apply (bool_decide_unpack _); vm_compute; reflexivity).
  assert ("__proto__" ∉ segment_names [SLit "files"; SReq "dir"; SReq "name"]) as Hp
    by (apply (bool_decide_unpack _); vm_compute; reflexivity).
  assert (prev initial
          ≠ Some (normalize_path (opt_search default_options)
                    (fill [SLit "files"; SReq "dir"; SReq "name"]
                       (map (fun v => Some (encodeURIComponent v))
                            ["a/b"; "50% off?"])))) as Hprev
    by discriminate.
  split; [reflexivity|]. split; [reflexivity|]. split; [reflexivity|].
  split; [exact Hv|]. split; [exact Hnd|]. split; [exact Hp|].
  destruct (parse_encoded_values "file" [SLit "files"; SReq "dir"; SReq "name"]
              ["a/b"; "50% off?"] default_options initial
              eq_refl eq_refl eq_refl eq_refl Hv Hnd Hp Hprev)
    as (router & Hc & Hparse).
  exists router. split; [exact Hc|].
  refine (eq_trans Hparse _). vm_compute. reflexivity.
Defined.

(** ** The paths that the pattern of a template accepts *)

Section RequiredAt.
Variable inp : string.
Variable g : nat.
Variable tail : regex.

(** The group of a required parameter takes a run without slash that is
    not empty, and the pattern goes on after it. *)
Lemma group_plus_inv x cs k z :
  rmatch true inp (Seq (Group g (Seq (Plus not_slash) Empty)) tail) x cs k = Some z ->
  exists v s',
    x = v +:+ s' /\ segment_value v = true
    /\ rmatch true inp tail s' (<[g := Some v]> cs) k = Some z.
Proof.
  rewrite rm_seq, rm_group, rm_seq. unfold not_slash.
  destruct x as [|c x]; [rewrite rm_plus_class_stop by reflexivity; discriminate|].
  destruct (non_slash c) eqn:Hc.
  - destruct (span_non_slash x) as (run & rest & -> & Hrun & Hr).
    rewrite rm_plus_class;
      [| rewrite in_class_not_slash; exact Hc
       | apply non_slash_run, Hrun
       | apply boundary_stops_run, Hr].
    intros (v1 & v2 & -> & Hk)%backtrack_inv.
    rewrite rm_empty in Hk. rewrite sapp_assoc in *.
    change (String c (v1 +:+ v2 +:+ rest)) with (String c v1 +:+ v2 +:+ rest) in Hk.
    rewrite slength_app_minus, str_take_app in Hk.
    rewrite all_chars_app in Hrun. apply andb_true_iff in Hrun as [H1 _].
    exists (String c v1), (v2 +:+ rest). repeat split; [|exact Hk].
    change (non_slash c && all_chars non_slash v1
            && negb (String.eqb (String c v1) "") = true).
    rewrite Hc, H1. reflexivity.
  - rewrite rm_plus_class_stop; [discriminate|].
    cbn [stops]. rewrite in_class_not_slash, Hc. reflexivity.
Qed.

Lemma group_plus_some v s' cs k :
  segment_value v = true ->
  is_Some (rmatch true inp tail s' (<[g := Some v]> cs) k) ->
  is_Some (rmatch true inp (Seq (Group g (Seq (Plus not_slash) Empty)) tail)
             (v +:+ s') cs k).
Proof.
  unfold segment_value. intros [Hv Hne]%andb_true_iff Hk.
  destruct v as [|c v]; [discriminate|]. clear Hne.
  change (non_slash c && all_chars non_slash v = true) in Hv.
  apply andb_true_iff in Hv as [Hc Hv].
  destruct (span_non_slash s') as (run & rest & -> & Hrun & Hr).
  rewrite rm_seq, rm_group, rm_seq. unfold not_slash. str. rewrite <- sapp_assoc.
  rewrite rm_plus_class;
    [| rewrite in_class_not_slash; exact Hc
     | apply non_slash_run; rewrite all_chars_app, Hv, Hrun; reflexivity
     | apply boundary_stops_run, Hr].
  apply backtrack_some. rewrite rm_empty, sapp_assoc.
  change (String c (v +:+ run +:+ rest)) with (String c v +:+ run +:+ rest).
  rewrite slength_app_minus, str_take_app. exact Hk.
Qed.
End RequiredAt.

Lemma optional_text name slash v :
  slash = "" \/ slash = "/" ->
  all_chars non_slash v = true ->
  accepts (SOpt name) (slash +:+ v) = true
  /\ capture_of (SOpt name) (slash +:+ v) = Some v.
Proof.
  intros [->| ->] Hv; str; cbn [accepts capture_of ascii_eqb]; [|auto].
  destruct v as [|c v]; [auto|]. pose proof Hv as Hv'. cbn [all_chars] in Hv'.
  apply andb_true_iff in Hv' as [Hc _]. unfold non_slash in Hc.
  apply negb_true_iff in Hc. rewrite Hc. auto.
Qed.

Lemma optional_text_inv name x :
  accepts (SOpt name) x = true ->
  exists slash v, x = slash +:+ v /\ (slash = "" \/ slash = "/")
                  /\ all_chars non_slash v = true
                  /\ capture_of (SOpt name) x = Some v.
Proof.
  cbn [accepts capture_of]. destruct x as [|c x]; [exists "", ""; auto|].
  destruct (ascii_eqb c "/") eqn:E; intros H.
  - apply ascii_eqb_eq in E as ->. exists "/", x. auto.
  - exists "", (String c x). auto.
Qed.

Section Language.
Variable inp : string.
Variable tail : regex.

Lemma segs_re_inv segs :
  forall g s cs k z,
    rmatch true inp (segs_re segs g tail) s cs k = Some z ->
    exists texts s',
      s = str_concat texts +:+ s'
      /\ Forall2 (fun sg x => accepts sg x = true) segs texts
      /\ rmatch true inp tail s' (set_groups g (captured_texts segs texts) cs) k = Some z.
Proof.
  induction segs as [|sg segs IH]; intros g s cs k z H.
  - exists [], s. repeat split; [constructor | exact H].
  - destruct sg as [text|name|name]; cbn [segs_re] in H.
    + rewrite rm_seq in H. destruct s as [|a s]; [discriminate|].
      rewrite rm_chr, slash_canonical in H.
      destruct (ascii_eqb "/" a) eqn:E; [|discriminate].
      apply ascii_eqb_eq in E as <-.
      apply lits_inv in H as (pre & s1 & -> & Hsame & H).
      apply IH in H as (texts & s' & -> & Hacc & H).
      exists (String "/" pre :: texts), s'. cbn [str_concat]. str.
      rewrite sapp_assoc. repeat split; [|exact H].
      constructor; [|exact Hacc]. cbn [accepts]. str. cbn [same_text].
      rewrite chr_eq_refl. exact Hsame.
    + rewrite rm_seq in H. destruct s as [|a s]; [discriminate|].
      rewrite rm_chr, slash_canonical in H.
      destruct (ascii_eqb "/" a) eqn:E; [|discriminate].
      apply ascii_eqb_eq in E as <-.
      apply group_plus_inv in H as (v & s1 & -> & Hv & H).
      apply IH in H as (texts & s' & -> & Hacc & H).
      exists (String "/" v :: texts), s'. cbn [str_concat]. str.
      rewrite sapp_assoc. repeat split; [|exact H].
      constructor; [|exact Hacc]. cbn [accepts ascii_eqb]. exact Hv.
    + fold (optional_at g (segs_re segs (S g) tail)) in H.
      apply optional_at_inv in H as (slash & v & s1 & -> & Hslash & Hv & H).
      apply IH in H as (texts & s' & -> & Hacc & H).
      destruct (optional_text name slash v Hslash Hv) as [Ha Hc].
      exists ((slash +:+ v) :: texts), s'. cbn [str_concat captured_texts].
      rewrite Hc, !sapp_assoc. repeat split; [|exact H].
      constructor; [exact Ha | exact Hacc].
Qed.

Lemma segs_re_some segs :
  forall g texts s' cs k,
    Forall2 (fun sg x => accepts sg x = true) segs texts ->
    is_Some (rmatch true inp tail s' (set_groups g (captured_texts segs texts) cs) k) ->
    is_Some (rmatch true inp (segs_re segs g tail) (str_concat texts +:+ s') cs k).
Proof.
  induction segs as [|sg segs IH]; intros g texts s' cs k Hacc H.
  - inversion Hacc; subst. exact H.
  - inversion Hacc as [|? x ? texts' Hx Hrest]; subst.
    cbn [str_concat]. rewrite sapp_assoc.
    destruct sg as [text|name|name]; cbn [segs_re captured_texts capture_of] in *.
    + cbn [accepts] in Hx. str. destruct x as [|a x]; [discriminate|].
      cbn [same_text] in Hx. apply andb_true_iff in Hx as [Ha Hx]. str.
      rewrite rm_seq, rm_chr, Ha, lits_match by exact Hx.
      apply IH; assumption.
    + cbn [accepts] in Hx. destruct x as [|a x]; [discriminate|].
      apply andb_true_iff in Hx as [Ha Hx]. apply ascii_eqb_eq in Ha as ->.
      cbn [str_drop set_groups] in H. str. rewrite rm_seq, rm_chr_same.
      apply group_plus_some; [exact Hx|]. apply IH; assumption.
    + apply optional_text_inv in Hx as (slash & v & -> & Hslash & Hv & Hc).
      cbn [capture_of] in Hc. injection Hc as Hc. rewrite Hc in H.
      cbn [set_groups] in H.
      fold (optional_at g (segs_re segs (S g) tail)). rewrite sapp_assoc.
      apply optional_at_some; [assumption..|]. apply IH; assumption.
Qed.
End Language.

Lemma captured_length segs texts :
  Forall2 (fun sg x => accepts sg x = true) segs texts ->
  length (captured_texts segs texts) = length (segment_names segs).
Proof.
  induction 1 as [|sg x segs texts _ _ IH]; [reflexivity|].
  rewrite segment_names_cons. destruct sg; cbn [captured_texts capture_of segment_name];
    simpl; rewrite ?IH; reflexivity.
Qed.

Lemma match_at_segments segs path :
  match_at (template_regex segs) path path
  = rmatch true path (segs_re segs 0 (Seq AssertEnd Empty)) path
      (replicate (length (segment_names segs)) None) final.
Proof.
  unfold match_at. rewrite ngroups_segments. unfold template_regex.
  cbn [re_source re_ignoreCase]. rewrite rm_seq. cbn [rmatch].
  rewrite Nat.eqb_refl. reflexivity.
Qed.

Lemma end_inv inp s cs z :
  rmatch true inp (Seq AssertEnd Empty) s cs final = Some z -> s = "" /\ z = ("", cs).
Proof.
  rewrite rm_seq. destruct s; [|discriminate].
  rewrite rm_end_nil, rm_empty. unfold final. intros [= <-]. auto.
Qed.

Lemma fresh_groups vs :
  set_groups 0 vs (replicate (length vs) None) = map Some vs.
Proof. exact (set_groups_fresh vs []). Qed.

Lemma template_regex_sound segs path groups :
  match_groups (template_regex segs) path = Some groups ->
  exists texts,
    path = str_concat texts
    /\ Forall2 (fun sg x => accepts sg x = true) segs texts
    /\ groups = map Some (captured_texts segs texts).
Proof.
  unfold template_regex at 1. rewrite match_groups_anchored.
  change {| re_source := _; re_ignoreCase := true |} with (template_regex segs).
  rewrite match_at_segments. intros H.
  destruct (rmatch _ _ _ _ _ _) as [z|] eqn:E; [|discriminate].
  injection H as <-.
  apply segs_re_inv in E as (texts & s' & -> & Hacc & E).
  apply end_inv in E as [-> ->]. exists texts. rewrite sapp_nil_r.
  repeat split; [exact Hacc|]. cbn [snd].
  rewrite <- (captured_length _ _ Hacc). apply fresh_groups.
Qed.

Lemma template_regex_complete segs texts :
  Forall2 (fun sg x => accepts sg x = true) segs texts ->
  is_Some (match_groups (template_regex segs) (str_concat texts)).
Proof.
  intros Hacc. unfold template_regex at 1. rewrite match_groups_anchored.
  change {| re_source := _; re_ignoreCase := true |} with (template_regex segs).
  rewrite match_at_segments.
  destruct (segs_re_some (str_concat texts) (Seq AssertEnd Empty) segs 0
              texts "" (replicate (length (segment_names segs)) None) final
              Hacc) as [z Hz]; [eauto|].
  rewrite sapp_nil_r in Hz. rewrite Hz. eauto.
Qed.

(** X11.  The pattern that [createRouter] makes of a template of segments
    accepts a path exactly when the path is a sequence of texts that the
    segments accept in order: the literal text whatever the case, a slash
    and a value without slash that is not empty for a required parameter,
    a value without slash after a slash or without it for an optional one.
    The groups of a match are the values of such a sequence. *)
Theorem template_language name segs :
  all_ok segs = true ->
  exists r,
    make_route name (Template (template_of segs)) = Ok r
    /\ (forall path groups,
          match_groups (r_pattern r) path = Some groups ->
          exists texts,
            path = str_concat texts
            /\ Forall2 (fun sg x => accepts sg x = true) (norm segs) texts
            /\ groups = map Some (captured_texts (norm segs) texts))
    /\ (forall texts,
          Forall2 (fun sg x => accepts sg x = true) (norm segs) texts ->
          is_Some (match_groups (r_pattern r) (str_concat texts))).
Proof.
  intros Hok. eexists. split; [apply make_route_template, Hok|].
  cbn [template_route r_pattern]. split.
  - intros path groups. apply template_regex_sound.
  - apply template_regex_complete.
Qed.

Lemma template_language_witness :
  all_ok post_segments = true
  /\ exists r,
       make_route "post" (Template "/posts/:categoryId/:id") = Ok r
       /\ is_Some (match_groups (r_pattern r) "/POSTS/guides/10")
       /\ forall path groups,
            match_groups (r_pattern r) path = Some groups ->
            exists texts,
              path = str_concat texts
              /\ Forall2 (fun sg x => accepts sg x = true) post_segments texts
              /\ groups = map Some (captured_texts post_segments texts).
Proof.
  split; [reflexivity|].
  destruct (template_language "post" post_segments eq_refl) as (r & Hr & Hsound & Hcomplete).
  exists r. split; [exact Hr|]. split; [|exact Hsound].
  apply (Hcomplete ["/POSTS"; "/guides"; "/10"]). repeat constructor.
Defined.

(** ** The page of [parse] and the table of the routes *)

Lemma find_page_origin rs p result :
  find_page rs p = Ok result -> origin rs p result.
Proof.
  revert result. induction rs as [|r rs IH]; intros result; cbn [find_page].
  - intros [= <-]. constructor.
  - destruct (match_groups (r_pattern r) p) as [groups|] eqn:E.
    + destruct (r_cb r groups) as [ps|e] eqn:Hcb; [|discriminate].
      rewrite bind_ok. intros [= <-]. split; [reflexivity|].
      exists [], r, rs, groups. repeat split; [constructor | exact E | exact Hcb].
    + intros H. specialize (IH _ H). destruct result as [page|].
      * destruct IH as (Hp & before & r' & after & groups & -> & Hb & Hm & Hcb & Hn).
        split; [exact Hp|]. exists (r :: before), r', after, groups.
        repeat split; try assumption. constructor; assumption.
      * constructor; assumption.
Qed.

(** X12.  A page returned by [parse] carries the normal form of the path, the
    name of the first entry of [router.routes] whose pattern accepts that
    normal form, and the params made by the decoder of that entry;
    [undefined] is returned only when no pattern of the table accepts the
    normal form. *)
Theorem parse_result_origin router p st result :
  (parse router p st).1 = Ok (Parsed result) ->
  origin (routes router) (normalize_path (opt_search (opts router)) p) result.
Proof.
  unfold parse. case_decide; [discriminate|]. cbn [fst].
  destruct (find_page _ _) as [res|e] eqn:E; [|discriminate].
  intros [= <-]. apply find_page_origin, E.
Qed.

Lemma parse_result_origin_witness :
  (parse (router_of overlap_config) "/x/" initial).1
  = Ok (Parsed (Some {| path := "/x"; route := "404"; params := {[ "y" := "x" ]} |}))
  /\ origin (routes (router_of overlap_config))
       (normalize_path (opt_search (opts (router_of overlap_config))) "/x/")
       (Some {| path := "/x"; route := "404"; params := {[ "y" := "x" ]} |}).
Proof.
  assert ((parse (router_of overlap_config) "/x/" initial).1
          = Ok (Parsed (Some {| path := "/x"; route := "404";
                                params := {[ "y" := "x" ]} |}))) as H
    by (vm_compute; reflexivity).
  split; [exact H|]. exact (parse_result_origin _ _ _ _ H).
Defined.

(** ** The keys of the params of a template route *)

Lemma decode_matches_inv ws :
  forall names i acc ps,
    decode_matches names i (map Some ws) acc = Ok ps ->
    exists ds, Forall2 decodes ws ds.
Proof.
  induction ws as [|w ws IH]; intros names i acc ps H; [exists []; constructor|].
  cbn [map decode_matches] in H. change (to_string (Some w)) with w in H.
  destruct (decodeURIComponent w) as [d|e] eqn:E; [|discriminate].
  rewrite bind_ok in H. apply IH in H as [ds Hds].
  exists (d :: ds). constructor; assumption.
Qed.

Lemma assign_keys names :
  forall values acc k,
    length values = length names ->
    is_Some (assign acc names values !! k)
    <-> is_Some (acc !! k) \/ (k ∈ names /\ k ≠ "__proto__").
Proof.
  induction names as [|n names IH]; intros values acc k Hlen.
  - destruct values; [|discriminate]. cbn [assign]. split; [auto|].
    intros [H|[H _]]; [exact H | inversion H].
  - destruct values as [|v values]; [discriminate|]. cbn [assign].
    rewrite IH by (simpl in Hlen; lia). unfold obj_set.
    destruct (decide (n = "__proto__")) as [->|Hn].
    + split; intros [H|[H1 H2]]; auto.
      * right. split; [apply elem_of_cons; auto | exact H2].
      * apply elem_of_cons in H1 as [H1|H1]; [contradiction | auto].
    + rewrite lookup_insert_is_Some'. split.
      * intros [[->|H]|[H1 H2]]; auto.
        -- right. split; [apply elem_of_cons; auto | exact Hn].
        -- right. split; [apply elem_of_cons; auto | exact H2].
      * intros [H|[H1 H2]]; auto.
        apply elem_of_cons in H1 as [->|H1]; auto.
Qed.

Lemma template_params segs p groups ps :
  match_groups (template_regex segs) p = Some groups ->
  decode_matches (segment_names segs) 0 groups ∅ = Ok ps ->
  exists texts ds,
    p = str_concat texts
    /\ Forall2 (fun sg x => accepts sg x = true) segs texts
    /\ Forall2 decodes (captured_texts segs texts) ds
    /\ ps = assign ∅ (segment_names segs) ds.
Proof.
  intros (texts & -> & Hacc & ->)%template_regex_sound Hd.
  pose proof (captured_length _ _ Hacc) as Hlen.
  destruct (decode_matches_inv _ _ _ _ _ Hd) as [ds Hds].
  exists texts, ds. repeat split; try assumption.
  pose proof (decode_matches_assign _ ds [] (segment_names segs) ∅ Hds Hlen) as H.
  cbn [app length] in H. rewrite H in Hd. injection Hd as <-. reflexivity.
Qed.

(** X13.  The params of a page of a template route have the names of the
    parameters of the template as their keys, those of the optional
    parameters included, and no other key; a parameter named [__proto__]
    is no key. *)
Theorem params_keys name segs :
  all_ok segs = true ->
  exists r,
    make_route name (Template (template_of segs)) = Ok r
    /\ forall p groups ps,
         match_groups (r_pattern r) p = Some groups ->
         r_cb r groups = Ok ps ->
         forall k, is_Some (ps !! k) <-> k ∈ segment_names segs /\ k ≠ "__proto__".
Proof.
  intros Hok. eexists. split; [apply make_route_template, Hok|].
  cbn [template_route r_pattern r_cb]. intros p groups ps Hm Hd k.
  destruct (template_params _ _ _ _ Hm Hd) as (texts & ds & _ & Hacc & Hds & ->).
  rewrite assign_keys.
  - rewrite norm_names, lookup_empty. split; [intros [[? H]|H]; [discriminate | exact H] | auto].
  - rewrite <- (Forall2_length _ _ _ Hds). apply captured_length, Hacc.
Qed.

Lemma params_keys_witness :
  all_ok tag_segments = true
  /\ exists r,
       make_route "posts" (Template "/posts/:tag?") = Ok r
       /\ match_groups (r_pattern r) "/posts" = Some [Some ""]
       /\ r_cb r [Some ""] = Ok {[ "tag" := "" ]}
       /\ forall k, is_Some (({[ "tag" := "" ]} : ParamObject) !! k)
                    <-> k ∈ segment_names tag_segments /\ k ≠ "__proto__".
Proof.
  split; [reflexivity|].
  destruct (params_keys "posts" tag_segments eq_refl) as (r & Hr & Hkeys).
  pose proof Hr as Hr'. rewrite (make_route_template "posts" tag_segments eq_refl) in Hr'.
  injection Hr' as <-.
  assert (match_groups (r_pattern (template_route "posts" (norm tag_segments))) "/posts"
          = Some [Some ""]) as Hm by (vm_compute; reflexivity).
  assert (r_cb (template_route "posts" (norm tag_segments)) [Some ""]
          = Ok {[ "tag" := "" ]}) as Hd by (vm_compute; reflexivity).
  eexists. split; [exact Hr|]. split; [exact Hm|]. split; [exact Hd|].
  exact (Hkeys _ _ _ Hm Hd).
Defined.

(** ** The key of an optional parameter *)

Lemma captured_texts_app pre before rest after :
  Forall2 (fun sg x => accepts sg x = true) pre before ->
  captured_texts (pre ++ rest) (before ++ after)
  = (captured_texts pre before ++ captured_texts rest after)%list.
Proof.
  induction 1 as [|sg x pre before _ _ IH]; [reflexivity|].
  cbn [app captured_texts]. rewrite IH. destruct (capture_of sg x); reflexivity.
Qed.

Lemma assign_lookup_later names :
  forall values acc k,
    k ∉ names -> assign acc names values !! k = acc !! k.
Proof.
  induction names as [|n names IH]; intros values acc k Hk; [reflexivity|].
  destruct values as [|v values]; [reflexivity|]. cbn [assign].
  apply not_elem_of_cons in Hk as [Hne Hk]. rewrite IH by exact Hk.
  unfold obj_set. destruct (decide (n = "__proto__")); [reflexivity|].
  apply lookup_insert_ne. congruence.
Qed.

Lemma decode_empty d : decodes "" d -> d = "".
Proof. unfold decodes. cbn. intros [= <-]. reflexivity. Qed.

(** C3 (as amended).  For a template with an optional parameter
    ['/:word?'] at any position, whose name is not [__proto__] and is not
    the name of a later parameter, the params of every page that [parse]
    returns hold the key [word], with the decoded text that the parameter
    captures: the key is never absent, and where the segment is omitted the
    captured text is empty and the value is the empty string.  So for
    ['/posts/:tag?'], [parse('/posts')] gives the params [{ tag: '' }]. *)
Theorem optional_parameter_key name pre w post o :
  all_ok (pre ++ SOpt w :: post) = true ->
  w ≠ "__proto__" ->
  w ∉ segment_names post ->
  exists router,
    createRouter [(name, Template (template_of (pre ++ SOpt w :: post)))] o = Ok router
    /\ forall p st page,
         (parse router p st).1 = Ok (Parsed (Some page)) ->
         exists before x after v d,
           path page = str_concat before +:+ x +:+ str_concat after
           /\ Forall2 (fun sg t => accepts sg t = true) pre before
           /\ accepts (SOpt w) x = true
           /\ Forall2 (fun sg t => accepts sg t = true) (trim post) after
           /\ capture_of (SOpt w) x = Some v
           /\ decodes v d
           /\ params page !! w = Some d
           /\ (x = "" -> v = "")
           /\ (v = "" -> params page !! w = Some "").
Proof.
  intros Hok Hw Hlater. eexists. split; [apply createRouter_template, Hok|].
  rewrite norm_optional. intros p st page Hparse.
  unfold parse in Hparse. case_decide; [discriminate|].
  cbn [fst opts routes find_page template_route r_pattern r_cb r_name] in Hparse.
  destruct (match_groups _ _) as [groups|] eqn:Hm; [|discriminate].
  destruct (decode_matches _ _ _ _) as [ps|e] eqn:Hd; [|discriminate].
  cbn in Hparse. injection Hparse as <-. cbn [path params].
  destruct (template_params _ _ _ _ Hm Hd) as (texts & ds & Hpath & Hacc & Hds & ->).
  apply Forall2_app_inv_l in Hacc as (before & rest & Hpre & Hrest & ->).
  apply Forall2_cons_inv_l in Hrest as (x & after & Hx & Hpost & ->).
  rewrite (captured_texts_app _ _ _ _ Hpre) in Hds.
  destruct (optional_text_inv _ _ Hx) as (slash & v & Hxv & Hslash & Hv & Hcap).
  cbn [captured_texts] in Hds. rewrite Hcap in Hds.
  apply Forall2_app_inv_l in Hds as (ds1 & ds2 & Hds1 & Hds2 & ->).
  apply Forall2_cons_inv_l in Hds2 as (d & ds3 & Hvd & Hds3 & ->).
  assert (assign ∅ (segment_names (pre ++ SOpt w :: trim post)) (ds1 ++ d :: ds3) !! w
          = Some d) as Hkey.
  { rewrite segment_names_app, segment_names_cons. cbn [segment_name].
    rewrite assign_app
      by (rewrite <- (Forall2_length _ _ _ Hds1); apply captured_length, Hpre).
    cbn [assign]. rewrite assign_lookup_later by (rewrite trim_names; exact Hlater).
    unfold obj_set. destruct (decide (w = "__proto__")); [contradiction|].
    apply lookup_insert_eq. }
  exists before, x, after, v, d. rewrite Hpath, str_concat_app. cbn [str_concat].
  repeat split; try assumption.
  - intros ->. cbn [capture_of] in Hcap. injection Hcap as <-. reflexivity.
  - intros ->. rewrite Hkey, (decode_empty _ Hvd). reflexivity.
Qed.

Lemma optional_parameter_key_witness :
  all_ok ([SLit "posts"] ++ SOpt "tag" :: []) = true
  /\ "tag" ≠ "__proto__"
  /\ ("tag" ∉ segment_names [])
  /\ exists router,
       createRouter tag_config default_options = Ok router
       /\ (parse router "/posts" initial).1
          = Ok (Parsed (Some {| path := "/posts"; route := "posts";
                                params := {[ "tag" := "" ]} |}))
       /\ (parse router "/posts/news" initial).1
          = Ok (Parsed (Some {| path := "/posts/news"; route := "posts";
                                params := {[ "tag" := "news" ]} |}))
       /\ exists before x after v d,
            "/posts" = str_concat before +:+ x +:+ str_concat after
            /\ Forall2 (fun sg t => accepts sg t = true) [SLit "posts"] before
            /\ accepts (SOpt "tag") x = true
            /\ Forall2 (fun sg t => accepts sg t = true) (trim []) after
            /\ capture_of (SOpt "tag") x = Some v
            /\ decodes v d
            /\ ({[ "tag" := "" ]} : ParamObject) !! "tag" = Some d
            /\ (x = "" -> v = "")
            /\ (v = "" -> ({[ "tag" := "" ]} : ParamObject) !! "tag" = Some "").
Proof.
  assert ("tag" ≠ "__proto__") as Hw by discriminate.
  assert ("tag" ∉ segment_names []) as Hlater by (intros H; inversion H).
  split; [reflexivity|]. split; [exact Hw|]. split; [exact Hlater|].
  destruct (optional_parameter_key "posts" [SLit "posts"] "tag" [] default_options
              eq_refl Hw Hlater) as (router & Hc & Hkey).
  assert ((parse router "/posts" initial).1
          = Ok (Parsed (Some {| path := "/posts"; route := "posts";
                                params := {[ "tag" := "" ]} |}))
          /\ (parse router "/posts/news" initial).1
             = Ok (Parsed (Some {| path := "/posts/news"; route := "posts";
                                   params := {[ "tag" := "news" ]} |}))) as [Hp Hn].
  { pose proof Hc as Hc'.
    rewrite (createRouter_template "posts" ([SLit "posts"] ++ [SOpt "tag"])
               default_options eq_refl) in Hc'.
    injection Hc' as <-. split; vm_compute; reflexivity. }
  exists router. split; [exact Hc|]. split; [exact Hp|]. split; [exact Hn|].
  exact (Hkey "/posts" initial _ Hp).
Defined.

(** ** Configurations that [createRouter] compiles *)

Lemma insert_index_elem n k l x :
  x ∈ map snd (insert_index n k l) <-> x = k \/ x ∈ map snd l.
Proof.
  induction l as [|[m k'] l IH]; cbn [insert_index map snd].
  - rewrite elem_of_cons. reflexivity.
  - destruct (n <? m)%N; cbn [map snd]; rewrite !elem_of_cons, ?IH; tauto.
Qed.

Lemma insert_index_length n k l : length (insert_index n k l) = S (length l).
Proof.
  induction l as [|[m k'] l IH]; [reflexivity|]. cbn [insert_index].
  destruct (n <? m)%N; cbn [length]; rewrite ?IH; reflexivity.
Qed.

Lemma object_keys_elem {A} (o : list (string * A)) k :
  k ∈ object_keys o -> k ∈ map fst o.
Proof.
  unfold object_keys. rewrite elem_of_app. intros [H|H].
  - induction (map fst o) as [|x keys IH]; [inversion H|].
    cbn [index_keys foldr] in H. fold (index_keys keys) in H.
    destruct (array_index x).
    + apply insert_index_elem in H as [->|H]; apply elem_of_cons; auto.
    + apply elem_of_cons. auto.
  - apply list_elem_of_filter in H as [_ H]. exact H.
Qed.

Lemma object_keys_length {A} (o : list (string * A)) :
  length (object_keys o) = length o.
Proof.
  unfold object_keys. rewrite length_app, length_map, <- (length_map fst o).
  induction (map fst o) as [|x keys IH]; [reflexivity|].
  cbn [index_keys foldr]. fold (index_keys keys). rewrite filter_cons.
  destruct (array_index x) as [n|].
  - rewrite insert_index_length. destruct (decide _); [discriminate|].
    simpl. rewrite IH. reflexivity.
  - destruct (decide _); [|contradiction]. simpl. rewrite <- IH. lia.
Qed.

Lemma object_get_some {A} (o : list (string * A)) k :
  k ∈ map fst o -> exists v, object_get o k = Some v /\ (k, v) ∈ o.
Proof.
  induction o as [|[k' v] o IH]; cbn [map fst object_get]; [inversion 1|].
  intros H. destruct (String.eqb_spec k' k) as [->|Hne].
  - exists v. split; [reflexivity | apply elem_of_cons; auto].
  - apply elem_of_cons in H as [H|H]; [congruence|].
    destruct (IH H) as (x & Hx & Hin). exists x. split; [exact Hx|].
    apply elem_of_cons. auto.
Qed.

Lemma object_get_in {A} (o : list (string * A)) k v :
  NoDup (map fst o) -> (k, v) ∈ o -> object_get o k = Some v.
Proof.
  induction o as [|[k' v'] o IH]; [inversion 2|]. cbn [map fst object_get].
  intros [Hk Hnd]%NoDup_cons [H|H]%elem_of_cons.
  - injection H as -> ->. rewrite String.eqb_refl. reflexivity.
  - destruct (String.eqb_spec k' k) as [->|_]; [|apply IH; assumption].
    exfalso. apply Hk. apply list_elem_of_fmap. exists (k, v). auto.
Qed.

Lemma make_route_well_formed name v :
  well_formed v -> exists r, make_route name v = Ok r.
Proof.
  destruct v as [t|re cb]; cbn [well_formed].
  - intros (segs & Hok & ->). eexists. apply make_route_template, Hok.
  - intros _. eexists. reflexivity.
Qed.

Lemma map_outcome_some {A B} (f : A -> outcome B) l :
  Forall (fun x => exists y, f x = Ok y) l -> exists ys, map_outcome f l = Ok ys.
Proof.
  induction 1 as [|x l [y Hy] _ [ys IH]]; [eexists; reflexivity|].
  exists (y :: ys). cbn [map_outcome]. rewrite Hy, bind_ok, IH. reflexivity.
Qed.

(** X14.  [createRouter] returns a router for every configuration whose
    templates are templates of well-formed segments: no pattern that it
    builds from them is refused by [RegExp].  The router has one entry for
    each entry of the configuration, under its name and in the order of
    [Object.keys]. *)
Theorem createRouter_well_formed config o :
  Forall (fun entry => well_formed entry.2) config ->
  exists router,
    createRouter config o = Ok router
    /\ map r_name (routes router) = object_keys config
    /\ length (routes router) = length config
    /\ opts router = o.
Proof.
  intros Hconfig. unfold createRouter.
  destruct (make_routes config) as [rs|e] eqn:E.
  - exists {| routes := rs; opts := o |}. cbn [routes opts].
    pose proof (make_routes_names _ _ E) as Hn. repeat split; [exact Hn|].
    rewrite <- (length_map r_name), Hn. apply object_keys_length.
  - exfalso. unfold make_routes in E.
    destruct (map_outcome_some
                (fun name => match object_get config name with
                             | Some value => make_route name value
                             | None => Throw TypeError
                             end) (object_keys config)) as [ys Hys];
      [|rewrite Hys in E; discriminate].
    apply Forall_forall. intros k Hk.
    destruct (object_get_some _ _ (object_keys_elem _ _ Hk)) as (v & -> & Hin).
    apply make_route_well_formed.
    rewrite Forall_forall in Hconfig. exact (Hconfig _ Hin).
Qed.

Lemma createRouter_well_formed_witness :
  Forall (fun entry => well_formed entry.2) blog_config
  /\ exists router,
       createRouter blog_config default_options = Ok router
       /\ map r_name (routes router) = ["home"; "category"; "post"]
       /\ length (routes router) = 3.
Proof.
  assert (Forall (fun entry => well_formed entry.2) blog_config) as H.
  { repeat constructor; cbn [snd well_formed].
    - exists [SLit ""]. split; reflexivity.
    - exists [SLit "posts"; SReq "categoryId"]. split; reflexivity.
    - exists post_segments. split; reflexivity. }
  split; [exact H|].
  destruct (createRouter_well_formed blog_config default_options H)
    as (router & Hr & Hn & Hl & _).
  exists router. split; [exact Hr|]. split; [|exact Hl].
  rewrite Hn. vm_compute. reflexivity.
Defined.

(** ** Templates with a slash at the end *)



(** ** The error of [getPagePath] *)

Lemma make_route_template_truthy name v r :
  make_route name v = Ok r -> r_template r ≠ Some "".
Proof.
  destruct v as [t|re cb]; cbn [make_route].
  - destruct (RegExp_new _ _); cbn [mbind outcome_bind]; [|discriminate].
    intros [= <-]. cbn [r_template]. unfold normalize_template.
    destruct (replace_all _ _ t); discriminate.
  - intros [= <-]. discriminate.
Qed.

Lemma make_routes_template_truthy config rs :
  make_routes config = Ok rs -> Forall (fun r => r_template r ≠ Some "") rs.
Proof.
  unfold make_routes. generalize (object_keys config) as keys.
  intros keys. revert rs. induction keys as [|k keys IH]; intros rs Hrs; simpl in Hrs.
  - injection Hrs as <-. constructor.
  - destruct (object_get config k) as [v|]; [|discriminate].
    destruct (make_route k v) as [r|] eqn:Hr; [|discriminate]. simpl in Hrs.
    destruct (map_outcome _ keys) as [rs'|]; [|discriminate].
    simpl in Hrs. injection Hrs as <-.
    constructor; [exact (make_route_template_truthy _ _ _ Hr) | apply IH; reflexivity].
Qed.

Lemma map_outcome_throw {A B} (f : A -> outcome B) l e :
  map_outcome f l = Throw e -> exists x, x ∈ l /\ f x = Throw e.
Proof.
  induction l as [|x l IH]; [discriminate|]. cbn [map_outcome].
  destruct (f x) as [y|e'] eqn:E.
  - rewrite bind_ok. destruct (map_outcome f l) as [ys|e'']; [discriminate|].
    intros [= <-]. destruct (IH eq_refl) as (x' & Hin & Hx').
    exists x'. split; [apply elem_of_cons; auto | exact Hx'].
  - intros [= <-]. exists x. split; [apply elem_of_cons; auto | exact E].
Qed.

Lemma replace_all_with_throw re f s e :
  replace_all_with re f s = Throw e -> exists i, f i = Throw e.
Proof.
  unfold replace_all_with.
  destruct (map_outcome _ (pieces re s)) as [l|e'] eqn:E; [discriminate|].
  intros [= <-]. apply map_outcome_throw in E as ([c|text] & _ & H);
    [discriminate | eauto].
Qed.

Lemma js_to_string_throw v e : js_to_string v = Throw e -> e = TypeError.
Proof.
  destruct v as [| |o|name]; cbn [js_to_string]; try discriminate.
  - destruct (o !! "toString"); [intros [= <-]; reflexivity | discriminate].
  - repeat (destruct (String.eqb _ _); try discriminate).
Qed.

(** X16.  In a router made by [createRouter], and outside production,
    [getPagePath] throws the error ['RegExp routes are not supported']
    exactly when the first route of the name has no template or the name
    is unknown: a template kept by [createRouter] is never empty. *)
Theorem getPagePath_error config o router env name ps :
  createRouter config o = Ok router ->
  NODE_ENV env ≠ Some "production" ->
  getPagePath env router name ps = Throw (Error "RegExp routes are not supported")
  <-> (find_route router name ≫= r_template) = None.
Proof.
  intros Hc Henv. split.
  - intros H. destruct (find_route router name ≫= r_template) as [t|] eqn:Ht;
      [exfalso | reflexivity].
    assert (t ≠ "") as Hne.
    { unfold createRouter in Hc.
      destruct (make_routes config) as [rs|] eqn:Hrs; [|discriminate].
      injection Hc as <-. unfold find_route in Ht. cbn [routes] in Ht.
      destruct (List.find _ rs) as [r|] eqn:Hf; [|discriminate].
      apply find_some in Hf as [Hin _]. apply list_elem_of_In in Hin.
      pose proof (make_routes_template_truthy _ _ Hrs) as Hall.
      rewrite Forall_forall in Hall. specialize (Hall _ Hin).
      cbn [mbind option_bind] in Ht. congruence. }
    unfold getPagePath in H. rewrite Ht in H.
    destruct (decide (NODE_ENV env = Some "production")); [contradiction|].
    replace (str_truthy (Some t)) with true in H by (destruct t; [contradiction | reflexivity]).
    rewrite bind_ok in H.
    destruct (replace_all_with re_optional_param _ t) as [p1|e1] eqn:E1.
    + rewrite bind_ok in H.
      destruct (replace_all_with re_param _ p1) as [p2|e2] eqn:E2; [discriminate|].
      apply replace_all_with_throw in E2 as [i Hi].
      destruct (js_to_string _) as [x|e3] eqn:E3; [discriminate|].
      injection Hi as <-. apply js_to_string_throw in E3. subst e3. discriminate.
    + apply replace_all_with_throw in E1 as [i Hi]. cbn zeta in Hi.
      destruct (truthy _); [|discriminate].
      destruct (js_to_string _) as [x|e3] eqn:E3; [discriminate|].
      injection Hi as <-. apply js_to_string_throw in E3. subst e3. discriminate.
  - intros Ht. rewrite (getPagePath_no_template _ _ _ _ Ht).
    destruct (decide (NODE_ENV env = Some "production")); [contradiction | reflexivity].
Qed.

Lemma getPagePath_error_witness :
  createRouter files_config default_options = Ok (router_of files_config)
  /\ NODE_ENV development ≠ Some "production"
  /\ (getPagePath development (router_of files_config) "files" []
      = Throw (Error "RegExp routes are not supported")
      <-> (find_route (router_of files_config) "files" ≫= r_template) = None).
Proof.
  assert (createRouter files_config default_options = Ok (router_of files_config)) as Hc
    by compiled.
  assert (NODE_ENV development ≠ Some "production") as Henv by discriminate.
  split; [exact Hc|]. split; [exact Henv|].
  exact (getPagePath_error files_config default_options _ development "files" [] Hc Henv).
Defined.

(** ** Paths that differ by their case *)

Lemma match_groups_literal texts p :
  same_text (template_of (map SLit texts)) p = true ->
  match_groups (template_regex (map SLit texts)) p = Some [].
Proof.
  intros Hp. unfold template_regex at 1. rewrite match_groups_anchored.
  change {| re_source := _; re_ignoreCase := true |}
    with (template_regex (map SLit texts)).
  rewrite match_at_segments, literal_names.
  rewrite <- (app_nil_r (map SLit texts)), segs_re_literals. cbn [segs_re].
  rewrite <- (sapp_nil_r p) at 2. rewrite (lits_match _ _ _ _ _ _ _ Hp).
  reflexivity.
Qed.

Lemma open_literal env name texts o p redirect st :
  same_text (template_of (map SLit texts)) p = true ->
  normalize_path (opt_search o) p = p ->
  prev st ≠ Some p ->
  open env {| routes := [template_route name (map SLit texts)]; opts := o |} p redirect st
  = (Ok (),
     {| prev := Some p;
        value := Stored (Some {| path := p; route := name; params := ∅ |});
        calls := (calls st ++ history_calls env p redirect
                  ++ [SetState (Some {| path := p; route := name; params := ∅ |})])%list |}).
Proof.
  intros Hp Hn Hprev. unfold open.
  rewrite parse_fresh by (cbn [opts]; rewrite Hn; exact Hprev).
  cbn [opts routes]. rewrite Hn. cbn [find_page template_route r_pattern r_cb r_name].
  rewrite (match_groups_literal _ _ Hp). cbn [decode_matches mbind outcome_bind fmap outcome_fmap].
  unfold history_calls.
  destruct (has_history env), redirect;
    unfold set_state, history_call, set_prev; cbn [prev value calls app];
    rewrite <- ?app_assoc; reflexivity.
Qed.

(** X17.  The pattern of a template ignores the case and the memo does not:
    two paths in normal form that differ, and that are both the text of a
    template without parameters up to the case, are opened one after the
    other as two pages of the same route, each with its call on [history]
    and its write of the atom. *)
Theorem case_variants_reopen env name texts o router p1 p2 st :
  all_ok (map SLit texts) = true ->
  norm (map SLit texts) = map SLit texts ->
  createRouter [(name, Template (template_of (map SLit texts)))] o = Ok router ->
  same_text (template_of (map SLit texts)) p1 = true ->
  same_text (template_of (map SLit texts)) p2 = true ->
  normalize_path (opt_search o) p1 = p1 ->
  normalize_path (opt_search o) p2 = p2 ->
  p1 ≠ p2 ->
  prev st ≠ Some p1 ->
  calls (open env router p2 false (open env router p1 false st).2).2
  = (calls st
     ++ history_calls env p1 false
     ++ [SetState (Some {| path := p1; route := name; params := ∅ |})]
     ++ history_calls env p2 false
     ++ [SetState (Some {| path := p2; route := name; params := ∅ |})])%list.
Proof.
  intros Hok Hnorm Hc H1 H2 Hn1 Hn2 Hne Hprev.
  rewrite (createRouter_template _ _ _ Hok), Hnorm in Hc. injection Hc as <-.
  rewrite (open_literal env name texts o p1 false st H1 Hn1 Hprev). cbn [snd].
  rewrite (open_literal env name texts o p2 false _ H2 Hn2)
    by (cbn [prev]; congruence).
  cbn [snd calls]. rewrite <- !app_assoc. reflexivity.
Qed.

Lemma case_variants_reopen_witness :
  all_ok (map SLit ["about"]) = true
  /\ norm (map SLit ["about"]) = map SLit ["about"]
  /\ createRouter [("about", Template "/about")] default_options
     = Ok {| routes := [template_route "about" [SLit "about"]]; opts := default_options |}
  /\ same_text "/about" "/About" = true
  /\ "/About" ≠ "/about"
  /\ calls (open development
              {| routes := [template_route "about" [SLit "about"]];
                 opts := default_options |} "/about" false
              (open development
                 {| routes := [template_route "about" [SLit "about"]];
                    opts := default_options |} "/About" false initial).2).2
     = [PushState "/About";
        SetState (Some {| path := "/About"; route := "about"; params := ∅ |});
        PushState "/about";
        SetState (Some {| path := "/about"; route := "about"; params := ∅ |})].
Proof.
  assert (createRouter [("about", Template (template_of (map SLit ["about"])))]
            default_options
          = Ok {| routes := [template_route "about" [SLit "about"]];
                  opts := default_options |}) as Hc
    by (apply (createRouter_template "about" [SLit "about"]); reflexivity).
  split; [reflexivity|]. split; [reflexivity|]. split; [exact Hc|].
  split; [reflexivity|]. split; [discriminate|].
  refine (case_variants_reopen development "about" ["about"] default_options _
            "/About" "/about" initial eq_refl eq_refl Hc eq_refl eq_refl _ _ _ _);
    try (vm_compute; reflexivity); discriminate.
Defined.

(** ** A star at the head of a template *)

Lemma strip_slash_head c t :
  ascii_eqb c "/" = false -> exists t', strip_slash (String c t) = String c t'.
Proof.
  intros Hc. destruct t as [|c' t]; cbn [strip_slash]; [rewrite Hc|]; eauto.
Qed.

Lemma replace_all_head re f c s :
  match_at re (String c s) (String c s) = None ->
  exists s', replace_all re f (String c s) = String c s'.
Proof.
  intros H. unfold replace_all, pieces. rewrite scan_miss by exact H.
  cbn [map str_concat piece_text]. str. eauto.
Qed.

Lemma template_pattern_star t : exists x, template_pattern (String "*" t) = String "*" x.
Proof.
  unfold template_pattern.
  destruct (replace_all_head re_special (fun m => "\" +:+ m) "*" t eq_refl) as [s1 ->].
  destruct (replace_all_head re_escaped_optional (fun _ => "/?([^/]*)") "*" s1)
    as [s2 ->]; [apply match_at_not_slash; reflexivity|].
  apply replace_all_head. apply match_at_not_slash. reflexivity.
Qed.

Lemma make_route_star name t :
  make_route name (Template ("*" +:+ t)) = Throw SyntaxError.
Proof.
  str. unfold make_route. rewrite normalize_template_strip.
  destruct (strip_slash_head "*" t eq_refl) as [t' ->]. cbn [str_or].
  destruct (template_pattern_star t') as [x ->].
  unfold RegExp_new. str. cbn [String.length]. rewrite step_start. reflexivity.
Qed.

Lemma object_keys_complete {A} (o : list (string * A)) k :
  k ∈ map fst o -> k ∈ object_keys o.
Proof.
  unfold object_keys. rewrite elem_of_app. intros H.
  destruct (array_index k) as [n|] eqn:E.
  - left. induction (map fst o) as [|x keys IH]; [inversion H|].
    cbn [index_keys foldr]. fold (index_keys keys).
    apply elem_of_cons in H as [<-|H].
    + rewrite E. apply insert_index_elem. auto.
    + destruct (array_index x); [apply insert_index_elem; right|]; apply IH, H.
  - right. apply list_elem_of_filter. auto.
Qed.

Lemma map_outcome_fails {A B} (f : A -> outcome B) l x e :
  x ∈ l -> f x = Throw e -> exists e', map_outcome f l = Throw e'.
Proof.
  intros Hin Hx. induction l as [|y l IH]; [inversion Hin|]. cbn [map_outcome].
  destruct (f y) as [z|e'] eqn:E; [|eauto]. rewrite bind_ok.
  apply elem_of_cons in Hin as [->|Hin]; [congruence|].
  destruct (IH Hin) as [e' ->]. eauto.
Qed.

(** X18.  The star is not among the characters that [createRouter] escapes: a
    template that starts with a star gives a pattern that starts with [^*],
    which [RegExp] refuses, so that [createRouter] throws for every
    configuration with such a template. *)
Theorem createRouter_star config o name t :
  NoDup (map fst config) ->
  (name, Template ("*" +:+ t)) ∈ config ->
  make_route name (Template ("*" +:+ t)) = Throw SyntaxError
  /\ exists e, createRouter config o = Throw e.
Proof.
  intros Hnd Hin. split; [apply make_route_star|].
  assert (name ∈ object_keys config) as Hk.
  { apply object_keys_complete, list_elem_of_fmap. exists (name, Template ("*" +:+ t)).
    auto. }
  unfold createRouter, make_routes.
  destruct (map_outcome_fails
              (fun name => match object_get config name with
                           | Some value => make_route name value
                           | None => Throw TypeError
                           end) (object_keys config) name SyntaxError Hk) as [e ->];
    [|eauto].
  rewrite (object_get_in _ _ _ Hnd Hin). apply make_route_star.
Qed.

Lemma createRouter_star_witness :
  NoDup (map fst [("home", Template "/"); ("notFound", Template "*")])
  /\ (("notFound", Template "*") ∈ [("home", Template "/"); ("notFound", Template "*")])
  /\ make_route "notFound" (Template "*") = Throw SyntaxError
  /\ createRouter [("home", Template "/"); ("notFound", Template "*")] default_options
     = Throw SyntaxError.
Proof.
  assert (NoDup (map fst [("home", Template "/"); ("notFound", Template "*")])) as Hnd
    by (apply (bool_decide_unpack _); vm_compute; reflexivity).
  assert (("notFound", Template "*")
          ∈ [("home", Template "/"); ("notFound", Template "*")]) as Hin
    by (apply elem_of_cons; right; apply elem_of_cons; left; reflexivity).
  split; [exact Hnd|]. split; [exact Hin|].
  destruct (createRouter_star _ default_options "notFound" "" Hnd Hin) as [Hm _].
  split; [exact Hm|]. vm_compute. reflexivity.
Defined.

(** ** The root path with a query *)

Lemma head_slash sg x :
  is_optional sg = false -> accepts sg x = true -> exists x', x = String "/" x'.
Proof.
  destruct sg as [text|name|name]; [| |discriminate]; intros _; cbn [accepts].
  - str. destruct x as [|a x]; [discriminate|]. cbn [same_text].
    intros [Ha _]%andb_true_iff. rewrite slash_canonical in Ha.
    apply ascii_eqb_eq in Ha as <-. eauto.
  - destruct x as [|a x]; [discriminate|].
    intros [Ha _]%andb_true_iff. apply ascii_eqb_eq in Ha as ->. eauto.
Qed.

Lemma no_match_without_slash sg segs c s :
  is_optional sg = false -> ascii_eqb c "/" = false ->
  match_groups (template_regex (sg :: segs)) (String c s) = None.
Proof.
  intros Hsg Hc. destruct (match_groups _ _) as [groups|] eqn:E; [|reflexivity].
  apply template_regex_sound in E as (texts & Hpath & Hacc & _).
  inversion Hacc as [|? x ? texts' Hx _]; subst.
  destruct (head_slash _ _ Hsg Hx) as [x' ->]. cbn [str_concat] in Hpath. str.
  injection Hpath as -> _. discriminate.
Qed.

Lemma make_routes_entries config rs :
  make_routes config = Ok rs ->
  Forall (fun r => exists name v, (name, v) ∈ config /\ make_route name v = Ok r) rs.
Proof.
  unfold make_routes. generalize (object_keys config) as keys.
  intros keys. revert rs. induction keys as [|k keys IH]; intros rs Hrs; simpl in Hrs.
  - injection Hrs as <-. constructor.
  - destruct (object_get config k) as [v|] eqn:Hk; [|discriminate].
    destruct (make_route k v) as [r|] eqn:Hr; [|discriminate]. simpl in Hrs.
    destruct (map_outcome _ keys) as [rs'|]; [|discriminate].
    simpl in Hrs. injection Hrs as <-. constructor; [|apply IH; reflexivity].
    exists k, v. split; [apply object_get_elem, Hk | exact Hr].
Qed.

Lemma norm_head sg segs :
  is_optional sg = false ->
  exists sg' segs', norm (sg :: segs) = sg' :: segs' /\ is_optional sg' = false.
Proof.
  intros Hsg. unfold norm. rewrite trim_cons.
  destruct segs as [|sg1 segs]; destruct sg as [[|c text]|n|n];
    try discriminate; eauto.
Qed.

(** X20.  With [opts.search], the root path followed by a query is no page of a
    router made by [createRouter] from templates of well-formed segments
    that start with a literal segment or a required parameter: [parse]
    removes the slash before the [?], and what is left does not start with
    a slash. *)
Theorem root_query_unmatched config o router q st :
  Forall (fun entry =>
            exists sg segs,
              entry.2 = Template (template_of (sg :: segs))
              /\ all_ok (sg :: segs) = true /\ is_optional sg = false) config ->
  createRouter config o = Ok router ->
  opt_search o = true ->
  prev st ≠ Some ("?" +:+ q) ->
  parse router ("/?" +:+ q) st
  = (Ok (Parsed None), set_prev (Some ("?" +:+ q)) st).
Proof.
  intros Hconfig Hc Hs Hprev. unfold createRouter in Hc.
  destruct (make_routes config) as [rs|] eqn:Hrs; [|discriminate].
  injection Hc as <-.
  assert (normalize_path (opt_search o) ("/?" +:+ q) = "?" +:+ q) as Hn.
  { rewrite Hs. unfold normalize_path, replace_first, exec.
    pose proof (search_query_slash "" "" q eq_refl) as H. rewrite !sapp_nil_l in H.
    rewrite H. reflexivity. }
  rewrite parse_fresh by (cbn [opts]; rewrite Hn; exact Hprev).
  cbn [opts routes]. rewrite Hn. rewrite find_page_none; [reflexivity|].
  eapply Forall_impl; [apply make_routes_entries, Hrs|].
  intros r (name & v & Hin & Hr). rewrite Forall_forall in Hconfig.
  destruct (Hconfig _ Hin) as (sg & segs & Hv & Hok & Hsg). cbn [snd] in Hv. subst v.
  rewrite (make_route_template _ _ Hok) in Hr. injection Hr as <-.
  destruct (norm_head sg segs Hsg) as (sg' & segs' & -> & Hsg').
  cbn [template_route r_pattern]. str.
  apply no_match_without_slash; [exact Hsg' | reflexivity].
Qed.

Lemma root_query_unmatched_witness :
  Forall (fun entry =>
            exists sg segs,
              entry.2 = Template (template_of (sg :: segs))
              /\ all_ok (sg :: segs) = true /\ is_optional sg = false)
         [("home", Template "/")]
  /\ createRouter [("home", Template "/")] {| opt_search := true; opt_links := true |}
     = Ok {| routes := [template_route "home" [SLit ""]];
             opts := {| opt_search := true; opt_links := true |} |}
  /\ parse {| routes := [template_route "home" [SLit ""]];
              opts := {| opt_search := true; opt_links := true |} |} "/?page=2" initial
     = (Ok (Parsed None), set_prev (Some "?page=2") initial)
  /\ (parse {| routes := [template_route "home" [SLit ""]];
               opts := {| opt_search := true; opt_links := true |} |} "/" initial).1
     = Ok (Parsed (Some {| path := "/"; route := "home"; params := ∅ |})).
Proof.
  assert (Forall (fun entry : string * route_value =>
                    exists sg segs,
                      entry.2 = Template (template_of (sg :: segs))
                      /\ all_ok (sg :: segs) = true /\ is_optional sg = false)
                 [("home", Template "/")]) as Hconfig.
  { repeat constructor. exists (SLit ""), []. auto. }
  assert (createRouter [("home", Template "/")]
            {| opt_search := true; opt_links := true |}
          = Ok {| routes := [template_route "home" [SLit ""]];
                  opts := {| opt_search := true; opt_links := true |} |}) as Hc
    by (apply (createRouter_template "home" [SLit ""]); reflexivity).
  split; [exact Hconfig|]. split; [exact Hc|].
  split; [|vm_compute; reflexivity].
  apply (root_query_unmatched _ _ _ "page=2" initial Hconfig Hc); [reflexivity|].
  discriminate.
Defined.

(** ** The store of the search parameters *)

Lemma utf8_form_char c x :
  utf8_encode (form_char c +:+ x) = form_char c +:+ utf8_encode x.
Proof. destruct c as [[] [] [] [] [] [] [] []]; reflexivity. Qed.

Lemma utf8_form_encode s x :
  utf8_encode (form_encode s +:+ x) = form_encode s +:+ utf8_encode x.
Proof.
  induction s as [|c s IH]; [reflexivity|]. cbn [form_encode].
  rewrite !sapp_assoc, utf8_form_char, IH. reflexivity.
Qed.

Lemma decode_form_char c x :
  percent_decode (plus_to_space (form_char c +:+ x))
  = utf8_char c +:+ percent_decode (plus_to_space x).
Proof. destruct c as [[] [] [] [] [] [] [] []]; reflexivity. Qed.

Lemma decode_utf8_char c x :
  utf8_decode (utf8_char c +:+ x) = prepend c (utf8_decode x).
Proof. destruct c as [[] [] [] [] [] [] [] []]; reflexivity. Qed.

Lemma form_decode_encode s : form_decode (form_encode s) = Ok s.
Proof.
  unfold form_decode. induction s as [|c s IH]; [reflexivity|].
  cbn [form_encode]. rewrite decode_form_char, decode_utf8_char, IH. reflexivity.
Qed.

Lemma form_char_name c : all_chars name_char (form_char c) = true.
Proof. destruct c as [[] [] [] [] [] [] [] []]; reflexivity. Qed.

Lemma form_encode_name s : all_chars name_char (form_encode s) = true.
Proof.
  induction s as [|c s IH]; [reflexivity|]. cbn [form_encode].
  rewrite all_chars_app, form_char_name, IH. reflexivity.
Qed.

Lemma name_char_no_amp c : name_char c = true -> ascii_eqb c "&" = false.
Proof. destruct c as [[] [] [] [] [] [] [] []]; vm_compute; congruence. Qed.

Lemma name_char_no_eq c : name_char c = true -> ascii_eqb c "=" = false.
Proof. destruct c as [[] [] [] [] [] [] [] []]; vm_compute; congruence. Qed.

Lemma name_char_query c : name_char c = true -> query_char c = true.
Proof. destruct c as [[] [] [] [] [] [] [] []]; vm_compute; congruence. Qed.

Lemma cut_at_app a b :
  all_chars name_char a = true -> cut_at "=" (a +:+ String "=" b) = (a, b).
Proof.
  induction a as [|c a IH]; str; [reflexivity|]. cbn [all_chars cut_at].
  intros [Hc Ha]%andb_true_iff. rewrite (name_char_no_eq _ Hc), (IH Ha). reflexivity.
Qed.

Lemma parse_pair_text kv : parse_pair (pair_text kv) = Ok kv.
Proof.
  destruct kv as [k v]. unfold parse_pair, pair_text. cbn [fst snd]. str.
  rewrite cut_at_app by apply form_encode_name. cbn [fst snd].
  rewrite !form_decode_encode. reflexivity.
Qed.

Lemma split_on_name a :
  all_chars (fun c => negb (ascii_eqb c "&")) a = true -> split_on "&" a = [a].
Proof.
  induction a as [|c a IH]; [reflexivity|]. cbn [all_chars split_on].
  intros [Hc Ha]%andb_true_iff. apply negb_true_iff in Hc. rewrite Hc, (IH Ha).
  reflexivity.
Qed.

Lemma split_on_app a b :
  all_chars (fun c => negb (ascii_eqb c "&")) a = true ->
  split_on "&" (a +:+ String "&" b) = a :: split_on "&" b.
Proof.
  induction a as [|c a IH]; str; [reflexivity|]. cbn [all_chars split_on].
  intros [Hc Ha]%andb_true_iff. apply negb_true_iff in Hc. rewrite Hc, (IH Ha).
  reflexivity.
Qed.

Lemma pair_text_no_amp kv :
  all_chars (fun c => negb (ascii_eqb c "&")) (pair_text kv) = true.
Proof.
  assert (forall s, all_chars (fun c => negb (ascii_eqb c "&")) (form_encode s) = true)
    as Hq.
  { intros s. apply (all_chars_impl name_char); [|apply form_encode_name].
    intros c H. rewrite (name_char_no_amp c H). reflexivity. }
  unfold pair_text. rewrite !all_chars_app, !Hq. reflexivity.
Qed.

Lemma pair_text_nonempty kv : String.eqb (pair_text kv) "" = false.
Proof.
  unfold pair_text. destruct (form_encode kv.1); reflexivity.
Qed.

Lemma serialize_cons kv rest :
  serialize (kv :: rest)
  = pair_text kv +:+ match rest with [] => "" | _ => "&" +:+ serialize rest end.
Proof. destruct kv as [k v]. unfold pair_text. cbn [serialize fst snd]. rewrite !sapp_assoc. reflexivity. Qed.

Lemma split_serialize kv rest :
  split_on "&" (serialize (kv :: rest)) = map pair_text (kv :: rest).
Proof.
  revert kv. induction rest as [|kv' rest IH]; intros kv; rewrite serialize_cons.
  - rewrite sapp_nil_r. apply split_on_name, pair_text_no_amp.
  - str. rewrite split_on_app by apply pair_text_no_amp. rewrite IH. reflexivity.
Qed.

Lemma utf8_serialize entries : utf8_encode (serialize entries) = serialize entries.
Proof.
  induction entries as [|[k v] rest IH]; [reflexivity|]. cbn [serialize].
  rewrite utf8_form_encode. str. cbn [utf8_encode utf8_char code]. str.
  rewrite utf8_form_encode. destruct rest as [|kv rest]; [reflexivity|].
  str. cbn [utf8_encode utf8_char]. str. rewrite IH. reflexivity.
Qed.

Lemma filter_pairs entries :
  List.filter (fun x => negb (String.eqb x "")) (map pair_text entries)
  = map pair_text entries.
Proof.
  induction entries as [|kv rest IH]; [reflexivity|]. cbn [map List.filter].
  rewrite pair_text_nonempty, IH. reflexivity.
Qed.

Lemma parse_pairs entries : map_outcome parse_pair (map pair_text entries) = Ok entries.
Proof.
  induction entries as [|kv rest IH]; [reflexivity|]. cbn [map map_outcome].
  rewrite parse_pair_text, bind_ok, IH. reflexivity.
Qed.

(** The entries read back from what [open] writes. *)
Lemma search_entries_serialize entries :
  search_entries (match serialize entries with "" => "" | s => "?" +:+ s end)
  = Ok entries.
Proof.
  destruct entries as [|kv rest]; [reflexivity|].
  assert (exists c s, serialize (kv :: rest) = String c s) as (c & s & E).
  { rewrite serialize_cons. pose proof (pair_text_nonempty kv) as H.
    destruct (pair_text kv); [discriminate|]. str. eauto. }
  rewrite E.
  change (map_outcome parse_pair
            (List.filter (fun x => negb (String.eqb x ""))
               (split_on "&" (utf8_encode (String c s))))
          = Ok (kv :: rest)).
  rewrite <- E, utf8_serialize, split_serialize, filter_pairs. apply parse_pairs.
Qed.

Lemma entries_of_declared (params : SearchObject) :
  NoDup (map fst params) ->
  Forall (fun k => array_index k = None) (map fst params) ->
  entries_of params = params.
Proof.
  intros Hnd Hidx. unfold entries_of. rewrite (object_keys_declared _ Hidx), map_map.
  transitivity (map id params); [|apply map_id].
  apply map_ext_in. intros [k v] Hin.
  apply list_elem_of_In in Hin. cbn [fst]. rewrite (object_get_in _ _ _ Hnd Hin).
  reflexivity.
Qed.

Lemma set_entry_fresh k v (o : SearchObject) :
  k ∉ map fst o -> set_entry k v o = (o ++ [(k, v)])%list.
Proof.
  induction o as [|[k' v'] o IH]; [reflexivity|]. cbn [map fst set_entry app].
  intros [Hne Hk]%not_elem_of_cons.
  destruct (String.eqb_spec k' k) as [E|_]; [congruence|]. rewrite (IH Hk).
  reflexivity.
Qed.

Lemma from_entries_fresh (l : list (string * string)) :
  forall acc,
    NoDup (map fst acc ++ map fst l) ->
    fold_left (fun o kv => set_entry kv.1 kv.2 o) l acc = (acc ++ l)%list.
Proof.
  induction l as [|[k v] l IH]; intros acc Hnd; [symmetry; apply app_nil_r|].
  cbn [fold_left fst snd map] in *.
  apply NoDup_app in Hnd as (Hacc & Hdis & Hl).
  apply NoDup_cons in Hl as [Hk Hl].
  rewrite set_entry_fresh by (intros H; apply (Hdis _ H), elem_of_cons; auto).
  rewrite IH, <- app_assoc; [reflexivity|].
  rewrite map_app. cbn [map fst]. rewrite <- app_assoc. cbn [app].
  apply NoDup_app. repeat split; [exact Hacc | | apply NoDup_cons; auto].
  intros x Hx. exact (Hdis x Hx).
Qed.

Lemma from_entries_declared (l : list (string * string)) :
  NoDup (map fst l) -> from_entries l = l.
Proof. intros H. unfold from_entries. apply (from_entries_fresh l []). exact H. Qed.

Lemma search_open_prev env params redirect st :
  s_prev (search_open env params redirect st) = Some (search_of params).
Proof.
  unfold search_open. case_decide as H; [exact H | reflexivity].
Qed.

(** X21.  [open] and the [update] action of [popstate] share one memo of the
    search string: after [open(params)], [open] of an object with the same
    serialization and [update] on a location with that search string both
    return without a call. *)
Theorem search_memo env params1 params2 redirect1 redirect2 loc st :
  search_of params2 = search_of params1 ->
  loc_search loc = search_of params1 ->
  search_open env params2 redirect2 (search_open env params1 redirect1 st)
  = search_open env params1 redirect1 st
  /\ search_update loc (search_open env params1 redirect1 st)
     = (Ok (Some false), search_open env params1 redirect1 st).
Proof.
  intros H2 Hloc. pose proof (search_open_prev env params1 redirect1 st) as Hp.
  split.
  - unfold search_open at 1. rewrite H2. case_decide; [reflexivity | contradiction].
  - unfold search_update. rewrite Hloc. case_decide; [reflexivity | contradiction].
Qed.

(** X22.  [update] reads back what [open] writes: on a location whose search
    string is the one that [open] makes of an object with distinct keys
    that are no array indices, and with another memo, [update] stores an
    object with the same properties in the same order. *)
Theorem search_round_trip loc (params : SearchObject) st :
  NoDup (map fst params) ->
  Forall (fun k => array_index k = None) (map fst params) ->
  loc_search loc = search_of params ->
  s_prev st ≠ Some (search_of params) ->
  search_update loc st
  = (Ok None,
     {| s_prev := Some (search_of params);
        s_value := params;
        s_calls := (s_calls st ++ [SearchStore params])%list |}).
Proof.
  intros Hnd Hidx Hloc Hprev. unfold search_update. rewrite Hloc.
  case_decide; [contradiction|]. unfold search_of at 1.
  rewrite search_entries_serialize, (entries_of_declared _ Hnd Hidx).
  rewrite (from_entries_declared _ Hnd). reflexivity.
Qed.

Lemma serialize_chars entries : all_chars query_char (serialize entries) = true.
Proof.
  induction entries as [|[k v] rest IH]; [reflexivity|]. cbn [serialize].
  pose proof (fun s => all_chars_impl name_char query_char (form_encode s)
                         name_char_query (form_encode_name s)) as Hq.
  rewrite !all_chars_app, !Hq.
  destruct rest; [reflexivity|]. rewrite all_chars_app, IH. reflexivity.
Qed.

Lemma query_char_no_hash c : query_char c = true -> ascii_eqb c "#" = false.
Proof. destruct c as [[] [] [] [] [] [] [] []]; vm_compute; congruence. Qed.

(** X23.  What [open] writes: on a search string that differs from the memo it
    calls [history] with [location.pathname], the search string and
    [location.hash], and stores the object it was given.  The search string
    is empty for an object without properties and otherwise a [?] followed
    by a text made of alphanumerics and [*-._+%=&]: it contains no [#]. *)
Theorem search_open_href env (params : SearchObject) redirect st :
  s_prev st ≠ Some (search_of params) ->
  s_history env = true ->
  search_open env params redirect st
  = {| s_prev := Some (search_of params);
       s_value := params;
       s_calls := (s_calls st
                   ++ [(if redirect then SearchReplace else SearchPush)
                         (loc_pathname (s_location env) +:+ search_of params
                          +:+ loc_hash (s_location env));
                       SearchStore params])%list |}
  /\ (params = [] -> search_of params = "")
  /\ (params ≠ [] -> exists s, search_of params = String "?" s
                               /\ all_chars query_char s = true).
Proof.
  intros Hprev Hh. split; [|split].
  - unfold search_open. case_decide; [contradiction|]. rewrite Hh.
    destruct redirect; reflexivity.
  - intros ->. reflexivity.
  - intros Hne. unfold search_of.
    pose proof (serialize_chars (entries_of params)) as Hc.
    destruct (serialize (entries_of params)) as [|c s] eqn:E.
    + exfalso. apply Hne. unfold entries_of in E.
      pose proof (object_keys_length params) as Hl.
      destruct (object_keys params) as [|k ks]; [destruct params; [reflexivity|discriminate]|].
      cbn [map] in E. rewrite serialize_cons in E.
      pose proof (pair_text_nonempty (k, default "" (object_get params k))) as Hn.
      destruct (pair_text _); discriminate.
    + exists (String c s). split; [reflexivity | exact Hc].
Qed.

Lemma search_memo_witness :
  search_of [("1", "x"); ("b", "1")] = search_of [("b", "1"); ("1", "x")]
  /\ loc_search {| loc_pathname := "/list"; loc_search := "?1=x&b=1"; loc_hash := "" |}
     = search_of [("b", "1"); ("1", "x")]
  /\ search_open list_page [("1", "x"); ("b", "1")] true
       (search_open list_page [("b", "1"); ("1", "x")] false search_initial)
     = search_open list_page [("b", "1"); ("1", "x")] false search_initial
  /\ search_update {| loc_pathname := "/list"; loc_search := "?1=x&b=1"; loc_hash := "" |}
       (search_open list_page [("b", "1"); ("1", "x")] false search_initial)
     = (Ok (Some false),
        search_open list_page [("b", "1"); ("1", "x")] false search_initial).
Proof.
  split; [vm_compute; reflexivity|]. split; [vm_compute; reflexivity|].
  apply search_memo; vm_compute; reflexivity.
Defined.

Lemma search_round_trip_witness :
  NoDup (map fst list_query)
  /\ Forall (fun k => array_index k = None) (map fst list_query)
  /\ loc_search list_location = search_of list_query
  /\ s_prev search_initial ≠ Some (search_of list_query)
  /\ search_update list_location search_initial
     = (Ok None,
        {| s_prev := Some "?q=a+b%26c&page=2";
           s_value := list_query;
           s_calls := [SearchStore list_query] |}).
Proof.
  assert (NoDup (map fst list_query)) as Hnd
    by (apply (bool_decide_unpack _); vm_compute; reflexivity).
  assert (Forall (fun k => array_index k = None) (map fst list_query)) as Hidx
    by (repeat constructor).
  assert (loc_search list_location = search_of list_query) as Hloc
    by (vm_compute; reflexivity).
  assert (s_prev search_initial ≠ Some (search_of list_query)) as Hprev
    by discriminate.
  split; [exact Hnd|]. split; [exact Hidx|]. split; [exact Hloc|].
  split; [exact Hprev|].
  refine (eq_trans (search_round_trip list_location list_query search_initial
                      Hnd Hidx Hloc Hprev) _).
  vm_compute. reflexivity.
Defined.

Lemma search_open_href_witness :
  s_prev search_initial ≠ Some (search_of list_query)
  /\ s_history list_page = true
  /\ search_open list_page list_query false search_initial
     = {| s_prev := Some "?q=a+b%26c&page=2";
          s_value := list_query;
          s_calls := [SearchPush "/list?q=a+b%26c&page=2#top"; SearchStore list_query] |}
  /\ search_of [] = "".
Proof.
  assert (s_prev search_initial ≠ Some (search_of list_query)) as Hprev
    by discriminate.
  split; [exact Hprev|]. split; [reflexivity|].
  destruct (search_open_href list_page list_query false search_initial Hprev eq_refl)
    as (Hopen & Hempty & _).
  split; [|reflexivity].
  refine (eq_trans Hopen _). vm_compute. reflexivity.
Defined.

Lemma object_get_set_entry k v (o : SearchObject) k' :
  object_get (set_entry k v o) k'
  = if String.eqb k k' then Some v else object_get o k'.
Proof.
  induction o as [|[k0 v0] o IH]; cbn [set_entry object_get]; [reflexivity|].
  destruct (String.eqb_spec k0 k) as [->|Hne]; cbn [object_get].
  - destruct (String.eqb k k'); reflexivity.
  - rewrite IH. destruct (String.eqb_spec k0 k') as [->|_]; [|reflexivity].
    destruct (String.eqb_spec k k') as [E|_]; [congruence | reflexivity].
Qed.

Lemma object_get_app {A} (a b : list (string * A)) k :
  object_get (a ++ b) k
  = match object_get a k with
    | Some v => Some v
    | None => object_get b k
    end.
Proof.
  induction a as [|[k0 v0] a IH]; [reflexivity|]. cbn [app object_get].
  destruct (String.eqb k0 k); [reflexivity | exact IH].
Qed.

Lemma object_get_fold (l : list (string * string)) :
  forall acc k,
    object_get (fold_left (fun o kv => set_entry kv.1 kv.2 o) l acc) k
    = match object_get (rev l) k with
      | Some v => Some v
      | None => object_get acc k
      end.
Proof.
  induction l as [|[k0 v0] l IH]; intros acc k; [reflexivity|].
  cbn [fold_left rev fst snd]. rewrite IH, object_get_app, object_get_set_entry.
  cbn [object_get]. destruct (object_get (rev l) k); [reflexivity|].
  destruct (String.eqb k0 k); reflexivity.
Qed.

(** X24.  [update] stores the object made by [Object.fromEntries]: when a name
    occurs several times in the search string, its last value is the one
    stored. *)
Theorem search_update_last_wins loc st entries k :
  search_entries (loc_search loc) = Ok entries ->
  s_prev st ≠ Some (loc_search loc) ->
  object_get (s_value (search_update loc st).2) k = object_get (rev entries) k.
Proof.
  intros He Hprev. unfold search_update. case_decide; [contradiction|].
  rewrite He. cbn [snd s_value]. unfold from_entries. rewrite object_get_fold.
  destruct (object_get (rev entries) k); reflexivity.
Qed.

Lemma search_update_last_wins_witness :
  search_entries "?a=1&b=2&a=3" = Ok [("a", "1"); ("b", "2"); ("a", "3")]
  /\ s_value (search_update
               {| loc_pathname := "/"; loc_search := "?a=1&b=2&a=3"; loc_hash := "" |}
               search_initial).2
     = [("a", "3"); ("b", "2")]
  /\ object_get
       (s_value (search_update
                   {| loc_pathname := "/"; loc_search := "?a=1&b=2&a=3"; loc_hash := "" |}
                   search_initial).2) "a"
     = Some "3".
Proof.
  assert (search_entries "?a=1&b=2&a=3" = Ok [("a", "1"); ("b", "2"); ("a", "3")]) as He
    by (vm_compute; reflexivity).
  split; [exact He|]. split; [vm_compute; reflexivity|].
  refine (eq_trans (search_update_last_wins
                      {| loc_pathname := "/"; loc_search := "?a=1&b=2&a=3"; loc_hash := "" |}
                      search_initial _ "a" He _) _);
    [discriminate | reflexivity].
Defined.
